(** * IncrementalPublisher: a shallow embedding of
      src/execution/IncrementalPublisher.js and its properties.

    Objects of the JavaScript heap (the incremental data records) live in
    a store; a reference to a record is its index in the store.  A JS [Set]
    iterates in insertion order and holds no element twice: it is a list
    that [set_add] extends at the end and [set_delete] filters.  An async
    function is cut at its [await]: [_next] is modelled by one pass of its
    loop, which either returns or suspends on the [_signalled] promise.  An
    external source is given by what a call of its [return()] does: the
    promise it returns is fulfilled, is rejected or stays pending, or the
    call returns no promise, or it throws. *)

From stdpp Require Import base option list strings.

Set Default Proof Using "Type".

(** ** Values that only pass through the publisher *)

(** Payloads ([data], [items]) are opaque to the publisher; only the
    distinction between [undefined], [null] and the rest is observed
    (by [data ?? null]); any other value is given by its JSON text. *)
Inductive JSValue :=
  | JSUndefined
  | JSNull
  | JSON (text : string).

(** A path segment is a field name or a list index; [!==] on two segments
    is strict inequality, so a name never equals an index. *)
Inductive PathKey :=
  | Field (name : string)
  | Index (i : nat).

Global Instance PathKey_eq_dec : EqDecision PathKey.
Proof. solve_decision. Defined.

Definition GraphQLError := string.

(** What a call of [asyncIterator.return()] does: it returns a promise
    that is fulfilled, one that is rejected, one that stays pending, or a
    value that is no promise; or the call throws.  Promises settle in turns
    of the event loop: [turn] orders the rejections of several promises in
    time, and promises that are rejected in the same turn are rejected in
    the order of the calls.  Every call of [return()] on one source behaves
    the same. *)
Inductive ReturnBehaviour :=
  | Resolves
  | Rejects (turn : nat) (e : GraphQLError)
  | NeverSettles
  | NotAPromise
  | Throws (e : GraphQLError).

(** How an awaited promise ends. *)
Inductive Settlement :=
  | Fulfils
  | RejectsWith (e : GraphQLError)
  | StaysPending.

(** The [TypeError] of [.catch] on a value that has no such method. *)
Definition TypeError_catch : GraphQLError :=
  "TypeError: asyncIterator.return(...).catch is not a function".

Global Instance ReturnBehaviour_eq_dec : EqDecision ReturnBehaviour.
Proof. solve_decision. Defined.

(** An external stream source.  [iter_id] is the identity of the object;
    [iter_return] is its optional [return] method. *)
Record AsyncIterator := {
  iter_id : nat;
  iter_return : option ReturnBehaviour
}.

Global Instance AsyncIterator_eq_dec : EqDecision AsyncIterator.
Proof. solve_decision. Defined.

(** ** JS Set as an insertion-ordered list *)

Section JSSet.
Context {A : Type} `{EqDecision A}.

Definition set_has (x : A) (s : list A) : bool := bool_decide (x ∈ s).

Definition set_add (x : A) (s : list A) : list A :=
  if set_has x s then s else s ++ [x].

Definition set_delete (x : A) (s : list A) : list A :=
  filter (λ y, y ≠ x) s.

End JSSet.

(** ** Records and the publisher *)

(** A reference to a record: its index in the store. *)
Abbreviation RecordRef := nat (only parsing).

(** [DeferredFragmentRecord] and [StreamItemsRecord] in one shape;
    [isStream] is [instanceof StreamItemsRecord].  A field that a class does
    not define reads as [undefined] ([JSUndefined], [None], [false]). *)
Record IncrementalDataRecord := {
  isStream : bool;
  label : option string;
  path : list PathKey;
  parentContext : option RecordRef;
  errors : list GraphQLError;
  children : list RecordRef;
  isCompleted : bool;
  data : JSValue;
  items : JSValue;
  asyncIterator : option AsyncIterator;
  isCompletedAsyncIterator : bool
}.

(** The publisher: the store of records created so far, the children of
    [_initialResult], the two sets, the generation of the [_signalled]
    promise (the number of [_trigger] calls so far) and the [isDone]
    variable of every [subscribe()] closure. *)
Record IncrementalPublisher := {
  heap : list IncrementalDataRecord;
  initialChildren : list RecordRef;
  _released : list RecordRef;
  _pending : list RecordRef;
  _signalled : nat;
  isDone : list bool
}.

Definition constructor : IncrementalPublisher :=
  {| heap := []; initialChildren := []; _released := []; _pending := [];
     _signalled := 0; isDone := [] |}.

Definition set_heap h (σ : IncrementalPublisher) :=
  {| heap := h; initialChildren := initialChildren σ;
     _released := _released σ; _pending := _pending σ;
     _signalled := _signalled σ; isDone := isDone σ |}.
Definition set_initialChildren c (σ : IncrementalPublisher) :=
  {| heap := heap σ; initialChildren := c;
     _released := _released σ; _pending := _pending σ;
     _signalled := _signalled σ; isDone := isDone σ |}.
Definition set_released r (σ : IncrementalPublisher) :=
  {| heap := heap σ; initialChildren := initialChildren σ;
     _released := r; _pending := _pending σ;
     _signalled := _signalled σ; isDone := isDone σ |}.
Definition set_pending p (σ : IncrementalPublisher) :=
  {| heap := heap σ; initialChildren := initialChildren σ;
     _released := _released σ; _pending := p;
     _signalled := _signalled σ; isDone := isDone σ |}.
Definition set_isDone d (σ : IncrementalPublisher) :=
  {| heap := heap σ; initialChildren := initialChildren σ;
     _released := _released σ; _pending := _pending σ;
     _signalled := _signalled σ; isDone := d |}.

Definition set_children c (r : IncrementalDataRecord) :=
  {| isStream := isStream r; label := label r; path := path r;
     parentContext := parentContext r; errors := errors r; children := c;
     isCompleted := isCompleted r; data := data r; items := items r;
     asyncIterator := asyncIterator r;
     isCompletedAsyncIterator := isCompletedAsyncIterator r |}.

(** [rec.children], read through a reference. *)
Definition children_of (σ : IncrementalPublisher) (r : RecordRef) : list RecordRef :=
  default [] (children <$> heap σ !! r).

(** ** Pending/released tracker *)

Definition hasNext (σ : IncrementalPublisher) : bool :=
  bool_decide (0 < length (_pending σ)).

(** [_trigger] resolves the current promise and installs a fresh one. *)
Definition _trigger (σ : IncrementalPublisher) : IncrementalPublisher :=
  {| heap := heap σ; initialChildren := initialChildren σ;
     _released := _released σ; _pending := _pending σ;
     _signalled := S (_signalled σ); isDone := isDone σ |}.

Definition _introduce (item : RecordRef) σ : IncrementalPublisher :=
  set_pending (set_add item (_pending σ)) σ.

Definition _release (item : RecordRef) σ : IncrementalPublisher :=
  if set_has item (_pending σ)
  then _trigger (set_released (set_add item (_released σ)) σ)
  else σ.

Definition _push (item : RecordRef) σ : IncrementalPublisher :=
  _trigger (set_pending (set_add item (_pending σ))
             (set_released (set_add item (_released σ)) σ)).

Definition _delete (item : RecordRef) σ : IncrementalPublisher :=
  _trigger (set_pending (set_delete item (_pending σ))
             (set_released (set_delete item (_released σ)) σ)).

Definition _publish (incrementalDataRecord : RecordRef) σ : IncrementalPublisher :=
  match heap σ !! incrementalDataRecord with
  | Some rec =>
      if isCompleted rec then _push incrementalDataRecord σ
      else _introduce incrementalDataRecord σ
  | None => σ
  end.

(** [for (const child of children) this._publish(child)] *)
Fixpoint publish_all (cs : list RecordRef) σ : IncrementalPublisher :=
  match cs with
  | [] => σ
  | child :: cs' => publish_all cs' (_publish child σ)
  end.

Definition publishInitial σ : IncrementalPublisher :=
  publish_all (initialChildren σ) σ.

(** ** Record model *)

Record Opts := {
  opt_label : option string;
  opt_path : list PathKey;
  opt_parentContext : option RecordRef;
  opt_asyncIterator : option AsyncIterator
}.

Definition DeferredFragmentRecord (opts : Opts) : IncrementalDataRecord :=
  {| isStream := false; label := opt_label opts; path := opt_path opts;
     parentContext := opt_parentContext opts; errors := []; children := [];
     isCompleted := false; data := JSNull; items := JSUndefined;
     asyncIterator := None; isCompletedAsyncIterator := false |}.

Definition StreamItemsRecord (opts : Opts) : IncrementalDataRecord :=
  {| isStream := true; label := opt_label opts; path := opt_path opts;
     parentContext := opt_parentContext opts; errors := []; children := [];
     isCompleted := false; data := JSUndefined; items := JSNull;
     asyncIterator := opt_asyncIterator opts;
     isCompletedAsyncIterator := false |}.

(** [parentContext.children.add(rec)] or
    [this._initialResult.children.add(rec)] *)
Definition add_child (parentContext : option RecordRef) (r : RecordRef) σ :=
  match parentContext with
  | Some p =>
      set_heap (alter (λ rec, set_children (set_add r (children rec)) rec) p (heap σ)) σ
  | None => set_initialChildren (set_add r (initialChildren σ)) σ
  end.

(** [parent.children.delete(child)] of [filter] *)
Definition delete_child (parentContext : option RecordRef) (r : RecordRef) σ :=
  match parentContext with
  | Some p =>
      set_heap (alter (λ rec, set_children (set_delete r (children rec)) rec) p (heap σ)) σ
  | None => set_initialChildren (set_delete r (initialChildren σ)) σ
  end.

(** [new] allocates the next free reference. *)
Definition prepareNewDeferredFragmentRecord (opts : Opts) σ
    : IncrementalPublisher * RecordRef :=
  let deferredFragmentRecord := length (heap σ) in
  (add_child (opt_parentContext opts) deferredFragmentRecord
     (set_heap (heap σ ++ [DeferredFragmentRecord opts]) σ),
   deferredFragmentRecord).

Definition prepareNewStreamItemsRecord (opts : Opts) σ
    : IncrementalPublisher * RecordRef :=
  let streamItemsRecord := length (heap σ) in
  (add_child (opt_parentContext opts) streamItemsRecord
     (set_heap (heap σ ++ [StreamItemsRecord opts]) σ),
   streamItemsRecord).

Definition complete_data (v : JSValue) (r : IncrementalDataRecord) :=
  {| isStream := isStream r; label := label r; path := path r;
     parentContext := parentContext r; errors := errors r;
     children := children r; isCompleted := true; data := v; items := items r;
     asyncIterator := asyncIterator r;
     isCompletedAsyncIterator := isCompletedAsyncIterator r |}.

Definition complete_items (v : JSValue) (r : IncrementalDataRecord) :=
  {| isStream := isStream r; label := label r; path := path r;
     parentContext := parentContext r; errors := errors r;
     children := children r; isCompleted := true; data := data r; items := v;
     asyncIterator := asyncIterator r;
     isCompletedAsyncIterator := isCompletedAsyncIterator r |}.

Definition mark_exhausted (r : IncrementalDataRecord) :=
  {| isStream := isStream r; label := label r; path := path r;
     parentContext := parentContext r; errors := errors r;
     children := children r; isCompleted := isCompleted r; data := data r;
     items := items r; asyncIterator := asyncIterator r;
     isCompletedAsyncIterator := true |}.

Definition push_error (e : GraphQLError) (r : IncrementalDataRecord) :=
  {| isStream := isStream r; label := label r; path := path r;
     parentContext := parentContext r; errors := errors r ++ [e];
     children := children r; isCompleted := isCompleted r; data := data r;
     items := items r; asyncIterator := asyncIterator r;
     isCompletedAsyncIterator := isCompletedAsyncIterator r |}.

Definition completeDeferredFragmentRecord (deferredFragmentRecord : RecordRef)
    (v : JSValue) σ : IncrementalPublisher :=
  _release deferredFragmentRecord
    (set_heap (alter (complete_data v) deferredFragmentRecord (heap σ)) σ).

Definition completeStreamItemsRecord (streamItemsRecord : RecordRef)
    (v : JSValue) σ : IncrementalPublisher :=
  _release streamItemsRecord
    (set_heap (alter (complete_items v) streamItemsRecord (heap σ)) σ).

Definition setIsCompletedAsyncIterator (streamItemsRecord : RecordRef) σ :=
  set_heap (alter mark_exhausted streamItemsRecord (heap σ)) σ.

Definition addFieldError (incrementalDataRecord : RecordRef) (e : GraphQLError) σ :=
  set_heap (alter (push_error e) incrementalDataRecord (heap σ)) σ.

(** ** Publication engine *)

(** One entry of a frame.  [of_record] is not a property of the JS object:
    it names the record the entry was built from. *)
Record IncrementalResult := {
  of_record : RecordRef;
  res_items : option JSValue;
  res_data : option JSValue;
  res_path : list PathKey;
  res_label : option string;
  res_errors : option (list GraphQLError)
}.

(** [data ?? null] *)
Definition nullish_to_null (v : JSValue) : JSValue :=
  match v with
  | JSUndefined | JSNull => JSNull
  | _ => v
  end.

Definition incrementalResult_of (r : RecordRef) (rec : IncrementalDataRecord)
    : IncrementalResult :=
  {| of_record := r;
     res_items := if isStream rec then Some (items rec) else None;
     res_data := if isStream rec then None else Some (nullish_to_null (data rec));
     res_path := path rec;
     res_label := label rec;
     res_errors :=
       if bool_decide (0 < length (errors rec)) then Some (errors rec) else None |}.

Inductive SubsequentIncrementalExecutionResult :=
  | IncrementalFrame (incremental : list IncrementalResult) (has_next : bool)
  | HasNextFrame (has_next : bool).

(** The loop of [_getIncrementalResult]; the accumulators are
    [incrementalResults] and [encounteredCompletedAsyncIterator]. *)
Fixpoint getIncrementalResult_loop (completedRecords : list RecordRef) σ
    (incrementalResults : list IncrementalResult)
    (encounteredCompletedAsyncIterator : bool)
    : IncrementalPublisher * list IncrementalResult * bool :=
  match completedRecords with
  | [] => (σ, incrementalResults, encounteredCompletedAsyncIterator)
  | incrementalDataRecord :: rest =>
      match heap σ !! incrementalDataRecord with
      | None =>
          getIncrementalResult_loop rest σ incrementalResults
            encounteredCompletedAsyncIterator
      | Some rec =>
          let σ' := publish_all (children rec) σ in
          if isStream rec && isCompletedAsyncIterator rec
          then getIncrementalResult_loop rest σ' incrementalResults true
          else getIncrementalResult_loop rest σ'
                 (incrementalResults ++ [incrementalResult_of incrementalDataRecord rec])
                 encounteredCompletedAsyncIterator
      end
  end.

Definition _getIncrementalResult (completedRecords : list RecordRef) σ
    : IncrementalPublisher * option SubsequentIncrementalExecutionResult :=
  let '(σ', incrementalResults, encounteredCompletedAsyncIterator) :=
    getIncrementalResult_loop completedRecords σ [] false in
  (σ',
   if bool_decide (0 < length incrementalResults)
   then Some (IncrementalFrame incrementalResults (hasNext σ'))
   else if encounteredCompletedAsyncIterator && negb (hasNext σ')
        then Some (HasNextFrame false)
        else None).

(** ** The consumer's iterator *)

Inductive IteratorResult :=
  | Yield (value : SubsequentIncrementalExecutionResult)
  | Done.

(** What a call (or one pass of [_next]) ends in: the promise is fulfilled,
    rejected, or the function is suspended at [await this._signalled], on
    the promise of the given generation; or the function is suspended for
    ever, at the [await] of a promise that stays pending. *)
Inductive Outcome :=
  | Fulfilled (result : IteratorResult)
  | Rejected (e : GraphQLError)
  | Awaiting (signalled : nat)
  | Unsettled.

Definition subscribe σ : IncrementalPublisher * nat :=
  (set_isDone (isDone σ ++ [false]) σ, length (isDone σ)).

(** [for (const item of this._released) this._pending.delete(item)] *)
Definition delete_all (released pending : list RecordRef) : list RecordRef :=
  foldl (λ p item, set_delete item p) pending released.

(** One pass of the [while (true)] loop of [_next] in the closure [k]: the
    first pass of a call, or the pass that follows a wake-up.  The second
    component is the batch held by the local [released]. *)
Definition _next (k : nat) σ : IncrementalPublisher * list RecordRef * Outcome :=
  if default false (isDone σ !! k) then (σ, [], Fulfilled Done)
  else
    let released := _released σ in
    let σ1 := set_released [] (set_pending (delete_all released (_pending σ)) σ) in
    let '(σ2, result) := _getIncrementalResult released σ1 in
    let σ3 := if negb (hasNext σ2) then set_isDone (<[k:=true]> (isDone σ2)) σ2 else σ2 in
    match result with
    | Some value => (σ3, released, Fulfilled (Yield value))
    | None => (σ3, released, Awaiting (_signalled σ3))
    end.

(** The rejection that comes first in time among the promises of an
    array: the least turn, and the first in the array among those of one
    turn. *)
Fixpoint first_rejection (promises : list ReturnBehaviour)
    : option (nat * GraphQLError) :=
  match promises with
  | [] => None
  | Rejects turn e :: rest =>
      match first_rejection rest with
      | Some (turn', e') =>
          if bool_decide (turn' < turn) then Some (turn', e') else Some (turn, e)
      | None => Some (turn, e)
      end
  | _ :: rest => first_rejection rest
  end.

Definition stays_pending (b : ReturnBehaviour) : bool :=
  match b with NeverSettles => true | _ => false end.

(** [Promise.all(promises)] is rejected with the reason of the promise
    that is rejected first in time; it is fulfilled when every promise is,
    a value that is no promise counting as fulfilled; otherwise it stays
    pending. *)
Definition Promise_all (promises : list ReturnBehaviour) : Settlement :=
  match first_rejection promises with
  | Some (_, e) => RejectsWith e
  | None => if existsb stays_pending promises then StaysPending else Fulfils
  end.

(** A [forEach] whose callback calls [return()]: the calls are made in
    the order of the collection, and a call that throws ends the loop.
    The result lists the calls that were made. *)
Fixpoint call_each (calls : list (AsyncIterator * ReturnBehaviour))
    : list (AsyncIterator * ReturnBehaviour) :=
  match calls with
  | [] => []
  | (it, Throws e) :: _ => [(it, Throws e)]
  | q :: rest => q :: call_each rest
  end.

(** The error that the [forEach] throws: that of its last call, if it
    threw. *)
Definition thrown_by (made : list (AsyncIterator * ReturnBehaviour))
    : option GraphQLError :=
  match last made with
  | Some (_, Throws e) => Some e
  | _ => None
  end.

(** The iterator of a pending record on which [returnStreamIterators]
    calls [return()], with what the call does. *)
Definition returnable (σ : IncrementalPublisher) (r : RecordRef)
    : option (AsyncIterator * ReturnBehaviour) :=
  rec ← heap σ !! r;
  if isStream rec
  then it ← asyncIterator rec; b ← iter_return it; Some (it, b)
  else None.

(** [returnStreamIterators] gives the iterators on which it called
    [return()] and how its own promise ends: rejected with the error that a
    call threw, and otherwise as [Promise.all] of the values returned. *)
Definition returnStreamIterators σ : list AsyncIterator * Settlement :=
  let made := call_each (omap (returnable σ) (_pending σ)) in
  (made.*1,
   match thrown_by made with
   | Some e => RejectsWith e
   | None => Promise_all (made.*2)
   end).

Definition _return (k : nat) σ : IncrementalPublisher * list AsyncIterator * Outcome :=
  let σ' := set_isDone (<[k:=true]> (isDone σ)) σ in
  let '(calls, settled) := returnStreamIterators σ' in
  (σ', calls,
   match settled with
   | Fulfils => Fulfilled Done
   | RejectsWith e => Rejected e
   | StaysPending => Unsettled
   end).

Definition _throw (k : nat) (error : GraphQLError) σ
    : IncrementalPublisher * list AsyncIterator * Outcome :=
  let σ' := set_isDone (<[k:=true]> (isDone σ)) σ in
  let '(calls, settled) := returnStreamIterators σ' in
  (σ', calls,
   match settled with
   | Fulfils => Rejected error
   | RejectsWith e => Rejected e
   | StaysPending => Unsettled
   end).

(** ** Cancellation / filter engine *)

(** [basePath[i] !== testPath[i]] for [i] below [basePath.length]; an index
    past the end of [testPath] reads [undefined], which no segment equals. *)
Definition _matchesPath (testPath basePath : list PathKey) : bool :=
  forallb (λ i, bool_decide (basePath !! i = testPath !! i))
          (seq 0 (length basePath)).

(** [_getDescendants] recurses through the [children] sets.  The recursion
    depth is bounded by [fuel]; [None] is a call stack that overflows, which
    only children sets with a cycle can cause. *)
Fixpoint _getDescendants (fuel : nat) (σ : IncrementalPublisher)
    (cs : list RecordRef) (descendants : list RecordRef)
    : option (list RecordRef) :=
  match fuel with
  | 0 => None
  | S fuel' =>
      (fix loop (cs : list RecordRef) (descendants : list RecordRef) :=
         match cs with
         | [] => Some descendants
         | child :: rest =>
             match _getDescendants fuel' σ (children_of σ child)
                     (set_add child descendants) with
             | Some descendants' => loop rest descendants'
             | None => None
             end
         end) cs descendants
  end.

(** The body of the [for] loop of [filter]. *)
Fixpoint filter_loop (nullPathArray : list PathKey) (descendants : list RecordRef)
    σ (asyncIterators : list AsyncIterator)
    : IncrementalPublisher * list AsyncIterator :=
  match descendants with
  | [] => (σ, asyncIterators)
  | child :: rest =>
      match heap σ !! child with
      | None => filter_loop nullPathArray rest σ asyncIterators
      | Some rec =>
          if negb (_matchesPath (path rec) nullPathArray)
          then filter_loop nullPathArray rest σ asyncIterators
          else
            let σ1 := _delete child σ in
            let σ2 := delete_child (parentContext rec) child σ1 in
            let asyncIterators' :=
              if isStream rec
              then match asyncIterator rec with
                   | Some it => set_add it asyncIterators
                   | None => asyncIterators
                   end
              else asyncIterators in
            filter_loop nullPathArray rest σ2 asyncIterators'
      end
  end.

(** [.catch(() => { })] on what [return()] gave: the handler turns a
    rejection into a fulfilled promise, a promise that stays pending leaves
    one that stays pending, and a value that is no promise has no [catch]
    method, so that the call throws a [TypeError]; a [return()] that threw
    has thrown. *)
Definition catch_ignore (b : ReturnBehaviour) : ReturnBehaviour :=
  match b with
  | Resolves | Rejects _ _ => Resolves
  | NeverSettles => NeverSettles
  | NotAPromise => Throws TypeError_catch
  | Throws e => Throws e
  end.

(** [asyncIterator.return?.().catch(...)]: nothing is called on an
    iterator without a [return] method. *)
Definition return_and_ignore (it : AsyncIterator)
    : option (AsyncIterator * ReturnBehaviour) :=
  b ← iter_return it; Some (it, catch_ignore b).

Definition origin_children σ (erroringIncrementalDataRecord : option RecordRef) :=
  match erroringIncrementalDataRecord with
  | None => initialChildren σ
  | Some r => children_of σ r
  end.

(** The set [asyncIterators] that the loop of [filter] has collected. *)
Definition collected_sources (nullPath : list PathKey)
    (erroringIncrementalDataRecord : option RecordRef) σ
    : option (list AsyncIterator) :=
  descendants ← _getDescendants (S (length (heap σ))) σ
                  (origin_children σ erroringIncrementalDataRecord) [];
  Some (filter_loop nullPath descendants σ []).2.

(** [filter] returns the new state and, for every [return()] it called, the
    iterator and what [return().catch(...)] gave: the promise it is left
    with, or the error thrown, which ends the [forEach] and which [filter]
    throws in turn ([thrown_by]).  A forest of [n] records is never deeper
    than [n], so [S n] is fuel enough. *)
Definition filter (nullPath : list PathKey)
    (erroringIncrementalDataRecord : option RecordRef) σ
    : option (IncrementalPublisher * list (AsyncIterator * ReturnBehaviour)) :=
  let nullPathArray := nullPath in
  descendants ← _getDescendants (S (length (heap σ))) σ
                  (origin_children σ erroringIncrementalDataRecord) [];
  let '(σ', asyncIterators) := filter_loop nullPathArray descendants σ [] in
  Some (σ', call_each (omap return_and_ignore asyncIterators)).

(** ** Sessions: sequences of calls on one publisher *)

Inductive Call :=
  | PrepareNewDeferredFragmentRecord (opts : Opts)
  | PrepareNewStreamItemsRecord (opts : Opts)
  | CompleteDeferredFragmentRecord (r : RecordRef) (v : JSValue)
  | CompleteStreamItemsRecord (r : RecordRef) (v : JSValue)
  | SetIsCompletedAsyncIterator (r : RecordRef)
  | AddFieldError (r : RecordRef) (e : GraphQLError)
  | PublishInitial
  | Filter (nullPath : list PathKey) (origin : option RecordRef)
  | Subscribe
  | Next (k : nat)
  | Return (k : nat)
  | Throw (k : nat) (e : GraphQLError).

(** What a call lets the outside observe. *)
Inductive Event :=
  | Silent
  | Created (r : RecordRef)
  | Subscribed (k : nat)
  | Pulled (k : nat) (batch : list RecordRef) (o : Outcome)
  | Terminated (requests : list AsyncIterator) (thrown : option GraphQLError)
  | Closed (k : nat) (requests : list AsyncIterator) (o : Outcome)
  | StackOverflow.

Definition ref_ok (σ : IncrementalPublisher) (r : RecordRef) : bool :=
  bool_decide (r < length (heap σ)).

Definition optref_ok σ (r : option RecordRef) : bool :=
  match r with Some r => ref_ok σ r | None => true end.

(** A call can only be passed objects that exist: records that a
    [prepareNew...] call returned and iterators that [subscribe] returned. *)
Definition call_ok σ (c : Call) : bool :=
  match c with
  | PrepareNewDeferredFragmentRecord opts
  | PrepareNewStreamItemsRecord opts => optref_ok σ (opt_parentContext opts)
  | CompleteDeferredFragmentRecord r _
  | CompleteStreamItemsRecord r _
  | SetIsCompletedAsyncIterator r
  | AddFieldError r _ => ref_ok σ r
  | PublishInitial | Subscribe => true
  | Filter _ origin => optref_ok σ origin
  | Next k | Return k | Throw k _ => bool_decide (k < length (isDone σ))
  end.

Definition perform (c : Call) σ : IncrementalPublisher * Event :=
  match c with
  | PrepareNewDeferredFragmentRecord opts =>
      let '(σ', r) := prepareNewDeferredFragmentRecord opts σ in (σ', Created r)
  | PrepareNewStreamItemsRecord opts =>
      let '(σ', r) := prepareNewStreamItemsRecord opts σ in (σ', Created r)
  | CompleteDeferredFragmentRecord r v => (completeDeferredFragmentRecord r v σ, Silent)
  | CompleteStreamItemsRecord r v => (completeStreamItemsRecord r v σ, Silent)
  | SetIsCompletedAsyncIterator r => (setIsCompletedAsyncIterator r σ, Silent)
  | AddFieldError r e => (addFieldError r e σ, Silent)
  | PublishInitial => (publishInitial σ, Silent)
  | Filter nullPath origin =>
      match filter nullPath origin σ with
      | Some (σ', requests) =>
          (σ', Terminated (requests.*1) (thrown_by requests))
      | None => (σ, StackOverflow)
      end
  | Subscribe => let '(σ', k) := subscribe σ in (σ', Subscribed k)
  | Next k => let '(σ', batch, o) := _next k σ in (σ', Pulled k batch o)
  | Return k => let '(σ', requests, o) := _return k σ in (σ', Closed k requests o)
  | Throw k e => let '(σ', requests, o) := _throw k e σ in (σ', Closed k requests o)
  end.

Definition step (c : Call) σ : IncrementalPublisher * Event :=
  if call_ok σ c then perform c σ else (σ, Silent).

(** [run cs σ]: the calls [cs] in order from [σ]; the events come out in
    the order of the calls. *)
Fixpoint run (cs : list Call) σ : IncrementalPublisher * list Event :=
  match cs with
  | [] => (σ, [])
  | c :: cs' =>
      let '(σ1, e) := step c σ in
      let '(σ2, es) := run cs' σ1 in
      (σ2, e :: es)
  end.

Definition state_after (cs : list Call) : IncrementalPublisher :=
  (run cs constructor).1.

Definition events_of (cs : list Call) : list Event :=
  (run cs constructor).2.

(** ** Predicates and observations that the properties are stated with *)

(** [r] exists and its [isCompleted] is set. *)
Definition completed (σ : IncrementalPublisher) (r : RecordRef) : Prop :=
  ∃ rec, heap σ !! r = Some rec ∧ isCompleted rec = true.

(** [r] is a record that some [prepareNew...] call created. *)
Definition allocated (σ : IncrementalPublisher) (r : RecordRef) : Prop :=
  r < length (heap σ).

(** [r.parentContext], when [r] exists. *)
Definition parent_of (σ : IncrementalPublisher) (r : RecordRef)
    : option (option RecordRef) :=
  parentContext <$> heap σ !! r.

(** The invariant of every state that calls can reach: the sets hold
    records that exist, [_released] is a part of [_pending], and a record
    sits in the children set of its [parentContext] only, which was created
    before it. *)
Record wf (σ : IncrementalPublisher) : Prop := {
  wf_pending r : r ∈ _pending σ → allocated σ r;
  wf_released r : r ∈ _released σ → r ∈ _pending σ;
  wf_released_NoDup : NoDup (_released σ);
  wf_children p c :
    c ∈ children_of σ p → p < c ∧ parent_of σ c = Some (Some p);
  wf_initial c : c ∈ initialChildren σ → parent_of σ c = Some None
}.

(** Two states with the same tree: same records, same links. *)
Definition same_tree (σ σ' : IncrementalPublisher) : Prop :=
  length (heap σ') = length (heap σ) ∧
  initialChildren σ' = initialChildren σ ∧
  ∀ r, children_of σ' r = children_of σ r ∧ parent_of σ' r = parent_of σ r.

(** An update of one record that keeps its links keeps the tree. *)
Definition keeps_links (f : IncrementalDataRecord → IncrementalDataRecord) : Prop :=
  ∀ rec, children (f rec) = children rec ∧ parentContext (f rec) = parentContext rec.

(** The entry that a record of the batch adds to the frame, if any. *)
Definition entry_of (σ : IncrementalPublisher) (r : RecordRef)
    : option IncrementalResult :=
  rec ← heap σ !! r;
  if isStream rec && isCompletedAsyncIterator rec
  then None else Some (incrementalResult_of r rec).

(** A stream record whose [isCompletedAsyncIterator] flag is set. *)
Definition exhausted (σ : IncrementalPublisher) (r : RecordRef) : bool :=
  match heap σ !! r with
  | Some rec => isStream rec && isCompletedAsyncIterator rec
  | None => false
  end.

(** The result that [_getIncrementalResult] builds from the entries of a
    batch, in a state where [hasNext()] gives [more]. *)
Definition frame_of (entries : list IncrementalResult) (encountered more : bool)
    : option SubsequentIncrementalExecutionResult :=
  if bool_decide (0 < length entries)
  then Some (IncrementalFrame entries more)
  else if encountered && negb more then Some (HasNextFrame false) else None.

(** What one pass of [_next] does when the closure is not done yet. *)
Record drained (k : nat) (σ σ' : IncrementalPublisher)
    (batch : list RecordRef) (o : Outcome) : Prop := {
  dr_batch : batch = _released σ;
  dr_heap : heap σ' = heap σ;
  dr_initial : initialChildren σ' = initialChildren σ;
  dr_pending r :
    r ∈ _pending σ' ↔
    (r ∈ _pending σ ∧ r ∉ batch) ∨
    ∃ p, p ∈ batch ∧ r ∈ children_of σ p ∧ allocated σ r;
  dr_released r :
    r ∈ _released σ' ↔ ∃ p, p ∈ batch ∧ r ∈ children_of σ p ∧ completed σ r;
  dr_released_NoDup : NoDup (_released σ');
  dr_isDone :
    isDone σ' = if hasNext σ' then isDone σ else <[k:=true]> (isDone σ);
  dr_outcome :
    o = match frame_of (omap (entry_of σ) batch)
                (existsb (exhausted σ) batch) (hasNext σ') with
        | Some value => Fulfilled (Yield value)
        | None => Awaiting (_signalled σ')
        end
}.

(** [descendant σ roots r]: [r] is reached from [roots] through children
    sets. *)
Inductive descendant (σ : IncrementalPublisher) (roots : list RecordRef)
    : RecordRef → Prop :=
  | descendant_root r : r ∈ roots → descendant σ roots r
  | descendant_child p r :
      descendant σ roots p → r ∈ children_of σ p → descendant σ roots r.

(** The fields of a record that no method assigns after [new]. *)
Definition static_of (rec : IncrementalDataRecord) :=
  (isStream rec, label rec, path rec, parentContext rec, asyncIterator rec).

Definition static (σ : IncrementalPublisher) (r : RecordRef) :=
  static_of <$> heap σ !! r.

(** [r] exists and [nullPath] is a prefix of its path. *)
Definition hit (σ : IncrementalPublisher) (nullPath : list PathKey)
    (r : RecordRef) : Prop :=
  ∃ rec, heap σ !! r = Some rec ∧ nullPath `prefix_of` path rec.

(** [r] is a stream record that holds the source [it]. *)
Definition source_of (σ : IncrementalPublisher) (r : RecordRef)
    (it : AsyncIterator) : Prop :=
  ∃ rec, heap σ !! r = Some rec ∧ isStream rec = true ∧ asyncIterator rec = Some it.

(** The records that [filter nullPath origin] removes: the descendants of
    the origin whose path starts with [nullPath]. *)
Definition pruned (σ : IncrementalPublisher) (nullPath : list PathKey)
    (origin : option RecordRef) (r : RecordRef) : Prop :=
  descendant σ (origin_children σ origin) r ∧ hit σ nullPath r.

Definition batch_of (e : Event) : list RecordRef :=
  match e with
  | Pulled _ batch _ => batch
  | _ => []
  end.

(** The frame that an event hands to the consumer, if it hands one. *)
Definition frame_in (e : Event) : option SubsequentIncrementalExecutionResult :=
  match e with
  | Pulled _ _ (Fulfilled (Yield value)) => Some value
  | _ => None
  end.

Record effect (c : Call) (σ σ' : IncrementalPublisher) (e : Event) : Prop := {
  eff_wf : wf σ';
  eff_static r x : static σ r = Some x → static σ' r = Some x;
  eff_batch r : r ∈ batch_of e → r ∈ _released σ;
  eff_batch_NoDup : NoDup (batch_of e);
  eff_pending r :
    r ∈ _pending σ' →
    (r ∈ _pending σ ∧ r ∉ batch_of e) ∨
    (c = PublishInitial ∧ r ∈ initialChildren σ) ∨
    (∃ p, p ∈ batch_of e ∧ r ∈ children_of σ p);
  eff_children p r :
    r ∈ children_of σ' p → r ∈ children_of σ p ∨ ¬ allocated σ r;
  eff_initial r :
    r ∈ initialChildren σ' → r ∈ initialChildren σ ∨ ¬ allocated σ r
}.

(** An update of one record that leaves its links and fixed fields alone. *)
Definition keeps_static (f : IncrementalDataRecord → IncrementalDataRecord) : Prop :=
  ∀ rec, children (f rec) = children rec ∧ static_of (f rec) = static_of rec.

(** [ordered σ D]: the parent of every pending record is among the records
    [D] drained so far. *)
Definition ordered (σ : IncrementalPublisher) (D : list RecordRef) : Prop :=
  ∀ r p, r ∈ _pending σ → parent_of σ r = Some (Some p) → p ∈ D.

(** [once σ D]: no drained record is pending, [D] lists every drained record
    once, and [D] is closed under parents. *)
Record once (σ : IncrementalPublisher) (D : list RecordRef) : Prop := {
  once_NoDup : NoDup D;
  once_allocated r : r ∈ D → allocated σ r;
  once_pending r : r ∈ _pending σ → r ∉ D;
  once_parent r p : r ∈ D → parent_of σ r = Some (Some p) → p ∈ D
}.

(** The records drained, and the records shown to the consumer, by a
    sequence of events. *)
Definition drained_records (es : list Event) : list RecordRef :=
  mjoin (batch_of <$> es).

Definition entries_of (e : Event) : list IncrementalResult :=
  match frame_in e with
  | Some (IncrementalFrame incremental _) => incremental
  | _ => []
  end.

Definition emitted_records (es : list Event) : list RecordRef :=
  mjoin ((λ e, of_record <$> entries_of e) <$> es).

Definition is_publishInitial (c : Call) : bool :=
  match c with PublishInitial => true | _ => false end.

(** The number of [publishInitial()] calls in a sequence of calls. *)
Definition publishInitial_calls (cs : list Call) : nat :=
  length (base.filter (λ c, is_publishInitial c = true) cs).

(** The contract of a session: [publishInitial] is called once at most. *)
Definition session (cs : list Call) : Prop := publishInitial_calls cs ≤ 1.

Definition has_next_of (f : SubsequentIncrementalExecutionResult) : bool :=
  match f with
  | IncrementalFrame _ h => h
  | HasNextFrame h => h
  end.

(** [r] is in the batch drained by the [j]-th call. *)
Definition drained_at (es : list Event) (j : nat) (r : RecordRef) : Prop :=
  ∃ e, es !! j = Some e ∧ r ∈ batch_of e.

(** The frame that the [j]-th call returns has an entry for [r]. *)
Definition emitted_at (es : list Event) (j : nat) (r : RecordRef) : Prop :=
  ∃ e, es !! j = Some e ∧ r ∈ of_record <$> entries_of e.

(** [gone σ r]: [r] exists but is neither pending nor in any children set,
    so nothing will publish it again. *)
Definition gone (σ : IncrementalPublisher) (r : RecordRef) : Prop :=
  allocated σ r ∧ (r ∉ _pending σ) ∧ (r ∉ initialChildren σ) ∧
  ∀ p, r ∉ children_of σ p.

(** The value of [hasNext()] after each call of a sequence. *)
Fixpoint hasNext_after (cs : list Call) σ : list bool :=
  match cs with
  | [] => []
  | c :: cs' => let σ1 := (step c σ).1 in hasNext σ1 :: hasNext_after cs' σ1
  end.

(** [hasNext()] on the new publisher and after each call. *)
Definition hasNext_history (cs : list Call) : list bool :=
  hasNext constructor :: hasNext_after cs constructor.

(** The number of places where a list of booleans goes from [true] to
    [false]. *)
Fixpoint falls (bs : list bool) : nat :=
  match bs with
  | [] => 0
  | b :: tl =>
      match tl with
      | b' :: _ => (if b && negb b' then 1 else 0) + falls tl
      | [] => 0
      end
  end.

(** ** Sample sessions *)

Definition opts_at (p : list PathKey) (parent : option RecordRef)
    (source : option AsyncIterator) : Opts :=
  {| opt_label := None; opt_path := p; opt_parentContext := parent;
     opt_asyncIterator := source |}.

(** A source whose [return()] rejects. *)
Definition failing_source : AsyncIterator :=
  {| iter_id := 1; iter_return := Some (Rejects 0 "cancel failed") |}.

(** Deferred record 0 at [a] with the stream record 1 at [a.items] under
    it; the child completes first. *)
Definition ready_session : list Call :=
  [ PrepareNewDeferredFragmentRecord (opts_at [Field "a"] None None);
    PrepareNewStreamItemsRecord
      (opts_at [Field "a"; Field "items"] (Some 0) None);
    PublishInitial; Subscribe;
    CompleteStreamItemsRecord 1 (JSON "[1]"); Next 0;
    CompleteDeferredFragmentRecord 0 (JSON "{}") ].

(** The same, and then the two pulls that deliver the parent and the
    child. *)
Definition nested_session : list Call := ready_session ++ [Next 0; Next 0].

(** One stream record at [x.y]; the consumer pulls and is suspended; then
    [filter] at [x] from the root removes the record. *)
Definition filtered_session : list Call :=
  [ PrepareNewStreamItemsRecord
      (opts_at [Field "x"; Field "y"] None (Some failing_source));
    PublishInitial; Subscribe; Next 0;
    Filter [Field "x"] None ].

(** One pending stream record whose source fails to terminate. *)
Definition streaming_session : list Call :=
  [ PrepareNewStreamItemsRecord
      (opts_at [Field "x"; Field "y"] None (Some failing_source));
    PublishInitial; Subscribe ].

(** The completed stream record 0 at [c] is exhausted; the deferred record
    1 at [d] is completed. *)
Definition exhausted_session : list Call :=
  [ PrepareNewStreamItemsRecord (opts_at [Field "c"] None None);
    PrepareNewDeferredFragmentRecord (opts_at [Field "d"] None None);
    PublishInitial; Subscribe;
    SetIsCompletedAsyncIterator 0;
    CompleteStreamItemsRecord 0 JSNull;
    CompleteDeferredFragmentRecord 1 (JSON "{}") ].

(** A source with a [return] method that resolves. *)
Definition live_source : AsyncIterator :=
  {| iter_id := 2; iter_return := Some Resolves |}.

(** A source whose [return()] throws. *)
Definition throwing_source : AsyncIterator :=
  {| iter_id := 3; iter_return := Some (Throws "return failed") |}.

(** The stream record 0 at [x.0] holds a source whose [return()] throws,
    the stream record 1 at [x.1] a source whose [return()] resolves; both
    are pending. *)
Definition throwing_session : list Call :=
  [ PrepareNewStreamItemsRecord
      (opts_at [Field "x"; Index 0] None (Some throwing_source));
    PrepareNewStreamItemsRecord
      (opts_at [Field "x"; Index 1] None (Some live_source));
    PublishInitial; Subscribe ].

(** The stream records 0 at [x.0] and 1 at [x.1] hold the same source, the
    deferred record 2 sits at [z]; all three are pending. *)
Definition shared_source_session : list Call :=
  [ PrepareNewStreamItemsRecord
      (opts_at [Field "x"; Index 0] None (Some live_source));
    PrepareNewStreamItemsRecord
      (opts_at [Field "x"; Index 1] None (Some live_source));
    PrepareNewDeferredFragmentRecord (opts_at [Field "z"] None None);
    PublishInitial ].

(** [publishInitial] called again after the first frame. *)
Definition republished_session : list Call :=
  [ PrepareNewDeferredFragmentRecord (opts_at [Field "a"] None None);
    CompleteDeferredFragmentRecord 0 (JSON "{}");
    PublishInitial; Subscribe; Subscribe; Next 0;
    PublishInitial; Next 1 ].

(** ** Observations for the further properties *)

(** [r.isCompleted], read through a reference. *)
Definition is_completed (σ : IncrementalPublisher) (r : RecordRef) : bool :=
  match heap σ !! r with
  | Some rec => isCompleted rec
  | None => false
  end.

(** A pass of [_next] in the closure [k] would suspend in [σ]. *)
Definition suspends (k : nat) (σ : IncrementalPublisher) : Prop :=
  ∃ g, (_next k σ).2 = Awaiting g.

(** The records that are pending once a pass has drained [_released]. *)
Definition pending_after_drain (σ : IncrementalPublisher) (r : RecordRef) : Prop :=
  (r ∈ _pending σ ∧ r ∉ _released σ) ∨
  ∃ p, p ∈ _released σ ∧ r ∈ children_of σ p ∧ allocated σ r.

(** The call is made on the iterator that [subscribe] returned as [k]. *)
Definition on_iterator (k : nat) (c : Call) : bool :=
  match c with
  | Next k' | Return k' | Throw k' _ => bool_decide (k' = k)
  | _ => false
  end.

(** [ready_session], then a third record is created under
    [_initialResult], after [publishInitial]. *)
Definition late_root_session : list Call :=
  ready_session ++
  [ PrepareNewDeferredFragmentRecord (opts_at [Field "b"] None None) ].

(** [nested_session], which delivers records 0 and 1, then a third record
    is created under record 0. *)
Definition late_child_session : list Call :=
  nested_session ++
  [ PrepareNewDeferredFragmentRecord (opts_at [Field "a"; Field "b"] (Some 0) None) ].

(** [ready_session] before record 0 completes: the consumer has pulled
    and is suspended, record 0 is pending. *)
Definition waiting_session : list Call := take 6 ready_session.

(** Two pending records, the stream record 0 and the deferred record 1,
    none completed. *)
Definition idle_session : list Call := take 4 exhausted_session.

(** [exhausted_session] before record 1 completes: the batch holds the
    exhausted stream record 0 only. *)
Definition stream_end_session : list Call := take 6 exhausted_session.

(** [filtered_session] before the [filter] call: the stream record 0 at
    [x.y] is pending and the consumer is suspended. *)
Definition unfiltered_session : list Call := take 4 filtered_session.

(** The stream record 0 at [s] is completed and exhausted; the deferred
    record 1 under it was completed before. *)
Definition exhausted_parent_session : list Call :=
  [ PrepareNewStreamItemsRecord (opts_at [Field "s"] None None);
    PrepareNewDeferredFragmentRecord
      (opts_at [Field "s"; Field "d"] (Some 0) None);
    PublishInitial; Subscribe;
    CompleteDeferredFragmentRecord 1 (JSON "{}");
    SetIsCompletedAsyncIterator 0;
    CompleteStreamItemsRecord 0 JSNull ].

(** [ready_session] before the consumer pulls for the first time. *)
Definition unpulled_session : list Call := take 5 ready_session.

(** * Properties *)

(** ** Facts on the insertion-ordered sets *)

Section JSSet_facts.
Context {A : Type} `{EqDecision A}.

Lemma elem_of_set_add (x y : A) (s : list A) : y ∈ set_add x s ↔ y = x ∨ y ∈ s.
Proof.
  unfold set_add, set_has. case_bool_decide.
  - split; [by right | by intros [->|]].
  - rewrite elem_of_app, list_elem_of_singleton. tauto.
Qed.

Lemma elem_of_set_delete (x y : A) (s : list A) : y ∈ set_delete x s ↔ y ≠ x ∧ y ∈ s.
Proof. unfold set_delete. by rewrite list_elem_of_filter. Qed.

Lemma NoDup_set_add (x : A) (s : list A) : NoDup s → NoDup (set_add x s).
Proof.
  intros Hs. unfold set_add, set_has. case_bool_decide; [done|].
  apply NoDup_app. split_and!; [done| |apply NoDup_singleton].
  intros y Hy ->%list_elem_of_singleton. done.
Qed.

Lemma NoDup_set_delete (x : A) (s : list A) : NoDup s → NoDup (set_delete x s).
Proof. apply NoDup_filter. Qed.

End JSSet_facts.

(** ** What [_publish] and the loops over it change *)

Lemma allocated_lookup σ r : allocated σ r ↔ is_Some (heap σ !! r).
Proof. unfold allocated. by rewrite lookup_lt_is_Some. Qed.

Lemma publish_frame c σ :
  heap (_publish c σ) = heap σ ∧
  initialChildren (_publish c σ) = initialChildren σ ∧
  isDone (_publish c σ) = isDone σ.
Proof.
  unfold _publish. destruct (heap σ !! c) as [rec|]; [|done].
  by destruct (isCompleted rec).
Qed.

Lemma publish_pending c σ r :
  r ∈ _pending (_publish c σ) ↔ r ∈ _pending σ ∨ (r = c ∧ allocated σ c).
Proof.
  unfold _publish. rewrite allocated_lookup.
  destruct (heap σ !! c) as [rec|] eqn:Hc.
  - destruct (isCompleted rec); simpl; rewrite elem_of_set_add;
      naive_solver.
  - split; [by left|]. intros [|[_ []]]; [done|discriminate].
Qed.

Lemma publish_released c σ r :
  r ∈ _released (_publish c σ) ↔ r ∈ _released σ ∨ (r = c ∧ completed σ c).
Proof.
  unfold _publish, completed.
  destruct (heap σ !! c) as [rec|] eqn:Hc.
  - destruct (isCompleted rec) eqn:Hd; simpl.
    + rewrite elem_of_set_add. split; [intros [->|]; eauto|].
      intros [|[-> _]]; auto.
    + split; [auto|]. intros [|(_ & rec' & [= <-] & ?)]; [done|congruence].
  - split; [auto|]. intros [|(_ & rec' & [=] & ?)]; done.
Qed.

Lemma publish_released_NoDup c σ :
  NoDup (_released σ) → NoDup (_released (_publish c σ)).
Proof.
  intros Hr. unfold _publish. destruct (heap σ !! c) as [rec|]; [|done].
  destruct (isCompleted rec); simpl; auto using NoDup_set_add.
Qed.

Lemma publish_all_frame cs σ :
  heap (publish_all cs σ) = heap σ ∧
  initialChildren (publish_all cs σ) = initialChildren σ ∧
  isDone (publish_all cs σ) = isDone σ.
Proof.
  revert σ. induction cs as [|c cs IH]; intros σ; simpl; [done|].
  destruct (IH (_publish c σ)) as (-> & -> & ->). apply publish_frame.
Qed.

Lemma publish_all_pending cs σ r :
  r ∈ _pending (publish_all cs σ) ↔ r ∈ _pending σ ∨ (r ∈ cs ∧ allocated σ r).
Proof.
  revert σ. induction cs as [|c cs IH]; intros σ; simpl.
  - rewrite elem_of_nil. tauto.
  - rewrite IH, publish_pending, elem_of_cons. unfold allocated.
    destruct (publish_frame c σ) as (-> & _). naive_solver.
Qed.

Lemma publish_all_released cs σ r :
  r ∈ _released (publish_all cs σ) ↔ r ∈ _released σ ∨ (r ∈ cs ∧ completed σ r).
Proof.
  revert σ. induction cs as [|c cs IH]; intros σ; simpl.
  - rewrite elem_of_nil. tauto.
  - rewrite IH, publish_released, elem_of_cons. unfold completed.
    destruct (publish_frame c σ) as (-> & _). naive_solver.
Qed.

Lemma publish_all_released_NoDup cs σ :
  NoDup (_released σ) → NoDup (_released (publish_all cs σ)).
Proof.
  revert σ. induction cs as [|c cs IH]; intros σ Hr; simpl; [done|].
  by apply IH, publish_released_NoDup.
Qed.

(** ** The shape of the record tree *)

Lemma same_tree_refl σ : same_tree σ σ.
Proof. by repeat split. Qed.

Lemma same_tree_heap σ σ' : heap σ' = heap σ →
  initialChildren σ' = initialChildren σ → same_tree σ σ'.
Proof.
  intros Hh Hi. unfold same_tree, children_of, parent_of. by rewrite Hh, Hi.
Qed.

Lemma wf_same_tree σ σ' :
  wf σ → same_tree σ σ' →
  (∀ r, r ∈ _pending σ' → allocated σ r) →
  (∀ r, r ∈ _released σ' → r ∈ _pending σ') →
  NoDup (_released σ') →
  wf σ'.
Proof.
  intros Hwf (Hlen & Hinit & Hlinks) Hp Hr Hnd. split; [|done|done|..].
  - intros r Hin. unfold allocated. rewrite Hlen. by apply Hp.
  - intros p c. destruct (Hlinks p) as [-> _], (Hlinks c) as [_ ->].
    apply Hwf.
  - intros c. rewrite Hinit. destruct (Hlinks c) as [_ ->]. apply Hwf.
Qed.

Lemma parent_of_allocated σ r x : parent_of σ r = Some x → allocated σ r.
Proof.
  unfold parent_of. rewrite allocated_lookup.
  destruct (heap σ !! r); [eauto | discriminate].
Qed.

Lemma wf_child_allocated σ p c : wf σ → c ∈ children_of σ p → allocated σ c.
Proof.
  intros Hwf Hc. destruct (wf_children _ Hwf _ _ Hc) as [_ Hp].
  by eapply parent_of_allocated.
Qed.

Lemma wf_initial_allocated σ c : wf σ → c ∈ initialChildren σ → allocated σ c.
Proof. intros Hwf Hc. eapply parent_of_allocated, (wf_initial _ Hwf), Hc. Qed.

Lemma same_tree_alter f r σ :
  keeps_links f → same_tree σ (set_heap (alter f r (heap σ)) σ).
Proof.
  intros Hf. split_and!; simpl; [apply length_alter|done|].
  intros r'. unfold children_of, parent_of. simpl.
  rewrite list_lookup_alter. destruct (decide (r = r')) as [->|]; [|by split].
  destruct (heap σ !! r') as [rec|]; simpl; [|done].
  by destruct (Hf rec) as [-> ->].
Qed.

Lemma wf_constructor : wf constructor.
Proof.
  split; simpl; try (intros ? []%elem_of_nil); [constructor|].
  intros p c. unfold children_of. simpl. by intros ?%elem_of_nil.
Qed.

Lemma wf_publish_all cs σ :
  wf σ → (∀ c, c ∈ cs → allocated σ c) → wf (publish_all cs σ).
Proof.
  intros Hwf Hcs. destruct (publish_all_frame cs σ) as (Hh & Hi & _).
  apply (wf_same_tree σ); [done|by apply same_tree_heap|..].
  - intros r [?|[? ?]]%publish_all_pending; [by apply Hwf|done].
  - intros r [?|[? [rec [? ?]]]]%publish_all_released;
      apply publish_all_pending; [left; by apply Hwf|right].
    split; [done|]. apply allocated_lookup. eauto.
  - apply publish_all_released_NoDup, Hwf.
Qed.

(** ** The loop of [_getIncrementalResult] *)

Lemma getIncrementalResult_loop_spec batch σ acc enc σ' acc' enc' :
  getIncrementalResult_loop batch σ acc enc = (σ', acc', enc') →
  heap σ' = heap σ ∧ initialChildren σ' = initialChildren σ ∧
  isDone σ' = isDone σ ∧
  (∀ r, r ∈ _pending σ' ↔
        r ∈ _pending σ ∨ ∃ p, p ∈ batch ∧ r ∈ children_of σ p ∧ allocated σ r) ∧
  (∀ r, r ∈ _released σ' ↔
        r ∈ _released σ ∨ ∃ p, p ∈ batch ∧ r ∈ children_of σ p ∧ completed σ r) ∧
  (NoDup (_released σ) → NoDup (_released σ')) ∧
  acc' = acc ++ omap (entry_of σ) batch ∧
  enc' = enc || existsb (exhausted σ) batch.
Proof.
  revert σ acc enc. induction batch as [|p batch IH]; intros σ acc enc Hloop.
  - simpl in Hloop. injection Hloop as <- <- <-. simpl.
    rewrite app_nil_r, orb_false_r.
    split_and!; try done; intros r; (split; [auto|]);
      intros [|(p & []%elem_of_nil & _)]; done.
  - simpl in Hloop.
    assert (∃ σ1 a e, getIncrementalResult_loop batch σ1 a e = (σ', acc', enc') ∧
              σ1 = publish_all (children_of σ p) σ ∧
              a = acc ++ from_option (λ x, [x]) [] (entry_of σ p) ∧
              e = enc || exhausted σ p) as (σ1 & a & e & Hrec & -> & -> & ->).
    { unfold entry_of, exhausted, children_of.
      destruct (heap σ !! p) as [rec|]; simpl.
      - destruct (isStream rec && isCompletedAsyncIterator rec); simpl;
          eexists _, _, _; (split; [exact Hloop|]);
          by rewrite ?app_nil_r, ?orb_true_r, ?orb_false_r.
      - eexists _, _, _. split; [exact Hloop|].
        by rewrite ?app_nil_r, ?orb_true_r, ?orb_false_r. }
    clear Hloop. set (σ1 := publish_all (children_of σ p) σ) in *.
    destruct (publish_all_frame (children_of σ p) σ) as (Hh & Hi & Hd).
    fold σ1 in Hh, Hi, Hd.
    assert (∀ r, entry_of σ1 r = entry_of σ r) as Hentry
      by (intros r; unfold entry_of; by rewrite Hh).
    assert (∀ r, exhausted σ1 r = exhausted σ r) as Hexh
      by (intros r; unfold exhausted; by rewrite Hh).
    assert (∀ r, children_of σ1 r = children_of σ r) as Hch
      by (intros r; unfold children_of; by rewrite Hh).
    apply IH in Hrec as (Hh' & Hi' & Hd' & Hpe & Hre & Hnd & -> & ->).
    split_and!; [congruence..| | | | |].
    + intros r. rewrite Hpe. unfold σ1 at 1. rewrite publish_all_pending.
      unfold allocated. rewrite Hh. setoid_rewrite Hch.
      setoid_rewrite elem_of_cons.
      split.
      * intros [[|[]]|(q & ? & ? & ?)]; eauto 10.
      * intros [|(q & [->|] & Hc & ?)]; eauto 10.
    + intros r. rewrite Hre. unfold σ1 at 1. rewrite publish_all_released.
      unfold completed. rewrite Hh. setoid_rewrite Hch.
      setoid_rewrite elem_of_cons.
      split.
      * intros [[|[]]|(q & ? & ? & ?)]; eauto 10.
      * intros [|(q & [->|] & Hc & ?)]; eauto 10.
    + intros Hn. by apply Hnd, publish_all_released_NoDup.
    + rewrite <- (app_assoc acc). f_equal. simpl.
      rewrite (list_omap_ext (entry_of σ1) (entry_of σ) batch batch).
      * by destruct (entry_of σ p).
      * by apply Forall_Forall2_diag, Forall_true.
    + simpl. rewrite <- orb_assoc. f_equal. f_equal.
      clear -Hexh. induction batch as [|b batch IHb]; simpl; [done|].
      by rewrite Hexh, IHb.
Qed.

Lemma elem_of_delete_all released pending r :
  r ∈ delete_all released pending ↔ r ∈ pending ∧ r ∉ released.
Proof.
  unfold delete_all. revert pending.
  induction released as [|x released IH]; intros pending; simpl.
  - rewrite elem_of_nil. tauto.
  - rewrite IH, elem_of_set_delete, not_elem_of_cons. tauto.
Qed.

Lemma getIncrementalResult_spec batch σ σ' result :
  _getIncrementalResult batch σ = (σ', result) →
  heap σ' = heap σ ∧ initialChildren σ' = initialChildren σ ∧
  isDone σ' = isDone σ ∧
  (∀ r, r ∈ _pending σ' ↔
        r ∈ _pending σ ∨ ∃ p, p ∈ batch ∧ r ∈ children_of σ p ∧ allocated σ r) ∧
  (∀ r, r ∈ _released σ' ↔
        r ∈ _released σ ∨ ∃ p, p ∈ batch ∧ r ∈ children_of σ p ∧ completed σ r) ∧
  (NoDup (_released σ) → NoDup (_released σ')) ∧
  result = frame_of (omap (entry_of σ) batch)
             (existsb (exhausted σ) batch) (hasNext σ').
Proof.
  unfold _getIncrementalResult.
  destruct (getIncrementalResult_loop batch σ [] false) as [[σ2 acc] enc] eqn:Hl.
  intros [= <- <-].
  apply getIncrementalResult_loop_spec in Hl
    as (Hh & Hi & Hd & Hp & Hr & Hn & -> & ->).
  by split_and!.
Qed.

Lemma next_spec k σ σ' batch o :
  _next k σ = (σ', batch, o) →
  (default false (isDone σ !! k) = true ∧ σ' = σ ∧ batch = [] ∧ o = Fulfilled Done) ∨
  (default false (isDone σ !! k) = false ∧ drained k σ σ' batch o).
Proof.
  unfold _next. destruct (default false (isDone σ !! k)).
  { intros [= <- <- <-]. by left. }
  set (σ1 := set_released [] _).
  destruct (_getIncrementalResult (_released σ) σ1) as [σ2 result] eqn:Hg.
  apply getIncrementalResult_spec in Hg as (Hh & Hi & Hd & Hp & Hr & Hn & ->).
  assert (∀ r, children_of σ1 r = children_of σ r) as Hch by done.
  assert (∀ r, entry_of σ1 r = entry_of σ r) as Hentry by done.
  assert (∀ r, exhausted σ1 r = exhausted σ r) as Hexh by done.
  set (σ3 := if negb (hasNext σ2) then _ else σ2).
  assert (heap σ3 = heap σ2 ∧ initialChildren σ3 = initialChildren σ2 ∧
          _pending σ3 = _pending σ2 ∧ _released σ3 = _released σ2 ∧
          _signalled σ3 = _signalled σ2 ∧
          isDone σ3 = if hasNext σ2 then isDone σ else <[k:=true]> (isDone σ))
    as (Hh3 & Hi3 & Hp3 & Hr3 & Hs3 & Hd3).
  { unfold σ3. destruct (hasNext σ2); simpl; by rewrite ?Hd. }
  assert (hasNext σ3 = hasNext σ2) as Hn3 by (unfold hasNext; by rewrite Hp3).
  intros Hres. right. split; [done|].
  assert (σ' = σ3 ∧ batch = _released σ ∧
          o = match frame_of (omap (entry_of σ) (_released σ))
                      (existsb (exhausted σ) (_released σ)) (hasNext σ3) with
              | Some value => Fulfilled (Yield value)
              | None => Awaiting (_signalled σ3)
              end) as (-> & -> & ->).
  { rewrite Hn3. rewrite (list_omap_ext _ (entry_of σ) _ (_released σ)) in Hres
      by (done || by apply Forall_Forall2_diag, Forall_true).
    destruct (frame_of _ _ _); by injection Hres as <- <- <-. }
  clear Hres. split; try done.
  - by rewrite Hh3, Hh.
  - by rewrite Hi3, Hi.
  - intros r. rewrite Hp3, Hp. simpl. rewrite elem_of_delete_all.
    by setoid_rewrite Hch.
  - intros r. rewrite Hr3, Hr. simpl. setoid_rewrite Hch.
    rewrite elem_of_nil. tauto.
  - rewrite Hr3. apply Hn. constructor.
  - by rewrite Hn3.
Qed.

(** ** The path test *)

Lemma prefix_lookup (basePath testPath : list PathKey) :
  basePath `prefix_of` testPath ↔
  ∀ i, i < length basePath → basePath !! i = testPath !! i.
Proof.
  revert testPath. induction basePath as [|b basePath IH]; intros testPath.
  - split; [simpl; lia | intros _; apply prefix_nil].
  - destruct testPath as [|t testPath].
    + split; [by intros ?%prefix_nil_not|].
      intros H. specialize (H 0 ltac:(simpl; lia)). discriminate.
    + split.
      * intros H. pose proof (prefix_cons_inv_1 _ _ _ _ H) as ->.
        apply prefix_cons_inv_2 in H. rewrite IH in H.
        intros [|i] Hi; [done|]. simpl. apply H. simpl in Hi. lia.
      * intros H. pose proof (H 0 ltac:(simpl; lia)) as [= ->].
        apply prefix_cons. rewrite IH. intros i Hi.
        apply (H (S i)). simpl. lia.
Qed.

Lemma matchesPath_prefix testPath basePath :
  _matchesPath testPath basePath = true ↔ basePath `prefix_of` testPath.
Proof.
  unfold _matchesPath. rewrite prefix_lookup, forallb_forall.
  split.
  - intros H i Hi. specialize (H i). rewrite bool_decide_eq_true in H.
    apply H, list_elem_of_In, elem_of_seq. lia.
  - intros H i Hi%list_elem_of_In%elem_of_seq. apply bool_decide_eq_true, H. lia.
Qed.

Lemma matchesPath_root testPath : _matchesPath testPath [] = true.
Proof. done. Qed.

Lemma matchesPath_shorter testPath basePath :
  length testPath < length basePath → _matchesPath testPath basePath = false.
Proof.
  intros Hlen. apply not_true_is_false. rewrite matchesPath_prefix.
  intros Hp%prefix_length. lia.
Qed.

(** ** Descendants *)

Lemma descendant_mono σ roots roots' r :
  (∀ x, x ∈ roots → descendant σ roots' x) →
  descendant σ roots r → descendant σ roots' r.
Proof.
  intros Hsub. induction 1 as [r Hr|p r _ IH Hc]; [by apply Hsub|].
  by eapply descendant_child.
Qed.

Lemma descendant_cons σ c roots r :
  descendant σ (c :: roots) r ↔
  r = c ∨ descendant σ (children_of σ c) r ∨ descendant σ roots r.
Proof.
  split.
  - induction 1 as [r [->|Hr]%elem_of_cons|p r _ IH Hc]; [by left| |].
    + right; right. by constructor.
    + destruct IH as [->|[IH|IH]].
      * right; left. by constructor.
      * right; left. by eapply descendant_child.
      * right; right. by eapply descendant_child.
  - intros [->|[H|H]].
    + constructor. by left.
    + eapply descendant_mono; [|exact H]. intros x Hx.
      eapply descendant_child; [|exact Hx]. constructor. by left.
    + eapply descendant_mono; [|exact H]. intros x Hx.
      constructor. by right.
Qed.

Lemma descendant_nil σ r : ¬ descendant σ [] r.
Proof.
  induction 1 as [r Hr|p r _ IH Hc]; [|done]. by apply elem_of_nil in Hr.
Qed.

(** With fuel beyond the height of the forest under [cs],
    [_getDescendants] returns, and returns the descendants. *)
Lemma getDescendants_spec σ fuel :
  wf σ → ∀ cs acc,
  (∀ c, c ∈ cs → allocated σ c ∧ length (heap σ) - c ≤ fuel) →
  ∃ ds, _getDescendants (S fuel) σ cs acc = Some ds ∧
        (∀ r, r ∈ ds ↔ r ∈ acc ∨ descendant σ cs r) ∧
        (NoDup acc → NoDup ds).
Proof.
  intros Hwf. induction fuel as [|fuel IH]; intros cs acc Hcs.
  { destruct cs as [|c cs].
    - exists acc. split_and!; [done| |done].
      intros r. split; [by left|]. intros [|[]%descendant_nil]; done.
    - destruct (Hcs c) as [Ha ?]; [by left|]. unfold allocated in Ha. lia. }
  change (_getDescendants (S (S fuel)) σ cs acc) with
    ((fix loop (cs descendants : list nat) :=
        match cs with
        | [] => Some descendants
        | child :: rest =>
            match _getDescendants (S fuel) σ (children_of σ child)
                    (set_add child descendants) with
            | Some descendants' => loop rest descendants'
            | None => None
            end
        end) cs acc).
  revert acc. induction cs as [|c cs IHcs]; intros acc.
  - exists acc. split_and!; [done| |done].
    intros r. split; [by left|]. intros [|[]%descendant_nil]; done.
  - destruct (IH (children_of σ c) (set_add c acc)) as (d1 & -> & Hd1 & Hn1).
    { intros c' Hc'. split; [by eapply wf_child_allocated|].
      destruct (wf_children _ Hwf _ _ Hc') as [Hlt _].
      destruct (Hcs c) as [Ha ?]; [by left|]. unfold allocated in Ha. lia. }
    destruct (IHcs (λ x Hx, Hcs x (list_elem_of_further _ _ _ Hx)) d1)
      as (ds & -> & Hds & Hn).
    exists ds. split_and!; [done| |].
    + intros r. rewrite Hds, Hd1, elem_of_set_add, descendant_cons. tauto.
    + intros Hacc. by apply Hn, Hn1, NoDup_set_add.
Qed.

(** ** The loop of [filter] *)

Lemma static_parent_of σ σ' r : static σ' r = static σ r → parent_of σ' r = parent_of σ r.
Proof.
  unfold static, static_of, parent_of.
  destruct (heap σ' !! r), (heap σ !! r); simpl; congruence.
Qed.

Lemma static_hit σ σ' np r : static σ' r = static σ r → hit σ' np r ↔ hit σ np r.
Proof.
  unfold static, static_of, hit.
  destruct (heap σ' !! r) as [rec'|], (heap σ !! r) as [rec|]; simpl;
    intros [=]; split; intros (? & [= <-] & ?); eexists; split; eauto; congruence.
Qed.

Lemma static_source_of σ σ' r it :
  static σ' r = static σ r → source_of σ' r it ↔ source_of σ r it.
Proof.
  unfold static, static_of, source_of.
  destruct (heap σ' !! r) as [rec'|], (heap σ !! r) as [rec|]; simpl;
    intros [=]; split; intros (? & [= <-] & ? & ?); eexists; split_and!; eauto;
    congruence.
Qed.

Lemma static_allocated σ σ' :
  (∀ r, static σ' r = static σ r) → length (heap σ') = length (heap σ).
Proof.
  intros H.
  assert (∀ r, r < length (heap σ') ↔ r < length (heap σ)) as Hlt.
  { intros r. rewrite <- !lookup_lt_is_Some. specialize (H r). unfold static in H.
    destruct (heap σ' !! r), (heap σ !! r); simpl in H; try discriminate;
      split; intros [? ?]; eauto; discriminate. }
  destruct (Nat.lt_trichotomy (length (heap σ')) (length (heap σ))) as [?|[?|?]];
    [|done|].
  - pose proof (proj2 (Hlt (length (heap σ')))). lia.
  - pose proof (proj1 (Hlt (length (heap σ)))). lia.
Qed.

Lemma delete_child_spec par c σ :
  let σ' := delete_child par c σ in
  (∀ r, static σ' r = static σ r) ∧
  _pending σ' = _pending σ ∧ _released σ' = _released σ ∧
  isDone σ' = isDone σ ∧
  (∀ p r, r ∈ children_of σ' p ↔
          r ∈ children_of σ p ∧ ¬ (r = c ∧ par = Some p)) ∧
  (∀ r, r ∈ initialChildren σ' ↔
        r ∈ initialChildren σ ∧ ¬ (r = c ∧ par = None)).
Proof.
  destruct par as [q|]; simpl.
  - split_and!; try done.
    + intros r. unfold static. simpl. rewrite list_lookup_alter.
      destruct (decide (q = r)) as [->|]; [|done].
      by destruct (heap σ !! r).
    + intros p r. unfold children_of. simpl. rewrite list_lookup_alter.
      destruct (decide (q = p)) as [->|].
      * destruct (heap σ !! p) as [rec|]; simpl.
        -- rewrite elem_of_set_delete. split; [intros [? ?]|intros [? Hn]].
           ++ split; [done|]. by intros [? _].
           ++ split; [|done]. intros ->. by apply Hn.
        -- rewrite elem_of_nil. tauto.
      * split; [|tauto]. intros ?. split; [done|]. intros [_ [=]]. done.
    + intros r. split; [|tauto]. intros ?. split; [done|]. by intros [_ [=]].
  - split_and!; try done.
    + intros p r. split; [|tauto]. intros ?. split; [done|]. by intros [_ [=]].
    + intros r. rewrite elem_of_set_delete. split; [intros [? ?]|intros [? Hn]].
      * split; [done|]. by intros [? _].
      * split; [|done]. intros ->. by apply Hn.
Qed.

Lemma filter_loop_spec np ds σ its σ' its' :
  filter_loop np ds σ its = (σ', its') →
  (∀ r, static σ' r = static σ r) ∧ isDone σ' = isDone σ ∧
  (∀ r, r ∈ _pending σ' ↔ r ∈ _pending σ ∧ ¬ (r ∈ ds ∧ hit σ np r)) ∧
  (∀ r, r ∈ _released σ' ↔ r ∈ _released σ ∧ ¬ (r ∈ ds ∧ hit σ np r)) ∧
  (NoDup (_released σ) → NoDup (_released σ')) ∧
  (∀ p r, r ∈ children_of σ' p ↔
          r ∈ children_of σ p ∧
          ¬ (r ∈ ds ∧ hit σ np r ∧ parent_of σ r = Some (Some p))) ∧
  (∀ r, r ∈ initialChildren σ' ↔
        r ∈ initialChildren σ ∧
        ¬ (r ∈ ds ∧ hit σ np r ∧ parent_of σ r = Some None)) ∧
  (∀ it, it ∈ its' ↔
         it ∈ its ∨ ∃ r, r ∈ ds ∧ hit σ np r ∧ source_of σ r it) ∧
  (NoDup its → NoDup its').
Proof.
  revert σ its. induction ds as [|c ds IH]; intros σ its Hloop; simpl in Hloop.
  { injection Hloop as <- <-.
    split_and!; try done; intros; rewrite ?elem_of_nil; try tauto.
    split; [by left|]. intros [|(? & []%elem_of_nil & _)]; done. }
  assert (∃ σ1 its1, filter_loop np ds σ1 its1 = (σ', its') ∧
    (∀ r, static σ1 r = static σ r) ∧ isDone σ1 = isDone σ ∧
    (∀ r, r ∈ _pending σ1 ↔ r ∈ _pending σ ∧ ¬ (r = c ∧ hit σ np r)) ∧
    (∀ r, r ∈ _released σ1 ↔ r ∈ _released σ ∧ ¬ (r = c ∧ hit σ np r)) ∧
    (NoDup (_released σ) → NoDup (_released σ1)) ∧
    (∀ p r, r ∈ children_of σ1 p ↔
            r ∈ children_of σ p ∧
            ¬ (r = c ∧ hit σ np r ∧ parent_of σ r = Some (Some p))) ∧
    (∀ r, r ∈ initialChildren σ1 ↔
          r ∈ initialChildren σ ∧
          ¬ (r = c ∧ hit σ np r ∧ parent_of σ r = Some None)) ∧
    (∀ it, it ∈ its1 ↔ it ∈ its ∨ (hit σ np c ∧ source_of σ c it)) ∧
    (NoDup its → NoDup its1))
    as (σ1 & its1 & Hrec & Hst & Hd & Hp & Hr & Hn & Hc & Hi & Hit & Hnit).
  { assert (∀ (P Q : Prop), ¬ Q → (P ↔ P ∧ ¬ Q)) as Habs by (intros; tauto).
    destruct (heap σ !! c) as [rec|] eqn:Hrec.
    2:{ assert (¬ hit σ np c) as Hnh by (intros (? & ? & _); congruence).
        exists σ, its. split_and!; try done;
          try (intros; apply Habs; intros [-> H']; apply Hnh; tauto).
        intros it. split; [by left|]. intros [|[? _]]; done. }
    destruct (_matchesPath (path rec) np) eqn:Hm; simpl in Hloop.
    2:{ assert (¬ hit σ np c) as Hnh.
        { intros (rec' & Hrec' & Hpre). rewrite Hrec in Hrec'.
          injection Hrec' as <-. apply matchesPath_prefix in Hpre.
          congruence. }
        exists σ, its. split_and!; try done;
          try (intros; apply Habs; intros [-> H']; apply Hnh; tauto).
        intros it. split; [by left|]. intros [|[? _]]; done. }
    assert (hit σ np c) as Hhit by (apply matchesPath_prefix in Hm; by exists rec).
    assert (parent_of σ c = Some (parentContext rec)) as Hparc
      by (unfold parent_of; by rewrite Hrec).
    eexists _, _. split; [exact Hloop|].
    destruct (delete_child_spec (parentContext rec) c (_delete c σ))
      as (Hst & Hp & Hr & Hd & Hc & Hi).
    split_and!.
    - done.
    - by rewrite Hd.
    - intros r. rewrite Hp. simpl. rewrite elem_of_set_delete.
      split; [intros [? ?]; split; [done|]; by intros [? _]|].
      intros [? Hn]. split; [|done]. intros ->. by apply Hn.
    - intros r. rewrite Hr. simpl. rewrite elem_of_set_delete.
      split; [intros [? ?]; split; [done|]; by intros [? _]|].
      intros [? Hn]. split; [|done]. intros ->. by apply Hn.
    - intros Hnd. rewrite Hr. simpl. by apply NoDup_set_delete.
    - intros p r. rewrite Hc.
      change (children_of (_delete c σ) p) with (children_of σ p).
      split; intros [? Hn]; (split; [done|]).
      + intros (-> & _ & Hpar). apply Hn. split; [done|]. congruence.
      + intros [-> Hpar]. apply Hn. split_and!; [done..|]. congruence.
    - intros r. rewrite Hi. simpl.
      split; intros [? Hn]; (split; [done|]).
      + intros (-> & _ & Hpar). apply Hn. split; [done|]. congruence.
      + intros [-> Hpar]. apply Hn. split_and!; [done..|]. congruence.
    - intros it.
      assert (source_of σ c it ↔ isStream rec = true ∧ asyncIterator rec = Some it)
        as Hsrc.
      { unfold source_of. rewrite Hrec. split; [|by eauto].
        by intros (? & [= <-] & ?). }
      rewrite Hsrc. destruct (isStream rec) eqn:Hs.
      + destruct (asyncIterator rec) as [it'|] eqn:Ha.
        * rewrite elem_of_set_add. split.
          -- intros [->|]; [by right|by left].
          -- intros [|[_ [_ [= ->]]]]; [by right|by left].
        * split; [by left|]. intros [|[_ [_ [=]]]]; done.
      + split; [by left|]. intros [|[_ [[=] _]]]; done.
    - intros Hnd. destruct (isStream rec); [|done].
      destruct (asyncIterator rec); [by apply NoDup_set_add|done]. }
  apply IH in Hrec as (Hst' & Hd' & Hp' & Hr' & Hn' & Hc' & Hi' & Hit' & Hnit').
  assert (∀ r, hit σ1 np r ↔ hit σ np r) as Hhit
    by (intros r; apply static_hit, Hst).
  assert (∀ r, parent_of σ1 r = parent_of σ r) as Hpar
    by (intros r; apply static_parent_of, Hst).
  assert (∀ r it, source_of σ1 r it ↔ source_of σ r it) as Hsrc
    by (intros r it; apply static_source_of, Hst).
  split_and!.
  - intros r. by rewrite Hst', Hst.
  - congruence.
  - intros r. rewrite Hp', Hp, Hhit, elem_of_cons. tauto.
  - intros r. rewrite Hr', Hr, Hhit, elem_of_cons. tauto.
  - auto.
  - intros p r. rewrite Hc', Hc, Hhit, Hpar, elem_of_cons. tauto.
  - intros r. rewrite Hi', Hi, Hhit, Hpar, elem_of_cons. tauto.
  - intros it. rewrite Hit', Hit. setoid_rewrite elem_of_cons.
    setoid_rewrite Hhit. setoid_rewrite Hsrc. split.
    + intros [[|[]]|(r & ? & ? & ?)]; eauto 10.
    + intros [|(r & [->|] & ? & ?)]; eauto 10.
  - auto.
Qed.

(** ** [filter] as a whole *)

(** *** The [forEach] loops that call [return()] *)

Lemma first_throw (l : list (AsyncIterator * ReturnBehaviour)) :
  (∀ q e, q ∈ l → q.2 ≠ Throws e) ∨
  ∃ pre it e post,
    l = pre ++ (it, Throws e) :: post ∧ ∀ q e', q ∈ pre → q.2 ≠ Throws e'.
Proof.
  induction l as [|[it b] l IH].
  { left. by intros q e ?%elem_of_nil. }
  assert ((∃ e, b = Throws e) ∨ ∀ e, b ≠ Throws e) as [[e ->]|Hb]
    by (destruct b; eauto).
  { right. exists [], it, e, l. split; [done|]. by intros q e' ?%elem_of_nil. }
  destruct IH as [Hn|(pre & it' & e & post & -> & Hpre)].
  - left. intros q e [->|?]%elem_of_cons; [apply Hb|by apply Hn].
  - right. exists ((it, b) :: pre), it', e, post. split; [done|].
    intros q e' [->|?]%elem_of_cons; [apply Hb|by apply Hpre].
Qed.

Lemma call_each_faithful l :
  (∀ q e, q ∈ l → q.2 ≠ Throws e) → call_each l = l ∧ thrown_by l = None.
Proof.
  intros H. split.
  - induction l as [|[it b] l IH]; [done|]. simpl.
    rewrite IH by (intros q e ?; apply H; by right).
    destruct b; try done. by destruct (H (it, Throws e) e ltac:(by left)).
  - unfold thrown_by. destruct (last l) as [[it b]|] eqn:Hl; [|done].
    destruct b; try done. apply last_Some in Hl as [l' ->].
    destruct (H (it, Throws e) e); [|done]. apply elem_of_app. right. by left.
Qed.

Lemma call_each_cut pre it e post :
  (∀ q e', q ∈ pre → q.2 ≠ Throws e') →
  call_each (pre ++ (it, Throws e) :: post) = pre ++ [(it, Throws e)] ∧
  thrown_by (pre ++ [(it, Throws e)]) = Some e.
Proof.
  intros H. split; [|unfold thrown_by; by rewrite last_snoc].
  induction pre as [|[it' b] pre IH]; [done|]. simpl.
  rewrite IH by (intros q e' ?; apply (H q e'); by right).
  destruct b; try done. by destruct (H (it', Throws e0) e0 ltac:(by left)).
Qed.

Lemma omap_app_cons_inv {A B} (f : A → option B) l pre y post :
  omap f l = pre ++ y :: post →
  ∃ l1 x l2, l = l1 ++ x :: l2 ∧ omap f l1 = pre ∧ f x = Some y ∧ omap f l2 = post.
Proof.
  revert pre. induction l as [|a l IH]; intros pre; simpl.
  { by destruct pre. }
  destruct (f a) as [b|] eqn:Hfa.
  - destruct pre as [|b' pre]; simpl.
    + intros [= -> <-]. by exists [], a, l.
    + intros [= -> (l1 & x & l2 & -> & <- & ? & <-)%IH].
      exists (a :: l1), x, l2. simpl. by rewrite Hfa.
  - intros (l1 & x & l2 & -> & <- & ? & <-)%IH.
    exists (a :: l1), x, l2. simpl. by rewrite Hfa.
Qed.

Lemma requests_of_iterators (its : list AsyncIterator) :
  (omap return_and_ignore its).*1 = base.filter (λ it, is_Some (iter_return it)) its ∧
  ∀ q, q ∈ omap return_and_ignore its →
       q.1 ∈ its ∧ ∃ b, iter_return q.1 = Some b ∧ q.2 = catch_ignore b.
Proof.
  induction its as [|it its [IH1 IH2]]; simpl.
  - split; [done|]. by intros q ?%elem_of_nil.
  - assert (return_and_ignore it = (λ b, (it, catch_ignore b)) <$> iter_return it)
      as -> by (unfold return_and_ignore; by destruct (iter_return it)).
    destruct (iter_return it) as [b|] eqn:Hb; simpl.
    + rewrite filter_cons_True by (rewrite Hb; eauto). split; [by f_equal|].
      intros q [->|[? ?]%IH2]%elem_of_cons; simpl.
      * split; [by left|eauto].
      * split; [by right|done].
    + rewrite filter_cons_False by (rewrite Hb; by intros [? ?]).
      split; [done|]. intros q [? ?]%IH2. split; [by right|done].
Qed.

Lemma catch_ignore_Throws b e :
  catch_ignore b = Throws e ↔
  b = Throws e ∨ (b = NotAPromise ∧ e = TypeError_catch).
Proof.
  destruct b; simpl; split; try done; try (by intros [|[? ?]]).
  - intros [= <-]. by right.
  - by intros [|[_ ->]].
  - intros [= ->]. by left.
Qed.

(** The calls of [return()] that the [forEach] of [filter] makes on the
    collected sources [its]: no source is called twice; when no call
    throws, every source that has a [return] method is called; when a call
    throws, it is the last one, and the sources collected after it are not
    called. *)
Lemma filter_requests_spec (its : list AsyncIterator) :
  NoDup its →
  let requests := call_each (omap return_and_ignore its) in
  NoDup (requests.*1) ∧
  (∀ it, it ∈ requests.*1 → it ∈ its ∧ is_Some (iter_return it)) ∧
  (∀ it b, (it, b) ∈ requests → ∃ b0, iter_return it = Some b0 ∧ b = catch_ignore b0) ∧
  (thrown_by requests = None ↔
   ∀ it, it ∈ its →
         (∀ e, iter_return it ≠ Some (Throws e)) ∧
         iter_return it ≠ Some NotAPromise) ∧
  (thrown_by requests = None →
   ∀ it, it ∈ its → is_Some (iter_return it) → it ∈ requests.*1) ∧
  (∀ e, thrown_by requests = Some e →
   ∃ before it after,
     its = before ++ it :: after ∧
     (iter_return it = Some (Throws e) ∨
      (iter_return it = Some NotAPromise ∧ e = TypeError_catch)) ∧
     last (requests.*1) = Some it ∧
     (∀ it', it' ∈ before → is_Some (iter_return it') → it' ∈ requests.*1) ∧
     (∀ it', it' ∈ after → it' ∉ requests.*1)).
Proof.
  intros Hnd requests. unfold requests.
  destruct (requests_of_iterators its) as [Hfst Hin].
  destruct (first_throw (omap return_and_ignore its))
    as [Hno|(pre & it & e & post & Hl & Hpre)].
  - destruct (call_each_faithful _ Hno) as [-> Ht]. rewrite Ht, Hfst.
    split_and!.
    + by apply NoDup_filter.
    + by intros it [? ?]%list_elem_of_filter.
    + intros it b [_ (b0 & ? & ?)]%Hin. eauto.
    + split; [intros _|done]. intros it Hit. split.
      * intros e Hret.
        apply (Hno (it, Throws e) e); [|done].
        apply list_elem_of_omap. exists it. split; [done|].
        unfold return_and_ignore. by rewrite Hret.
      * intros Hret.
        apply (Hno (it, Throws TypeError_catch) TypeError_catch); [|done].
        apply list_elem_of_omap. exists it. split; [done|].
        unfold return_and_ignore. by rewrite Hret.
    + intros _ it ? ?. by apply list_elem_of_filter.
    + by intros e [=].
  - destruct (call_each_cut pre it e post Hpre) as [Hc Ht].
    rewrite Hl, Hc, Ht.
    apply omap_app_cons_inv in Hl
      as (before & it0 & after & -> & Hbefore & Hit0 & Hafter).
    assert (it0 = it ∧ ∃ b, iter_return it = Some b ∧ catch_ignore b = Throws e)
      as [-> (b & Hb & Hcb)].
    { unfold return_and_ignore in Hit0.
      destruct (iter_return it0) as [b|] eqn:Hb; simpl in Hit0; [|done].
      injection Hit0 as <- ?. eauto. }
    apply catch_ignore_Throws in Hcb.
    apply NoDup_app in Hnd as (Hnb & Hba & [Hia Hna]%NoDup_cons).
    destruct (requests_of_iterators before) as [Hfb Hinb].
    rewrite Hbefore in Hfb, Hinb.
    rewrite fmap_app, Hfb. simpl.
    split_and!.
    + apply NoDup_app. split_and!.
      * by apply NoDup_filter.
      * intros x [_ Hx]%list_elem_of_filter ->%list_elem_of_singleton.
        apply (Hba it Hx). by left.
      * apply NoDup_singleton.
    + intros x [[? ?]%list_elem_of_filter| ->%list_elem_of_singleton]%elem_of_app.
      * split; [|done]. apply elem_of_app. by left.
      * split; [|by rewrite Hb]. apply elem_of_app. right. by left.
    + intros x bx [[_ (b0 & ? & ?)]%Hinb| [= -> ->]%list_elem_of_singleton]%elem_of_app.
      * eauto.
      * exists b. split; [done|]. by destruct Hcb as [->|[-> ->]].
    + split; [done|]. intros H.
      destruct (H it) as [H1 H2]; [apply elem_of_app; right; by left|].
      destruct Hcb as [->|[-> _]]; [by destruct (H1 e)|done].
    + done.
    + intros e' [= <-]. exists before, it, after. split_and!.
      * done.
      * destruct Hcb as [->|[-> ->]]; auto.
      * by rewrite last_snoc.
      * intros x ? ?. apply elem_of_app. left. by apply list_elem_of_filter.
      * intros x Hx [[_ Hxb]%list_elem_of_filter| ->%list_elem_of_singleton]%elem_of_app.
        -- apply (Hba x Hxb). by right.
        -- done.
Qed.

Lemma origin_children_allocated σ origin c :
  wf σ → c ∈ origin_children σ origin → allocated σ c.
Proof.
  intros Hwf. destruct origin as [o|]; simpl.
  - by apply wf_child_allocated.
  - by apply wf_initial_allocated.
Qed.

Lemma descendant_allocated σ roots r :
  wf σ → (∀ c, c ∈ roots → allocated σ c) → descendant σ roots r → allocated σ r.
Proof.
  intros Hwf Hroots. induction 1 as [r Hr|p r _ _ Hc]; [by apply Hroots|].
  by eapply wf_child_allocated.
Qed.

Lemma filter_spec np origin σ :
  wf σ →
  ∃ σ' requests,
    filter np origin σ = Some (σ', requests) ∧
    (∀ r, static σ' r = static σ r) ∧ isDone σ' = isDone σ ∧
    (∀ r, r ∈ _pending σ' ↔ r ∈ _pending σ ∧ ¬ pruned σ np origin r) ∧
    (∀ r, r ∈ _released σ' ↔ r ∈ _released σ ∧ ¬ pruned σ np origin r) ∧
    NoDup (_released σ') ∧
    (∀ p r, r ∈ children_of σ' p ↔ r ∈ children_of σ p ∧ ¬ pruned σ np origin r) ∧
    (∀ r, r ∈ initialChildren σ' ↔
          r ∈ initialChildren σ ∧ ¬ pruned σ np origin r) ∧
    ∃ its,
      collected_sources np origin σ = Some its ∧ NoDup its ∧
      (∀ it, it ∈ its ↔ ∃ r, pruned σ np origin r ∧ source_of σ r it) ∧
      requests = call_each (omap return_and_ignore its).
Proof.
  intros Hwf. unfold filter, collected_sources.
  destruct (getDescendants_spec σ (length (heap σ)) Hwf
              (origin_children σ origin) []) as (ds & -> & Hds & Hnd).
  { intros c Hc. split; [by eapply origin_children_allocated|lia]. }
  simpl.
  destruct (filter_loop np ds σ []) as [σ' its] eqn:Hloop.
  apply filter_loop_spec in Hloop
    as (Hst & Hd & Hp & Hr & Hn & Hc & Hi & Hit & Hnit).
  assert (∀ r, r ∈ ds ↔ descendant σ (origin_children σ origin) r) as Hds'.
  { intros r. rewrite Hds, elem_of_nil. tauto. }
  exists σ', (call_each (omap return_and_ignore its)).
  unfold pruned. setoid_rewrite <- Hds'.
  split_and!; try done.
  - apply Hn, Hwf.
  - intros p r. rewrite Hc. split; intros [Hin Hno]; (split; [done|]).
    + intros [? ?]. apply Hno. split_and!; [done..|].
      by destruct (wf_children _ Hwf _ _ Hin).
    + intros (? & ? & ?). by apply Hno.
  - intros r. rewrite Hi. split; intros [Hin Hno]; (split; [done|]).
    + intros [? ?]. apply Hno. split_and!; [done..|].
      by apply (wf_initial _ Hwf).
    + intros (? & ? & ?). by apply Hno.
  - exists its. simpl. split_and!; [done|apply Hnit; constructor| |done].
    intros it. rewrite Hit, elem_of_nil.
    split; [intros [[]|(r & ? & ? & ?)]|intros (r & [? ?] & ?)]; eauto 10.
Qed.

(** ** What one call changes *)

Lemma alter_keeps_static f i σ :
  keeps_static f →
  let σ' := set_heap (alter f i (heap σ)) σ in
  same_tree σ σ' ∧ ∀ r, static σ' r = static σ r.
Proof.
  intros Hf. simpl. split.
  - apply same_tree_alter. intros rec. destruct (Hf rec) as [? [=]]. by split.
  - intros r. unfold static. simpl. rewrite list_lookup_alter.
    destruct (decide (i = r)) as [->|]; [|done].
    destruct (heap σ !! r) as [rec|]; simpl; [|done].
    by destruct (Hf rec) as [_ ->].
Qed.

Lemma effect_alter_release c f i σ e :
  wf σ → keeps_static f → batch_of e = [] → c ≠ PublishInitial →
  effect c σ (_release i (set_heap (alter f i (heap σ)) σ)) e.
Proof.
  intros Hwf Hf He Hc.
  destruct (alter_keeps_static f i σ Hf) as [Htree Hst].
  set (σ1 := set_heap _ σ) in *.
  assert (wf σ1) as Hwf1.
  { apply (wf_same_tree σ); [done..| | |]; apply Hwf. }
  assert (_pending (_release i σ1) = _pending σ ∧
          (∀ r, r ∈ _released (_release i σ1) → r ∈ _pending σ) ∧
          NoDup (_released (_release i σ1)) ∧
          heap (_release i σ1) = heap σ1 ∧
          initialChildren (_release i σ1) = initialChildren σ)
    as (Hp & Hr & Hn & Hh & Hi).
  { unfold _release, set_has. case_bool_decide as Hin; simpl.
    - split_and!; try done.
      + intros r [->|?]%elem_of_set_add; [done|by apply Hwf].
      + apply NoDup_set_add, Hwf.
    - split_and!; try done; apply Hwf. }
  destruct Htree as (Hlen & _ & Hlinks).
  assert (∀ r, children_of (_release i σ1) r = children_of σ r) as Hch.
  { intros r. destruct (Hlinks r) as [<- _]. unfold children_of. by rewrite Hh. }
  split; rewrite ?He, ?Hp.
  - apply (wf_same_tree σ1); [done|by apply same_tree_heap|..].
    + rewrite Hp. apply Hwf1.
    + rewrite Hp. done.
    + done.
  - intros r x. unfold static at 2. rewrite Hh. fold (static σ1 r). by rewrite Hst.
  - by intros r ?%elem_of_nil.
  - constructor.
  - intros r ?. left. split; [done|]. by intros ?%elem_of_nil.
  - intros p r. rewrite Hch. by left.
  - intros r. rewrite Hi. by left.
Qed.

Lemma prepare_facts rec σ :
  optref_ok σ (parentContext rec) = true → children rec = [] →
  let r0 := length (heap σ) in
  let σ' := add_child (parentContext rec) r0 (set_heap (heap σ ++ [rec]) σ) in
  length (heap σ') = S r0 ∧
  (∀ r, r < r0 → static σ' r = static σ r) ∧
  parent_of σ' r0 = Some (parentContext rec) ∧
  (∀ p c, c ∈ children_of σ' p →
          c ∈ children_of σ p ∨ (c = r0 ∧ parentContext rec = Some p)) ∧
  (∀ c, c ∈ initialChildren σ' →
        c ∈ initialChildren σ ∨ (c = r0 ∧ parentContext rec = None)) ∧
  _pending σ' = _pending σ ∧ _released σ' = _released σ ∧
  isDone σ' = isDone σ.
Proof.
  intros Hok Hnil r0 σ'. unfold σ'.
  assert (∀ r, r < r0 → (heap σ ++ [rec]) !! r = heap σ !! r) as Hold
    by (intros r Hr; by apply lookup_app_l).
  assert ((heap σ ++ [rec]) !! r0 = Some rec) as Hnew.
  { rewrite lookup_app_r by (unfold r0; lia). unfold r0.
    by rewrite Nat.sub_diag. }
  assert (∀ r, r0 < r → (heap σ ++ [rec]) !! r = None) as Hout.
  { intros r Hr. apply lookup_ge_None. rewrite length_app. simpl.
    fold r0. lia. }
  destruct (parentContext rec) as [q|] eqn:Hpar; simpl.
  - simpl in Hok. apply bool_decide_eq_true in Hok. fold r0 in Hok.
    split_and!; try done.
    + rewrite length_alter, length_app. simpl. fold r0. lia.
    + intros r Hr. unfold static. simpl. rewrite list_lookup_alter.
      destruct (decide (q = r)) as [->|]; rewrite Hold by done; [|done].
      by destruct (heap σ !! r).
    + unfold parent_of. simpl. rewrite list_lookup_alter_ne by lia.
      rewrite Hnew. simpl. by rewrite Hpar.
    + intros p c. unfold children_of. simpl. rewrite list_lookup_alter.
      destruct (decide (q = p)) as [->|Hne].
      * rewrite Hold by done. destruct (heap σ !! p) as [recp|]; simpl.
        -- intros [->|?]%elem_of_set_add; auto.
        -- by intros ?%elem_of_nil.
      * destruct (Nat.lt_trichotomy p r0) as [?|[->|?]].
        -- rewrite Hold by done. auto.
        -- rewrite Hnew. simpl. rewrite Hnil. by intros ?%elem_of_nil.
        -- rewrite Hout by done. simpl. by intros ?%elem_of_nil.
    + auto.
  - split_and!; try done.
    + rewrite length_app. simpl. fold r0. lia.
    + intros r Hr. unfold static. simpl. by rewrite Hold.
    + unfold parent_of. simpl. rewrite Hnew. simpl. by rewrite Hpar.
    + intros p c. unfold children_of. simpl.
      destruct (Nat.lt_trichotomy p r0) as [?|[->|?]].
      * rewrite Hold by done. auto.
      * rewrite Hnew. simpl. rewrite Hnil. by intros ?%elem_of_nil.
      * rewrite Hout by done. simpl. by intros ?%elem_of_nil.
    + intros c [->|?]%elem_of_set_add; auto.
Qed.

Lemma static_Some_lt σ r x : static σ r = Some x → r < length (heap σ).
Proof.
  unfold static. intros H. apply lookup_lt_is_Some.
  destruct (heap σ !! r); [eauto|discriminate].
Qed.

Lemma effect_prepare c rec σ e :
  wf σ → optref_ok σ (parentContext rec) = true → children rec = [] →
  batch_of e = [] →
  effect c σ (add_child (parentContext rec) (length (heap σ))
                (set_heap (heap σ ++ [rec]) σ)) e.
Proof.
  intros Hwf Hok Hnil He.
  destruct (prepare_facts rec σ Hok Hnil)
    as (Hlen & Hst & Hpar & Hch & Hi & Hp & Hr & _).
  set (r0 := length (heap σ)) in *. set (σ' := add_child _ _ _) in *.
  assert (∀ r x, parent_of σ r = Some x → parent_of σ' r = Some x) as Hpo.
  { intros r x Hx. rewrite <- Hx. apply static_parent_of, Hst.
    by apply parent_of_allocated in Hx. }
  assert (¬ allocated σ r0) as Hfresh by (unfold allocated, r0; lia).
  split; rewrite ?He, ?Hp.
  - split.
    + intros r Hin. rewrite Hp in Hin. apply Hwf in Hin.
      unfold allocated in *. rewrite Hlen. fold r0 in Hin. lia.
    + rewrite Hp, Hr. apply Hwf.
    + rewrite Hr. apply Hwf.
    + intros p c' [Hin|[-> Heq]]%Hch.
      * destruct (wf_children _ Hwf _ _ Hin) as [? ?]. auto.
      * split; [|by rewrite Hpar, Heq].
        rewrite Heq in Hok. simpl in Hok. by apply bool_decide_eq_true in Hok.
    + intros c' [Hin|[-> Heq]]%Hi.
      * by apply Hpo, (wf_initial _ Hwf).
      * by rewrite Hpar, Heq.
  - intros r x Hx. rewrite <- Hx. apply Hst. by apply static_Some_lt in Hx.
  - by intros r ?%elem_of_nil.
  - constructor.
  - intros r ?. left. split; [done|]. by intros ?%elem_of_nil.
  - intros p r [?|[-> _]]%Hch; auto.
  - intros r [?|[-> _]]%Hi; auto.
Qed.

Lemma effect_same_tree c σ σ' e :
  wf σ → batch_of e = [] →
  same_tree σ σ' → (∀ r, static σ' r = static σ r) →
  (∀ r, r ∈ _pending σ' →
        r ∈ _pending σ ∨ (c = PublishInitial ∧ r ∈ initialChildren σ)) →
  (∀ r, r ∈ _released σ' → r ∈ _pending σ') →
  NoDup (_released σ') →
  effect c σ σ' e.
Proof.
  intros Hwf He Htree Hst Hp Hr Hn.
  split; rewrite ?He.
  - apply (wf_same_tree σ); [done..| |done|done].
    intros r [?|[_ ?]]%Hp; [by apply Hwf|by apply wf_initial_allocated].
  - intros r x. by rewrite Hst.
  - by intros r ?%elem_of_nil.
  - constructor.
  - intros r [?|?]%Hp; [left|by right; left].
    split; [done|]. by intros ?%elem_of_nil.
  - intros p r. destruct Htree as (_ & _ & Hl). destruct (Hl p) as [-> _]. by left.
  - intros r. destruct Htree as (_ & -> & _). by left.
Qed.

Lemma static_heap_eq σ σ' : heap σ' = heap σ → ∀ r, static σ' r = static σ r.
Proof. intros Hh r. unfold static. by rewrite Hh. Qed.

Lemma complete_data_keeps v : keeps_static (complete_data v).
Proof. by intros []. Qed.
Lemma complete_items_keeps v : keeps_static (complete_items v).
Proof. by intros []. Qed.
Lemma mark_exhausted_keeps : keeps_static mark_exhausted.
Proof. by intros []. Qed.
Lemma push_error_keeps e : keeps_static (push_error e).
Proof. by intros []. Qed.

Lemma effect_alter c f i σ e :
  wf σ → keeps_static f → batch_of e = [] →
  effect c σ (set_heap (alter f i (heap σ)) σ) e.
Proof.
  intros Hwf Hf He. destruct (alter_keeps_static f i σ Hf) as [Htree Hst].
  apply effect_same_tree; simpl; try done; try (intros; by left); apply Hwf.
Qed.

(** A call that leaves the tree and the two sets alone. *)
Local Ltac quiet_effect Hwf :=
  apply effect_same_tree; simpl; try done;
  try apply same_tree_refl; try (intros; by left); try apply Hwf.

Lemma effect_next k σ σ' batch o :
  wf σ → _next k σ = (σ', batch, o) → effect (Next k) σ σ' (Pulled k batch o).
Proof.
  intros Hwf [(_ & -> & -> & ->)|[_ Hd]]%next_spec.
  { quiet_effect Hwf. }
  destruct Hd as [-> Hh Hi Hp Hr Hn _ _].
  assert (∀ r, children_of σ' r = children_of σ r) as Hch
    by (intros r; unfold children_of; by rewrite Hh).
  split; simpl.
  - apply (wf_same_tree σ); [done|by apply same_tree_heap|..|done].
    + intros r [[? _]|(p & _ & ? & ?)]%Hp; [by apply Hwf|done].
    + intros r (p & ? & ? & (rec & ? & _))%Hr. apply Hp. right.
      exists p. split_and!; [done..|]. apply allocated_lookup. eauto.
  - intros r x. by rewrite (static_heap_eq _ _ Hh).
  - done.
  - apply Hwf.
  - intros r [?|(p & ? & ? & _)]%Hp; [by left|]. right; right. eauto.
  - intros p r. rewrite Hch. by left.
  - intros r. rewrite Hi. by left.
Qed.

Lemma effect_filter np origin σ σ' requests e :
  wf σ → filter np origin σ = Some (σ', requests) → batch_of e = [] →
  effect (Filter np origin) σ σ' e.
Proof.
  intros Hwf Hf He.
  destruct (filter_spec np origin σ Hwf)
    as (σ2 & req2 & Hf2 & Hst & _ & Hp & Hr & Hn & Hc & Hi & _).
  rewrite Hf in Hf2. injection Hf2 as <- <-.
  assert (∀ r, parent_of σ' r = parent_of σ r) as Hpar
    by (intros r; apply static_parent_of, Hst).
  split; rewrite ?He.
  - split.
    + intros r [? _]%Hp. unfold allocated. rewrite (static_allocated _ _ Hst).
      by apply Hwf.
    + intros r [? ?]%Hr. apply Hp. split; [by apply Hwf|done].
    + done.
    + intros p c [Hin _]%Hc. rewrite Hpar. by apply Hwf.
    + intros c [Hin _]%Hi. rewrite Hpar. by apply Hwf.
  - intros r x. by rewrite Hst.
  - by intros r ?%elem_of_nil.
  - constructor.
  - intros r [? _]%Hp. left. split; [done|]. by intros ?%elem_of_nil.
  - intros p r [? _]%Hc. by left.
  - intros r [? _]%Hi. by left.
Qed.

Lemma step_effect c σ σ' e : wf σ → step c σ = (σ', e) → effect c σ σ' e.
Proof.
  intros Hwf. unfold step. destruct (call_ok σ c) eqn:Hok.
  2:{ intros [= <- <-]. quiet_effect Hwf. }
  destruct c; simpl in *.
  - intros [= <- <-]. by apply (effect_prepare _ (DeferredFragmentRecord opts)).
  - intros [= <- <-]. by apply (effect_prepare _ (StreamItemsRecord opts)).
  - intros [= <- <-]. by apply effect_alter_release; [|apply complete_data_keeps|..].
  - intros [= <- <-]. by apply effect_alter_release; [|apply complete_items_keeps|..].
  - intros [= <- <-]. by apply effect_alter; [|apply mark_exhausted_keeps|].
  - intros [= <- <-]. by apply effect_alter; [|apply push_error_keeps|].
  - intros [= <- <-]. unfold publishInitial.
    destruct (publish_all_frame (initialChildren σ) σ) as (Hh & Hi & _).
    pose proof (wf_publish_all (initialChildren σ) σ Hwf
                  (λ c, wf_initial_allocated σ c Hwf)) as Hwf'.
    apply effect_same_tree; try done.
    + by apply same_tree_heap.
    + by apply static_heap_eq.
    + intros r [?|[? _]]%publish_all_pending; auto.
    + apply Hwf'.
    + apply Hwf'.
  - destruct (filter nullPath origin σ) as [[σ2 requests]|] eqn:Hf.
    + intros [= <- <-]. by eapply effect_filter.
    + destruct (filter_spec nullPath origin σ Hwf) as (? & ? & Hf' & _).
      congruence.
  - intros [= <- <-]. quiet_effect Hwf.
  - destruct (_next k σ) as [[σ2 batch] o] eqn:Hn. intros [= <- <-].
    by apply effect_next.
  - intros [= <- <-]. quiet_effect Hwf.
  - intros [= <- <-]. quiet_effect Hwf.
Qed.

(** ** Invariants along a session *)

Lemma static_parent_Some σ σ' r :
  (∀ x, static σ r = Some x → static σ' r = Some x) →
  ∀ y, parent_of σ r = Some y → parent_of σ' r = Some y.
Proof.
  intros Hst y Hy. rewrite <- Hy. apply static_parent_of.
  destruct (static σ r) as [x|] eqn:Hx; [by apply Hst|].
  unfold static, parent_of in *. destruct (heap σ !! r); discriminate.
Qed.

Lemma effect_parent_of c σ σ' e r y :
  effect c σ σ' e → parent_of σ r = Some y → parent_of σ' r = Some y.
Proof. intros He. apply static_parent_Some, He. Qed.

Lemma allocated_parent_of σ r : allocated σ r → ∃ y, parent_of σ r = Some y.
Proof.
  intros [rec Hr]%allocated_lookup. exists (parentContext rec).
  unfold parent_of. by rewrite Hr.
Qed.

Lemma effect_parent_back c σ σ' e r y :
  effect c σ σ' e → allocated σ r → parent_of σ' r = Some y → parent_of σ r = Some y.
Proof.
  intros He [z Hz]%allocated_parent_of Hy.
  pose proof (effect_parent_of _ _ _ _ _ _ He Hz). congruence.
Qed.

Lemma effect_allocated c σ σ' e r : effect c σ σ' e → allocated σ r → allocated σ' r.
Proof.
  intros He [z Hz]%allocated_parent_of.
  eapply parent_of_allocated, effect_parent_of; eauto.
Qed.

Lemma effect_batch_pending c σ σ' e r :
  wf σ → effect c σ σ' e → r ∈ batch_of e → r ∈ _pending σ.
Proof. intros Hwf He Hr. by apply Hwf, He. Qed.

Lemma ordered_step c σ σ' e D :
  wf σ → effect c σ σ' e → ordered σ D → ordered σ' (D ++ batch_of e).
Proof.
  intros Hwf He Hord r p Hin Hpar. apply elem_of_app.
  destruct (eff_pending _ _ _ _ He r Hin) as [[Hold _]|[[_ Hi]|(q & Hq & Hc)]].
  - left. apply (Hord r); [done|].
    eapply effect_parent_back; [done|by apply Hwf|done].
  - apply (wf_initial _ Hwf) in Hi.
    pose proof (effect_parent_of _ _ _ _ _ _ He Hi). congruence.
  - right. destruct (wf_children _ Hwf _ _ Hc) as [_ Hp].
    pose proof (effect_parent_of _ _ _ _ _ _ He Hp). congruence.
Qed.

Lemma once_step c σ σ' e D :
  wf σ → effect c σ σ' e → c ≠ PublishInitial →
  ordered σ D → once σ D → once σ' (D ++ batch_of e).
Proof.
  intros Hwf He Hc Hord [Hn Ha Hp Hpar]. split.
  - apply NoDup_app. split_and!; [done| |apply He].
    intros r Hr Hb. apply (Hp r); [|done]. by eapply effect_batch_pending.
  - intros r [?|?]%elem_of_app; eapply effect_allocated; eauto.
    eapply Hwf, effect_batch_pending; eauto.
  - intros r Hin [Hd|Hb]%elem_of_app;
      destruct (eff_pending _ _ _ _ He r Hin) as [[Hold Hnb]|[[? _]|(q & Hq & Hch)]];
      try done.
    + by apply (Hp r).
    + destruct (wf_children _ Hwf _ _ Hch) as [_ Hpq].
      apply (Hp q); [by eapply effect_batch_pending|]. by apply (Hpar r).
    + destruct (wf_children _ Hwf _ _ Hch) as [_ Hpq].
      apply (Hp q); [by eapply effect_batch_pending|].
      apply (Hord r); [by eapply effect_batch_pending|done].
  - intros r p [Hd|Hb]%elem_of_app Hrp; apply elem_of_app; left.
    + apply (Hpar r); [done|]. eapply effect_parent_back; eauto.
    + apply (Hord r); [by eapply effect_batch_pending|].
      eapply effect_parent_back; [done| |done].
      eapply Hwf, effect_batch_pending; eauto.
Qed.

Lemma run_cons c cs σ :
  run (c :: cs) σ =
  ((run cs (step c σ).1).1, (step c σ).2 :: (run cs (step c σ).1).2).
Proof.
  cbn [run]. destruct (step c σ) as [σ1 e]. cbn [fst snd].
  by destruct (run cs σ1).
Qed.

Lemma run_app cs1 cs2 σ :
  run (cs1 ++ cs2) σ =
  ((run cs2 (run cs1 σ).1).1, (run cs1 σ).2 ++ (run cs2 (run cs1 σ).1).2).
Proof.
  revert σ. induction cs1 as [|c cs1 IH]; intros σ.
  - simpl. by destruct (run cs2 σ).
  - rewrite <- app_comm_cons, !run_cons, IH. done.
Qed.

Lemma run_wf cs σ : wf σ → wf (run cs σ).1.
Proof.
  revert σ. induction cs as [|c cs IH]; intros σ Hwf; [done|].
  rewrite run_cons. simpl. apply IH.
  destruct (step c σ) as [σ1 e] eqn:Hs. by apply (step_effect c σ σ1 e).
Qed.

Lemma wf_state_after cs : wf (state_after cs).
Proof. apply run_wf, wf_constructor. Qed.

Lemma run_parent_of cs σ r y :
  wf σ → parent_of σ r = Some y → parent_of (run cs σ).1 r = Some y.
Proof.
  revert σ. induction cs as [|c cs IH]; intros σ Hwf Hy; [done|].
  rewrite run_cons. simpl.
  destruct (step c σ) as [σ1 e] eqn:Hs.
  pose proof (step_effect c σ σ1 e Hwf Hs) as He. simpl.
  apply IH; [apply He|]. by eapply effect_parent_of.
Qed.

Lemma run_ordered cs σ D :
  wf σ → ordered σ D →
  ordered (run cs σ).1 (D ++ drained_records (run cs σ).2).
Proof.
  revert σ D. induction cs as [|c cs IH]; intros σ D Hwf Hord.
  - simpl. unfold drained_records. simpl. by rewrite app_nil_r.
  - rewrite run_cons. simpl.
    destruct (step c σ) as [σ1 e] eqn:Hs.
    pose proof (step_effect c σ σ1 e Hwf Hs) as He. simpl.
    unfold drained_records. simpl. rewrite app_assoc.
    apply IH; [apply He|]. by eapply ordered_step.
Qed.

(** An element of a list without duplicates occurs in it once. *)
Lemma occurs_never {A} `{EqDecision A} (x : A) (l : list A) :
  x ∉ l → base.filter (λ y, y = x) l = [].
Proof.
  induction l as [|y l IH]; [done|].
  intros [Hne Hx]%not_elem_of_cons.
  rewrite filter_cons_False by congruence. by apply IH.
Qed.

Lemma occurs_once {A} `{EqDecision A} (x : A) (l : list A) :
  NoDup l → x ∈ l → length (base.filter (λ y, y = x) l) = 1.
Proof.
  induction 1 as [|y l Hy Hn IH]; [by intros ?%elem_of_nil|].
  intros [->|Hin]%elem_of_cons.
  - rewrite filter_cons_True by done. simpl. by rewrite occurs_never.
  - rewrite filter_cons_False by (intros ->; done). by apply IH.
Qed.

(** * The claims *)

(** ** Filter engine (C5, C6, C10) *)

(** C5.  In every state that calls can reach, the traversal of
    [filter nullPath origin] ends (whether or not a [return()] call throws
    afterwards), and it removes from [_pending], from [_released] and from the
    children set that holds it exactly the descendants of the origin (of
    the root when there is no origin) whose path starts with the whole of
    [nullPath]: membership of every other record in these sets is unchanged,
    and a record whose path is shorter than [nullPath] is never removed. *)
Theorem filter_prunes_exactly_prefixed_descendants
    (cs : list Call) (nullPath : list PathKey) (origin : option RecordRef) :
  let σ := state_after cs in
  ∃ σ' requests,
    filter nullPath origin σ = Some (σ', requests) ∧
    (∀ r, r ∈ _pending σ' ↔ r ∈ _pending σ ∧ ¬ pruned σ nullPath origin r) ∧
    (∀ r, r ∈ _released σ' ↔ r ∈ _released σ ∧ ¬ pruned σ nullPath origin r) ∧
    (∀ p r, r ∈ children_of σ' p ↔
            r ∈ children_of σ p ∧ ¬ pruned σ nullPath origin r) ∧
    (∀ r, r ∈ initialChildren σ' ↔
          r ∈ initialChildren σ ∧ ¬ pruned σ nullPath origin r) ∧
    (∀ r rec, heap σ !! r = Some rec →
              length (path rec) < length nullPath →
              _matchesPath (path rec) nullPath = false ∧
              ¬ pruned σ nullPath origin r) ∧
    (∀ r rec, heap σ !! r = Some rec →
              pruned σ nullPath origin r ↔
              descendant σ (origin_children σ origin) r ∧
              _matchesPath (path rec) nullPath = true).
Proof.
  intros σ.
  destruct (filter_spec nullPath origin σ (wf_state_after cs))
    as (σ' & requests & Hf & _ & _ & Hp & Hr & _ & Hc & Hi & _).
  exists σ', requests. split_and!; try done.
  - intros r rec Hrec Hlen. split; [by apply matchesPath_shorter|].
    intros [_ (rec' & Hrec' & Hpre%prefix_length)].
    rewrite Hrec in Hrec'. injection Hrec' as <-. lia.
  - intros r rec Hrec. unfold pruned, hit. rewrite matchesPath_prefix, Hrec.
    split; [intros [? (? & [= <-] & ?)]; by split|].
    intros [? ?]. split; [done|]. eauto.
Qed.

(** C6.  In every state that calls can reach, [filter] collects the
    source of every removed stream record once, whatever the number of
    removed records that hold it, and calls [return()] on no source twice
    and on collected sources with a [return] method only.  The calls are
    made in the order of collection, and a [return()] that throws (or that
    returns a value without a [catch] method) ends them: [filter] throws
    that error, and the sources collected after it get no call.  Every
    collected source with a [return] method gets its one call exactly when
    no [return()] of a collected source throws. *)
Theorem filter_requests_stop_at_a_throwing_return
    (cs : list Call) (nullPath : list PathKey) (origin : option RecordRef) :
  let σ := state_after cs in
  ∃ σ' requests collected,
    filter nullPath origin σ = Some (σ', requests) ∧
    collected_sources nullPath origin σ = Some collected ∧
    NoDup collected ∧
    (∀ it, it ∈ collected ↔ ∃ r, pruned σ nullPath origin r ∧ source_of σ r it) ∧
    NoDup (requests.*1) ∧
    (∀ it, it ∈ requests.*1 → it ∈ collected ∧ is_Some (iter_return it)) ∧
    (thrown_by requests = None ↔
     ∀ it, it ∈ collected →
           (∀ e, iter_return it ≠ Some (Throws e)) ∧
           iter_return it ≠ Some NotAPromise) ∧
    (thrown_by requests = None →
     ∀ it, it ∈ collected → is_Some (iter_return it) →
           length (base.filter (λ x, x = it) (requests.*1)) = 1) ∧
    (∀ e, thrown_by requests = Some e →
     ∃ before it after,
       collected = before ++ it :: after ∧
       (iter_return it = Some (Throws e) ∨
        (iter_return it = Some NotAPromise ∧ e = TypeError_catch)) ∧
       last (requests.*1) = Some it ∧
       (∀ it', it' ∈ before → is_Some (iter_return it') → it' ∈ requests.*1) ∧
       (∀ it', it' ∈ after → it' ∉ requests.*1)).
Proof.
  intros σ.
  destruct (filter_spec nullPath origin σ (wf_state_after cs))
    as (σ' & requests & Hf & _ & _ & _ & _ & _ & _ & _ &
        its & Hcol & Hnd & Hits & ->).
  destruct (filter_requests_spec its Hnd) as (Hn & Hin & _ & Hnone & Hall & Hcut).
  exists σ', (call_each (omap return_and_ignore its)), its.
  split_and!; try done.
  intros Ht it Hit Hret. apply occurs_once; [done|]. by apply Hall.
Qed.

Lemma filter_requests_stop_at_a_throwing_return_witness :
  let σ := state_after throwing_session in
  ∃ σ' requests,
    filter [Field "x"] None σ = Some (σ', requests) ∧
    requests.*1 = [throwing_source] ∧
    thrown_by requests = Some ("return failed" : GraphQLError) ∧
    pruned σ [Field "x"] None 1 ∧ source_of σ 1 live_source ∧
    is_Some (iter_return live_source) ∧
    (live_source ∉ requests.*1) ∧ _pending σ' = [].
Proof.
  intros σ.
  destruct (filter_requests_stop_at_a_throwing_return
              throwing_session [Field "x"] None)
    as (σ' & requests & collected & Hf & _).
  exists σ', requests. split; [exact Hf|].
  vm_compute in Hf. injection Hf as <- <-.
  split_and!.
  - vm_compute. reflexivity.
  - vm_compute. reflexivity.
  - split.
    + apply descendant_root.
      refine (bool_decide_unpack _ _); vm_compute; exact I.
    + eexists. split; [vm_compute; reflexivity|]. by exists [Index 1].
  - eexists. split_and!; vm_compute; reflexivity.
  - by eexists.
  - refine (bool_decide_unpack _ _); vm_compute; exact I.
  - reflexivity.
Defined.

(** [filter] at [x] removes both stream records, asks their one source to
    terminate once, and leaves the record at [z] pending; at the longer
    path [x.0.name] it removes nothing. *)
Example filter_shared_source :
  ∃ σ',
    filter [Field "x"] None (state_after shared_source_session)
    = Some (σ', [(live_source, Resolves)]) ∧
    _pending σ' = [2] ∧ initialChildren σ' = [2].
Proof. eexists. split_and!; vm_compute; reflexivity. Qed.

Example filter_longer_path :
  ∃ σ',
    filter [Field "x"; Index 0; Field "name"] None
      (state_after shared_source_session)
    = Some (σ', []) ∧
    _pending σ' = [0; 1; 2] ∧ initialChildren σ' = [0; 1; 2].
Proof. eexists. split_and!; vm_compute; reflexivity. Qed.

(** C10.  The empty null path is a prefix of every path, so in every state
    that calls can reach the traversal of [filter [] origin] ends and leaves
    no descendant of the origin (of the root when there is no origin) in
    [_pending], in [_released] or in a children set. *)
Theorem filter_at_root_prunes_every_descendant
    (cs : list Call) (origin : option RecordRef) :
  let σ := state_after cs in
  (∀ testPath, _matchesPath testPath [] = true) ∧
  ∃ σ' requests,
    filter [] origin σ = Some (σ', requests) ∧
    ∀ r, descendant σ (origin_children σ origin) r →
         (r ∉ _pending σ') ∧ (r ∉ _released σ') ∧ (r ∉ initialChildren σ') ∧
         ∀ p, r ∉ children_of σ' p.
Proof.
  intros σ. split; [apply matchesPath_root|].
  pose proof (wf_state_after cs) as Hwf. fold σ in Hwf.
  destruct (filter_spec [] origin σ Hwf)
    as (σ' & requests & Hf & _ & _ & Hp & Hr & _ & Hc & Hi & _).
  exists σ', requests. split; [done|]. intros r Hd.
  assert (pruned σ [] origin r) as Hpr.
  { split; [done|].
    assert (allocated σ r) as [rec Hrec]%allocated_lookup.
    { eapply descendant_allocated; [done| |done].
      intros c. by apply origin_children_allocated. }
    exists rec. split; [done|apply prefix_nil]. }
  split_and!.
  - rewrite Hp. tauto.
  - rewrite Hr. tauto.
  - rewrite Hi. tauto.
  - intros p. rewrite Hc. tauto.
Qed.

(** ** Frames (C8) *)

Lemma entry_of_record σ r entry : entry_of σ r = Some entry → of_record entry = r.
Proof.
  unfold entry_of. destruct (heap σ !! r) as [rec|]; simpl; [|done].
  destruct (isStream rec && isCompletedAsyncIterator rec); [done|].
  by intros [= <-].
Qed.

Lemma entry_of_exhausted σ r : exhausted σ r = true → entry_of σ r = None.
Proof.
  unfold entry_of, exhausted. destruct (heap σ !! r) as [rec|]; simpl; [|done].
  by intros ->.
Qed.

Lemma entry_of_live σ r rec :
  heap σ !! r = Some rec → exhausted σ r = false →
  entry_of σ r = Some (incrementalResult_of r rec).
Proof.
  unfold entry_of, exhausted. intros ->. simpl. by intros ->.
Qed.

Lemma hasNext_true σ : hasNext σ = true ↔ _pending σ ≠ [].
Proof.
  unfold hasNext. rewrite bool_decide_eq_true.
  destruct (_pending σ); simpl; split; intros H; (done || lia).
Qed.

Lemma hasNext_false σ : hasNext σ = false ↔ _pending σ = [].
Proof.
  rewrite <- not_true_iff_false, hasNext_true.
  destruct (_pending σ); split; intros H; try done;
    try (intros H'; by apply H'); exfalso; by apply H.
Qed.

(** C8.  Whatever the batch, the entries of the frame that
    [_getIncrementalResult] builds are those of the records of the batch
    that are not exhausted streams, in the order of the batch: an exhausted
    stream record adds no entry.  With an exhausted stream record and one
    other record in the batch, the frame holds the entry of the other
    record alone; and the [hasNext] of the frame is true exactly when
    [_pending] is not empty after the drain. *)
Theorem exhausted_stream_adds_no_entry
    (σ σ' : IncrementalPublisher) (batch : list RecordRef)
    (result : option SubsequentIncrementalExecutionResult) :
  _getIncrementalResult batch σ = (σ', result) →
  (∀ entries more, result = Some (IncrementalFrame entries more) →
     entries = omap (entry_of σ) batch ∧
     (∀ c entry, exhausted σ c = true → entry ∈ entries → of_record entry ≠ c) ∧
     (more = true ↔ _pending σ' ≠ [])) ∧
  (∀ c d recd,
     batch = [c; d] ∨ batch = [d; c] →
     exhausted σ c = true → heap σ !! d = Some recd → exhausted σ d = false →
     result = Some (IncrementalFrame [incrementalResult_of d recd] (hasNext σ'))).
Proof.
  intros (_ & _ & _ & _ & _ & _ & ->)%getIncrementalResult_spec. split.
  - intros entries more. unfold frame_of.
    case_bool_decide; [|by destruct (_ && _)].
    intros [= <- <-]. split_and!; [done| |apply hasNext_true].
    intros c entry Hc (r & Hr & He)%list_elem_of_omap <-.
    apply entry_of_record in He as Heq. subst r.
    rewrite (entry_of_exhausted _ _ Hc) in He. discriminate.
  - intros c d recd Hb Hc Hd Hlive.
    assert (omap (entry_of σ) batch = [incrementalResult_of d recd]) as ->.
    { destruct Hb as [-> | ->]; simpl;
        by rewrite (entry_of_exhausted _ _ Hc), (entry_of_live _ _ _ Hd Hlive). }
    done.
Qed.

(** ** Sessions with one [publishInitial] *)

Lemma publishInitial_calls_cons c cs :
  publishInitial_calls (c :: cs) =
  (if is_publishInitial c then 1 else 0) + publishInitial_calls cs.
Proof.
  unfold publishInitial_calls. destruct (is_publishInitial c) eqn:Hc.
  - by rewrite filter_cons_True.
  - rewrite filter_cons_False; [done|congruence].
Qed.

Lemma is_publishInitial_false c : is_publishInitial c = false → c ≠ PublishInitial.
Proof. by intros H ->. Qed.

Lemma is_publishInitial_true c : is_publishInitial c = true → c = PublishInitial.
Proof. by destruct c. Qed.

Lemma once_nil σ : once σ [].
Proof.
  split.
  - apply NoDup_nil_2.
  - by intros ? ?%elem_of_nil.
  - intros ? _. apply not_elem_of_nil.
  - by intros ? ? ?%elem_of_nil.
Qed.

Lemma drained_records_cons e es :
  drained_records (e :: es) = batch_of e ++ drained_records es.
Proof. done. Qed.

Lemma emitted_records_cons e es :
  emitted_records (e :: es) = (of_record <$> entries_of e) ++ emitted_records es.
Proof. done. Qed.

(** Without [publishInitial], both invariants carry over a run. *)
Lemma run_once cs σ D :
  wf σ → publishInitial_calls cs = 0 → ordered σ D → once σ D →
  once (run cs σ).1 (D ++ drained_records (run cs σ).2).
Proof.
  revert σ D. induction cs as [|c cs IH]; intros σ D Hwf Hc Hord Honce.
  - simpl. unfold drained_records. simpl. by rewrite app_nil_r.
  - rewrite publishInitial_calls_cons in Hc.
    destruct (is_publishInitial c) eqn:Hpi; [lia|].
    apply is_publishInitial_false in Hpi.
    rewrite run_cons. cbn [fst snd].
    destruct (step c σ) as [σ1 e] eqn:Hs.
    pose proof (step_effect c σ σ1 e Hwf Hs) as He. cbn [fst snd].
    rewrite drained_records_cons, app_assoc.
    apply IH; [apply He|lia|by eapply ordered_step|by eapply once_step].
Qed.

(** With nothing pending and no [publishInitial], nothing happens. *)
Lemma step_idle c σ σ' e :
  wf σ → _pending σ = [] → c ≠ PublishInitial → step c σ = (σ', e) →
  _pending σ' = [] ∧ batch_of e = [].
Proof.
  intros Hwf Hp Hc Hs. pose proof (step_effect c σ σ' e Hwf Hs) as He.
  assert (batch_of e = []) as Hb.
  { destruct (batch_of e) as [|r b] eqn:Hb; [done|].
    assert (r ∈ _pending σ) as Hr.
    { eapply effect_batch_pending; [done..|]. rewrite Hb. by left. }
    rewrite Hp in Hr. by apply elem_of_nil in Hr. }
  split; [|done].
  destruct (_pending σ') as [|r p] eqn:Hp'; [done|].
  destruct (eff_pending _ _ _ _ He r) as [[Hr _]|[[? _]|(q & Hq & _)]].
  - rewrite Hp'. by left.
  - rewrite Hp in Hr. by apply elem_of_nil in Hr.
  - done.
  - rewrite Hb in Hq. by apply elem_of_nil in Hq.
Qed.

Lemma ordered_publishInitial σ :
  wf σ → _pending σ = [] → ordered (publishInitial σ) [].
Proof.
  intros Hwf Hp r p [Hin|[Hin _]]%publish_all_pending Hpar.
  - rewrite Hp in Hin. by apply elem_of_nil in Hin.
  - apply (wf_initial _ Hwf) in Hin.
    assert (parent_of (publishInitial σ) r = parent_of σ r) as Heq.
    { unfold parent_of, publishInitial.
      by destruct (publish_all_frame (initialChildren σ) σ) as (-> & _). }
    congruence.
Qed.

(** In a session, from a state with nothing pending: every record is
    drained once at most, parents first. *)
Lemma run_session cs σ :
  wf σ → _pending σ = [] → publishInitial_calls cs ≤ 1 →
  once (run cs σ).1 (drained_records (run cs σ).2) ∧
  ordered (run cs σ).1 (drained_records (run cs σ).2).
Proof.
  revert σ. induction cs as [|c cs IH]; intros σ Hwf Hp Hc.
  { simpl. split; [apply once_nil|]. intros r p Hin. rewrite Hp in Hin.
    by apply elem_of_nil in Hin. }
  rewrite publishInitial_calls_cons in Hc.
  rewrite run_cons. cbn [fst snd].
  destruct (step c σ) as [σ1 e] eqn:Hs.
  pose proof (step_effect c σ σ1 e Hwf Hs) as He. cbn [fst snd].
  rewrite drained_records_cons.
  destruct (is_publishInitial c) eqn:Hpi.
  - apply is_publishInitial_true in Hpi. subst c.
    injection Hs as <- <-. simpl.
    pose proof (ordered_publishInitial σ Hwf Hp) as Hord.
    split.
    + apply (run_once cs _ []); [apply He|lia|done|apply once_nil].
    + apply (run_ordered cs _ []); [apply He|done].
  - apply is_publishInitial_false in Hpi.
    destruct (step_idle c σ σ1 e Hwf Hp Hpi Hs) as [Hp1 ->]. simpl.
    apply IH; [apply He|done|lia].
Qed.

Lemma session_once cs :
  session cs →
  once (state_after cs) (drained_records (events_of cs)) ∧
  ordered (state_after cs) (drained_records (events_of cs)).
Proof. intros Hs. by apply run_session; [apply wf_constructor| |]. Qed.

(** ** What the events of a run say *)

Lemma entries_sublist σ batch :
  (of_record <$> omap (entry_of σ) batch) `sublist_of` batch.
Proof.
  induction batch as [|r batch IH]; simpl; [done|].
  destruct (entry_of σ r) as [entry|] eqn:He.
  - apply entry_of_record in He as <-. simpl. by apply sublist_skip.
  - by apply sublist_cons.
Qed.

Lemma step_pulled c σ σ' k batch o :
  step c σ = (σ', Pulled k batch o) → _next k σ = (σ', batch, o).
Proof.
  unfold step. destruct (call_ok σ c); [|done].
  destruct c; simpl; try done.
  - by destruct (filter _ _ _) as [[? ?]|].
  - destruct (_next k0 σ) as [[? ?] ?] eqn:Hn. intros Heq.
    injection Heq as ? ? ? ?. by subst.
Qed.

(** A frame comes out of a batch that is not empty, carries the value of
    [hasNext()] at the end of the pass, and its entries are those of the
    batch. *)
Lemma step_frame c σ σ' e f :
  step c σ = (σ', e) → frame_in e = Some f →
  has_next_of f = hasNext σ' ∧ batch_of e ≠ [] ∧
  match f with
  | IncrementalFrame entries _ =>
      entries ≠ [] ∧ entries = omap (entry_of σ) (batch_of e)
  | HasNextFrame h => h = false
  end.
Proof.
  intros Hs Hf. destruct e as [| | |k batch o| | |]; try done.
  apply step_pulled, next_spec in Hs as [(_ & _ & _ & ->)|[_ Hd]]; [done|].
  destruct Hd as [_ _ _ _ _ _ _ ->]. simpl in *.
  unfold frame_of in Hf.
  destruct (omap (entry_of σ) batch) as [|x entries] eqn:Ho; simpl in Hf.
  - destruct (existsb (exhausted σ) batch) eqn:Hex; simpl in Hf; [|done].
    destruct (hasNext σ') eqn:Hh; simpl in Hf; [done|].
    injection Hf as <-. split_and!; [done| |done]. by intros ->.
  - injection Hf as <-. split_and!; [done| |done|done]. by intros ->.
Qed.

Lemma step_entries c σ σ' e :
  step c σ = (σ', e) → (of_record <$> entries_of e) `sublist_of` batch_of e.
Proof.
  intros Hs. unfold entries_of.
  destruct (frame_in e) as [[entries h|h]|] eqn:Hf; try apply sublist_nil_l.
  destruct (step_frame _ _ _ _ _ Hs Hf) as (_ & _ & _ & ->).
  apply entries_sublist.
Qed.

Lemma run_entries cs σ :
  Forall (λ e, (of_record <$> entries_of e) `sublist_of` batch_of e) (run cs σ).2.
Proof.
  revert σ. induction cs as [|c cs IH]; intros σ; [constructor|].
  rewrite run_cons. cbn [fst snd]. destruct (step c σ) as [σ1 e] eqn:Hs.
  constructor; [by eapply step_entries|apply IH].
Qed.

Lemma emitted_sublist_drained cs σ :
  emitted_records (run cs σ).2 `sublist_of` drained_records (run cs σ).2.
Proof.
  induction (run_entries cs σ) as [|e es He _ IH]; [done|].
  rewrite emitted_records_cons, drained_records_cons. by apply sublist_app.
Qed.

Lemma emitted_at_drained cs σ j r :
  emitted_at (run cs σ).2 j r → drained_at (run cs σ).2 j r.
Proof.
  intros (e & Hj & Hr). exists e. split; [done|].
  pose proof (run_entries cs σ) as Hall.
  rewrite Forall_lookup in Hall. specialize (Hall j e Hj).
  by eapply elem_of_sublist.
Qed.

Lemma elem_of_drained_records es r :
  r ∈ drained_records es ↔ ∃ j, drained_at es j r.
Proof.
  unfold drained_records, drained_at. rewrite list_elem_of_join. split.
  - intros (b & Hr & (e & -> & (j & Hj)%list_elem_of_lookup)%list_elem_of_fmap).
    eauto.
  - intros (j & e & Hj & Hr). exists (batch_of e). split; [done|].
    apply list_elem_of_fmap. exists e. split; [done|].
    by eapply list_elem_of_lookup_2.
Qed.

Lemma run_drained_parent cs σ D j r p :
  wf σ → ordered σ D →
  drained_at (run cs σ).2 j r → parent_of (run cs σ).1 r = Some (Some p) →
  p ∈ D ∨ ∃ i, i < j ∧ drained_at (run cs σ).2 i p.
Proof.
  revert σ D j. induction cs as [|c cs IH]; intros σ D j Hwf Hord.
  { by intros (e & ? & _). }
  pose proof (run_parent_of (c :: cs) σ r) as Hstable.
  rewrite run_cons in *. cbn [fst snd] in *.
  destruct (step c σ) as [σ1 e] eqn:Hs.
  pose proof (step_effect c σ σ1 e Hwf Hs) as He. cbn [fst snd] in *.
  intros (e' & Hj & Hr) Hpar. destruct j as [|j].
  - injection Hj as <-. left.
    assert (r ∈ _pending σ) as Hin by by eapply effect_batch_pending.
    apply (Hord r); [done|].
    destruct (allocated_parent_of σ r) as [y Hy]; [by apply Hwf|].
    rewrite (Hstable y Hwf Hy) in Hpar. congruence.
  - destruct (IH σ1 (D ++ batch_of e) j) as [[?|?]%elem_of_app|(i & ? & Hi)].
    + apply He.
    + by eapply ordered_step.
    + by exists e'.
    + done.
    + by left.
    + right. exists 0. split; [lia|]. by exists e.
    + right. exists (S i). split; [lia|]. done.
Qed.

(** ** Parent before child (C2) *)

(** C2.  After any sequence of calls, for a record [r] whose
    [parentContext] is the record [p]: if [r] is in [_pending] or in
    [_released], then an earlier pull drained [p]; and every pull that
    drained [r], so every pull whose frame has an entry for [r], comes
    strictly after a pull that drained [p]. *)
Theorem child_enters_only_after_parent_is_drained
    (cs : list Call) (r p : RecordRef) :
  parent_of (state_after cs) r = Some (Some p) →
  (r ∈ _pending (state_after cs) ∨ r ∈ _released (state_after cs) →
   ∃ i, drained_at (events_of cs) i p) ∧
  (∀ j, drained_at (events_of cs) j r →
        ∃ i, i < j ∧ drained_at (events_of cs) i p) ∧
  (∀ j, emitted_at (events_of cs) j r →
        ∃ i, i < j ∧ drained_at (events_of cs) i p).
Proof.
  intros Hpar.
  assert (ordered constructor []) as Hord0 by (by intros ? ? ?%elem_of_nil).
  assert (∀ j, drained_at (events_of cs) j r →
               ∃ i, i < j ∧ drained_at (events_of cs) i p) as Hdr.
  { intros j Hj.
    destruct (run_drained_parent cs constructor [] j r p wf_constructor Hord0 Hj Hpar)
      as [?%elem_of_nil|?]; done. }
  split_and!; [|done|].
  - intros Hin. apply elem_of_drained_records.
    pose proof (run_ordered cs constructor [] wf_constructor Hord0) as Hord.
    apply (Hord r); [|done].
    destruct Hin as [?|?]; [done|]. by apply (wf_state_after cs).
  - intros j Hj. by apply Hdr, emitted_at_drained.
Qed.

(** ** Records that left the tree *)

Lemma gone_step c σ σ' e r : wf σ → effect c σ σ' e → gone σ r → gone σ' r.
Proof.
  intros Hwf He (Ha & Hp & Hi & Hc). split_and!.
  - by eapply effect_allocated.
  - intros [[? _]|[[_ ?]|(q & _ & ?)]]%(eff_pending _ _ _ _ He); try done.
    by apply (Hc q).
  - intros [?|?]%(eff_initial _ _ _ _ He); done.
  - intros q [?|?]%(eff_children _ _ _ _ He); [by apply (Hc q)|done].
Qed.

Lemma run_gone cs σ r : wf σ → gone σ r → gone (run cs σ).1 r.
Proof.
  revert σ. induction cs as [|c cs IH]; intros σ Hwf Hg; [done|].
  rewrite run_cons. cbn [fst snd]. destruct (step c σ) as [σ1 e] eqn:Hs.
  pose proof (step_effect c σ σ1 e Hwf Hs) as He. cbn [fst snd].
  apply IH; [apply He|by eapply gone_step].
Qed.

Lemma pruned_allocated σ np origin r : pruned σ np origin r → allocated σ r.
Proof. intros [_ (rec & Hrec & _)]. apply allocated_lookup. eauto. Qed.

Lemma filter_gone np origin σ σ' requests r :
  wf σ → filter np origin σ = Some (σ', requests) →
  pruned σ np origin r → gone σ' r.
Proof.
  intros Hwf Hf Hpr.
  destruct (filter_spec np origin σ Hwf)
    as (σ2 & req2 & Hf2 & Hst & _ & Hp & _ & _ & Hc & Hi & _).
  rewrite Hf in Hf2. injection Hf2 as <- <-. split_and!.
  - unfold allocated. rewrite (static_allocated _ _ Hst).
    by eapply pruned_allocated.
  - rewrite Hp. tauto.
  - rewrite Hi. tauto.
  - intros p. rewrite Hc. tauto.
Qed.

Lemma pruned_origin_ok σ np origin r :
  pruned σ np origin r → optref_ok σ origin = true.
Proof.
  intros [Hd _]. destruct origin as [o|]; [simpl|done].
  apply bool_decide_eq_true, lookup_lt_is_Some.
  destruct (heap σ !! o) as [rec|] eqn:Ho; [eauto|].
  unfold origin_children, children_of in Hd. rewrite Ho in Hd.
  by apply descendant_nil in Hd.
Qed.

Lemma release_absent r σ : r ∉ _pending σ → _release r σ = σ.
Proof.
  intros Hr. unfold _release, set_has. by rewrite bool_decide_eq_false_2.
Qed.

(** ** At most one frame per record (C9) *)

(** C9.  In a session, where [publishInitial] is called once at most (its
    contract), and whatever the other calls are, duplicate completion calls
    among them: no record has an entry in two frames, nor two entries in
    one, and a record that a pull has drained is not in [_pending] at the
    end.  After any sequence of calls, a record that a [filter] call has
    removed is not in [_pending] at the end; and a completion call on a
    record that is not in [_pending] leaves both sets as they are. *)
Theorem each_record_is_emitted_at_most_once (cs : list Call) :
  (session cs →
   NoDup (emitted_records (events_of cs)) ∧
   ∀ r, r ∈ drained_records (events_of cs) → r ∉ _pending (state_after cs)) ∧
  (∀ cs1 nullPath origin cs2 r,
     cs = cs1 ++ Filter nullPath origin :: cs2 →
     pruned (state_after cs1) nullPath origin r →
     r ∉ _pending (state_after cs)) ∧
  (∀ r v, r ∉ _pending (state_after cs) →
     let σ := state_after cs in
     _released (completeDeferredFragmentRecord r v σ) = _released σ ∧
     _pending (completeDeferredFragmentRecord r v σ) = _pending σ ∧
     _released (completeStreamItemsRecord r v σ) = _released σ ∧
     _pending (completeStreamItemsRecord r v σ) = _pending σ).
Proof.
  split_and!.
  - intros Hs. destruct (session_once cs Hs) as [Honce Hord]. split.
    + eapply sublist_NoDup; [apply Honce|apply emitted_sublist_drained].
    + intros r Hr Hin. by apply (once_pending _ _ Honce r).
  - intros cs1 np origin cs2 r -> Hpr.
    unfold state_after. rewrite run_app. cbn [fst].
    fold (state_after cs1). set (σ1 := state_after cs1) in *.
    pose proof (wf_state_after cs1) as Hwf1. fold σ1 in Hwf1.
    rewrite run_cons. cbn [fst].
    destruct (filter_spec np origin σ1 Hwf1) as (σ2 & req & Hf & _).
    assert (step (Filter np origin) σ1 = (σ2, Terminated (req.*1) (thrown_by req))) as Hstep.
    { unfold step. simpl. rewrite (pruned_origin_ok _ _ _ _ Hpr).
      by rewrite Hf. }
    rewrite Hstep. cbn [fst].
    pose proof (step_effect _ _ _ _ Hwf1 Hstep) as He.
    eapply run_gone; [apply He|]. by eapply filter_gone.
  - intros r v Hr σ. unfold completeDeferredFragmentRecord, completeStreamItemsRecord.
    rewrite !release_absent by done. done.
Qed.

(** The contract matters: a second [publishInitial] publishes a completed
    top-level record again; the record is drained and emitted again, and
    [hasNext()] goes to false a second time. *)
Remark republishing_emits_a_record_again :
  ¬ session republished_session ∧
  emitted_records (events_of republished_session) = [0; 0] ∧
  hasNext <$> [state_after (take 6 republished_session);
               state_after (take 7 republished_session);
               state_after republished_session] = [false; true; false].
Proof. split_and!; [vm_compute; lia|vm_compute; reflexivity..]. Qed.

(** ** Drains that follow each other (C7) *)

Lemma next_frame k σ σ' batch f :
  _next k σ = (σ', batch, Fulfilled (Yield f)) →
  has_next_of f = hasNext σ' ∧ batch ≠ [] ∧
  match f with
  | IncrementalFrame entries _ =>
      entries ≠ [] ∧ entries = omap (entry_of σ) batch
  | HasNextFrame h => h = false
  end.
Proof.
  intros [(_ & _ & _ & [=])|[_ Hd]]%next_spec.
  destruct Hd as [_ _ _ _ _ _ _ Ho]. unfold frame_of in Ho.
  destruct (omap (entry_of σ) batch) as [|x entries] eqn:Hom; simpl in Ho.
  - destruct (existsb (exhausted σ) batch) eqn:Hex; simpl in Ho; [|done].
    destruct (hasNext σ') eqn:Hh; simpl in Ho; [done|].
    injection Ho as ->. split_and!; [done| |done]. by intros ->.
  - injection Ho as ->. split_and!; [done| |done|done]. by intros ->.
Qed.

(** C7.  In a state reached by a session, two passes of [_next] in a row,
    with no call in between, drain disjoint batches: the frame of the
    second pass has no entry for a record of the first batch.  And a pass
    never hands the consumer a frame with an empty [incremental] list: a
    frame either has entries, or is the bare [{hasNext: false}], and that
    one only when [hasNext()] is false. *)
Theorem second_drain_repeats_no_record
    (cs : list Call) (k1 k2 : nat) (σ1 σ2 : IncrementalPublisher)
    (batch1 batch2 : list RecordRef) (o1 o2 : Outcome) :
  session cs →
  _next k1 (state_after cs) = (σ1, batch1, o1) →
  _next k2 σ1 = (σ2, batch2, o2) →
  (∀ r, r ∈ batch1 → r ∉ batch2) ∧
  (∀ entries h entry,
     o2 = Fulfilled (Yield (IncrementalFrame entries h)) →
     entry ∈ entries → of_record entry ∉ batch1) ∧
  (∀ o σ', o = o1 ∧ σ' = σ1 ∨ o = o2 ∧ σ' = σ2 →
     (∀ entries h, o = Fulfilled (Yield (IncrementalFrame entries h)) →
                   entries ≠ []) ∧
     (∀ f, o = Fulfilled (Yield f) → hasNext σ' = true →
           ∃ entries, f = IncrementalFrame entries true ∧ entries ≠ [])).
Proof.
  intros Hs Hn1 Hn2. destruct (session_once cs Hs) as [Honce Hord].
  pose proof (wf_state_after cs) as Hwf.
  pose proof (effect_next _ _ _ _ _ Hwf Hn1) as He1.
  assert (Next k1 ≠ PublishInitial) as Hne by done.
  pose proof (once_step _ _ _ _ _ Hwf He1 Hne Hord Honce) as Honce1.
  pose proof (effect_next _ _ _ _ _ (eff_wf _ _ _ _ He1) Hn2) as He2.
  simpl in Honce1.
  assert (∀ r, r ∈ batch1 → r ∉ batch2) as Hdisj.
  { intros r Hr1 Hr2.
    apply (once_pending _ _ Honce1 r); [|apply elem_of_app; by right].
    eapply effect_batch_pending; [apply He1|apply He2|done]. }
  split_and!; [done| |].
  - intros entries h entry -> Hin Hb1.
    destruct (next_frame _ _ _ _ _ Hn2) as (_ & _ & _ & ->).
    apply list_elem_of_omap in Hin as (r & Hr & Hentry).
    apply entry_of_record in Hentry. subst r. by apply (Hdisj _ Hb1).
  - assert (∀ k σ σ' batch o, _next k σ = (σ', batch, o) →
      (∀ entries h, o = Fulfilled (Yield (IncrementalFrame entries h)) →
                    entries ≠ []) ∧
      (∀ f, o = Fulfilled (Yield f) → hasNext σ' = true →
            ∃ entries, f = IncrementalFrame entries true ∧ entries ≠ []))
      as Hframe.
    { intros k σ σ' batch o Hn. split.
      - intros entries h ->. by destruct (next_frame _ _ _ _ _ Hn) as (_ & _ & ? & _).
      - intros f -> Hh. destruct (next_frame _ _ _ _ _ Hn) as (Hf & _ & Hm).
        destruct f as [entries h|h]; simpl in *.
        + exists entries. destruct Hm as [? _]. split; [congruence|done].
        + congruence. }
    intros o σ' [[-> ->]|[-> ->]]; eauto.
Qed.

(** ** [hasNext] along a session (C4) *)

Lemma falls_idle cs σ :
  wf σ → _pending σ = [] → publishInitial_calls cs = 0 →
  falls (false :: hasNext_after cs σ) = 0.
Proof.
  revert σ. induction cs as [|c cs IH]; intros σ Hwf Hp Hc; [done|].
  rewrite publishInitial_calls_cons in Hc.
  destruct (is_publishInitial c) eqn:Hpi; [lia|].
  apply is_publishInitial_false in Hpi.
  cbn [hasNext_after]. destruct (step c σ) as [σ1 e] eqn:Hs. cbn [fst].
  pose proof (step_effect c σ σ1 e Hwf Hs) as He.
  destruct (step_idle c σ σ1 e Hwf Hp Hpi Hs) as [Hp1 _].
  apply hasNext_false in Hp1 as Hh. rewrite Hh.
  change (falls (false :: false :: ?l)) with (falls (false :: l)).
  apply IH; [apply He|done|lia].
Qed.

Lemma falls_without_publishInitial cs σ :
  wf σ → publishInitial_calls cs = 0 →
  falls (hasNext σ :: hasNext_after cs σ) ≤ 1.
Proof.
  revert σ. induction cs as [|c cs IH]; intros σ Hwf Hc; [simpl; lia|].
  destruct (hasNext σ) eqn:Hh.
  2:{ apply hasNext_false in Hh. rewrite falls_idle; [lia|done..]. }
  rewrite publishInitial_calls_cons in Hc.
  destruct (is_publishInitial c) eqn:Hpi; [lia|].
  cbn [hasNext_after]. destruct (step c σ) as [σ1 e] eqn:Hs. cbn [fst].
  pose proof (step_effect c σ σ1 e Hwf Hs) as He.
  destruct (hasNext σ1) eqn:Hh1.
  - change (falls (true :: true :: ?l)) with (falls (true :: l)).
    rewrite <- Hh1. apply IH; [apply He|lia].
  - change (falls (true :: false :: ?l)) with (1 + falls (false :: l)).
    apply hasNext_false in Hh1. rewrite falls_idle; [lia|apply He|done|lia].
Qed.

Lemma falls_session cs σ :
  wf σ → _pending σ = [] → publishInitial_calls cs ≤ 1 →
  falls (false :: hasNext_after cs σ) ≤ 1.
Proof.
  revert σ. induction cs as [|c cs IH]; intros σ Hwf Hp Hc; [simpl; lia|].
  rewrite publishInitial_calls_cons in Hc.
  cbn [hasNext_after]. destruct (step c σ) as [σ1 e] eqn:Hs. cbn [fst].
  pose proof (step_effect c σ σ1 e Hwf Hs) as He.
  change (falls (false :: ?b :: ?l)) with (falls (b :: l)).
  destruct (is_publishInitial c) eqn:Hpi.
  - apply falls_without_publishInitial; [apply He|lia].
  - apply is_publishInitial_false in Hpi.
    destruct (step_idle c σ σ1 e Hwf Hp Hpi Hs) as [Hp1 _].
    apply hasNext_false in Hp1 as Hh. rewrite Hh.
    apply IH; [apply He|done|lia].
Qed.

(** With nothing pending and no [publishInitial], no frame comes out. *)
Lemma frames_idle cs σ j e :
  wf σ → _pending σ = [] → publishInitial_calls cs = 0 →
  (run cs σ).2 !! j = Some e → frame_in e = None.
Proof.
  revert σ j. induction cs as [|c cs IH]; intros σ j Hwf Hp Hc; [done|].
  rewrite publishInitial_calls_cons in Hc.
  destruct (is_publishInitial c) eqn:Hpi; [lia|].
  apply is_publishInitial_false in Hpi.
  rewrite run_cons. cbn [fst snd]. destruct (step c σ) as [σ1 e1] eqn:Hs.
  pose proof (step_effect c σ σ1 e1 Hwf Hs) as He. cbn [fst snd].
  destruct (step_idle c σ σ1 e1 Hwf Hp Hpi Hs) as [Hp1 Hb].
  destruct j as [|j]; simpl.
  - intros [= <-]. destruct (frame_in e1) as [f|] eqn:Hf; [|done].
    by destruct (step_frame _ _ _ _ _ Hs Hf) as (_ & ? & _).
  - apply IH; [apply He|done|lia].
Qed.

Lemma frames_end_without_publishInitial cs σ i j ei ej f :
  wf σ → publishInitial_calls cs = 0 → i < j →
  (run cs σ).2 !! i = Some ei → frame_in ei = Some f → has_next_of f = false →
  (run cs σ).2 !! j = Some ej → frame_in ej = None.
Proof.
  revert σ i j. induction cs as [|c cs IH]; intros σ i j Hwf Hc Hij; [done|].
  rewrite publishInitial_calls_cons in Hc.
  destruct (is_publishInitial c) eqn:Hpi; [lia|].
  rewrite run_cons. cbn [fst snd]. destruct (step c σ) as [σ1 e1] eqn:Hs.
  pose proof (step_effect c σ σ1 e1 Hwf Hs) as He. cbn [fst snd].
  destruct j as [|j]; [lia|]. destruct i as [|i]; simpl.
  - intros [= <-] Hf Hfalse.
    destruct (step_frame _ _ _ _ _ Hs Hf) as (Hh & _).
    rewrite Hfalse in Hh. symmetry in Hh. apply hasNext_false in Hh.
    apply frames_idle; [apply He|done|lia].
  - apply IH; [apply He|lia|lia].
Qed.

Lemma frames_end_session cs σ i j ei ej f :
  wf σ → _pending σ = [] → publishInitial_calls cs ≤ 1 → i < j →
  (run cs σ).2 !! i = Some ei → frame_in ei = Some f → has_next_of f = false →
  (run cs σ).2 !! j = Some ej → frame_in ej = None.
Proof.
  revert σ i j. induction cs as [|c cs IH]; intros σ i j Hwf Hp Hc Hij; [done|].
  rewrite publishInitial_calls_cons in Hc.
  rewrite run_cons. cbn [fst snd]. destruct (step c σ) as [σ1 e1] eqn:Hs.
  pose proof (step_effect c σ σ1 e1 Hwf Hs) as He. cbn [fst snd].
  destruct j as [|j]; [lia|].
  destruct (is_publishInitial c) eqn:Hpi.
  - apply is_publishInitial_true in Hpi. subst c. injection Hs as <- <-.
    destruct i as [|i]; simpl; [by intros [= <-]|].
    apply frames_end_without_publishInitial; [apply He|lia|lia].
  - apply is_publishInitial_false in Hpi.
    destruct (step_idle c σ σ1 e1 Hwf Hp Hpi Hs) as [Hp1 Hb].
    destruct i as [|i]; simpl.
    + intros [= <-] Hf. by destruct (step_frame _ _ _ _ _ Hs Hf) as (_ & ? & _).
    + apply IH; [apply He|done|lia|lia].
Qed.

(** Once the [isDone] of a closure is set, it stays set, and the closure
    returns [done] at every pull. *)
Lemma step_isDone c σ σ' e k :
  step c σ = (σ', e) → isDone σ !! k = Some true → isDone σ' !! k = Some true.
Proof.
  intros Hs Hk. unfold step in Hs.
  destruct (call_ok σ c) eqn:Hok; [|by injection Hs as <- <-].
  assert (∀ k', <[k':=true]> (isDone σ) !! k = Some true) as Hset.
  { intros k'. destruct (decide (k' = k)) as [->|].
    - apply list_lookup_insert_eq. by eapply lookup_lt_Some.
    - by rewrite list_lookup_insert_ne. }
  destruct c; simpl in Hs, Hok.
  - injection Hs as <- <-.
    destruct (prepare_facts (DeferredFragmentRecord opts) σ Hok eq_refl)
      as (_ & _ & _ & _ & _ & _ & _ & Hd).
    simpl in Hd. by rewrite Hd.
  - injection Hs as <- <-.
    destruct (prepare_facts (StreamItemsRecord opts) σ Hok eq_refl)
      as (_ & _ & _ & _ & _ & _ & _ & Hd).
    simpl in Hd. by rewrite Hd.
  - injection Hs as <- <-. unfold completeDeferredFragmentRecord, _release.
    by destruct (set_has _ _).
  - injection Hs as <- <-. unfold completeStreamItemsRecord, _release.
    by destruct (set_has _ _).
  - by injection Hs as <- <-.
  - by injection Hs as <- <-.
  - injection Hs as <- <-. unfold publishInitial.
    by destruct (publish_all_frame (initialChildren σ) σ) as (_ & _ & ->).
  - unfold filter in Hs.
    destruct (_getDescendants _ _ _ _) as [ds|]; simpl in Hs;
      [|by injection Hs as <- <-].
    destruct (filter_loop nullPath ds σ []) as [σ2 its] eqn:Hloop.
    injection Hs as <- <-.
    by apply filter_loop_spec in Hloop as (_ & -> & _).
  - injection Hs as <- <-. simpl. by apply lookup_app_l_Some.
  - destruct (_next k0 σ) as [[σ2 batch] o] eqn:Hn. injection Hs as <- <-.
    apply next_spec in Hn as [(_ & -> & _)|[_ Hd]]; [done|].
    rewrite (dr_isDone _ _ _ _ _ Hd). by destruct (hasNext σ2).
  - injection Hs as <- <-. apply Hset.
  - injection Hs as <- <-. apply Hset.
Qed.

Lemma step_pulled_ok c σ σ' k batch o :
  step c σ = (σ', Pulled k batch o) → k < length (isDone σ).
Proof.
  unfold step. destruct (call_ok σ c) eqn:Hok; [|done].
  destruct c; simpl in *; try done.
  - by destruct (filter _ _ _) as [[? ?]|].
  - destruct (_next k0 σ) as [[? ?] ?]. intros [= _ <- _ _].
    by apply bool_decide_eq_true in Hok.
Qed.

Lemma run_isDone cs σ k j batch o :
  isDone σ !! k = Some true →
  (run cs σ).2 !! j = Some (Pulled k batch o) → o = Fulfilled Done.
Proof.
  revert σ j. induction cs as [|c cs IH]; intros σ j Hk; [done|].
  rewrite run_cons. cbn [fst snd]. destruct (step c σ) as [σ1 e] eqn:Hs.
  cbn [fst snd]. destruct j as [|j]; simpl.
  - intros [= ->]. apply step_pulled, next_spec in Hs as [(_ & _ & _ & ->)|[Hnd _]];
      [done|]. by rewrite Hk in Hnd.
  - apply IH. by eapply step_isDone.
Qed.

Lemma run_after_last_frame cs σ i j k batch f batch' o :
  i < j →
  (run cs σ).2 !! i = Some (Pulled k batch (Fulfilled (Yield f))) →
  has_next_of f = false →
  (run cs σ).2 !! j = Some (Pulled k batch' o) → o = Fulfilled Done.
Proof.
  revert σ i j. induction cs as [|c cs IH]; intros σ i j Hij; [done|].
  rewrite run_cons. cbn [fst snd]. destruct (step c σ) as [σ1 e] eqn:Hs.
  cbn [fst snd]. destruct j as [|j]; [lia|]. destruct i as [|i]; simpl.
  - intros [= ->] Hf. apply run_isDone.
    pose proof (step_pulled_ok _ _ _ _ _ _ Hs) as Hlt.
    apply step_pulled in Hs.
    destruct (next_frame _ _ _ _ _ Hs) as (Hh & _).
    apply next_spec in Hs as [(_ & _ & _ & [=])|[_ Hd]].
    rewrite (dr_isDone _ _ _ _ _ Hd), <- Hh, Hf.
    by apply list_lookup_insert_eq.
  - apply IH. lia.
Qed.

(** C4.  [hasNext()] is true exactly when [_pending] is not empty.  After
    any sequence of calls, once a pull of a consumer has returned a frame
    whose [hasNext] is false, every later pull of that consumer returns
    [done] and no frame.  In a session, where [publishInitial] is called
    once at most (its contract), the value of [hasNext()] observed after
    each call goes from true to false once at most, and after a frame whose
    [hasNext] is false no pull of any subscriber returns a frame. *)
Theorem hasNext_falls_once_and_ends_the_frames (cs : list Call) :
  (∀ σ, hasNext σ = true ↔ _pending σ ≠ []) ∧
  (∀ i j k batch f batch' o,
     i < j →
     events_of cs !! i = Some (Pulled k batch (Fulfilled (Yield f))) →
     has_next_of f = false →
     events_of cs !! j = Some (Pulled k batch' o) →
     o = Fulfilled Done) ∧
  (session cs →
   falls (hasNext_history cs) ≤ 1 ∧
   ∀ i j ei ej f,
     i < j →
     events_of cs !! i = Some ei → frame_in ei = Some f →
     has_next_of f = false →
     events_of cs !! j = Some ej → frame_in ej = None).
Proof.
  split_and!.
  - apply hasNext_true.
  - intros i j k batch f batch' o. apply run_after_last_frame.
  - intros Hs. split.
    + by apply falls_session; [apply wf_constructor| |].
    + intros i j ei ej f.
      by apply frames_end_session; [apply wf_constructor| |].
Qed.

(** ** The pull on empty sets (C1) *)

(** C1.  A pass of [_next] that finds [_released] and [_pending] empty, in
    a closure that is not done yet, returns nothing: it sets [isDone] and
    suspends on the current [_signalled] promise.  That promise is of the
    generation the state is in, and a completion call does not resolve it,
    nothing being pending. *)
Theorem pull_on_empty_sets_suspends (σ : IncrementalPublisher) (k : nat) :
  _released σ = [] → _pending σ = [] → isDone σ !! k = Some false →
  _next k σ =
    (set_isDone (<[k:=true]> (isDone σ)) σ, [], Awaiting (_signalled σ)) ∧
  ∀ r v,
    let σ' := set_isDone (<[k:=true]> (isDone σ)) σ in
    _signalled (completeDeferredFragmentRecord r v σ') = _signalled σ ∧
    _signalled (completeStreamItemsRecord r v σ') = _signalled σ.
Proof.
  intros Hr Hp Hk. split.
  - destruct σ as [h ic rel pen sg dn]; simpl in *. subst.
    unfold _next. simpl. by rewrite Hk.
  - intros r v σ'.
    unfold completeDeferredFragmentRecord, completeStreamItemsRecord.
    rewrite !release_absent; [done|simpl..];
      rewrite Hp; apply not_elem_of_nil.
Qed.

Lemma pull_on_empty_sets_suspends_witness :
  _released (state_after filtered_session) = [] ∧
  _pending (state_after filtered_session) = [] ∧
  isDone (state_after filtered_session) !! 0 = Some false ∧
  (events_of (filtered_session ++ [Next 0])) !! 5 = Some (Pulled 0 [] (Awaiting 1)).
Proof.
  assert (_released (state_after filtered_session) = []) as Hr
    by (vm_compute; reflexivity).
  assert (_pending (state_after filtered_session) = []) as Hp
    by (vm_compute; reflexivity).
  assert (isDone (state_after filtered_session) !! 0 = Some false) as Hk
    by (vm_compute; reflexivity).
  split_and!; [done..|].
  destruct (pull_on_empty_sets_suspends _ 0 Hr Hp Hk) as [Hn _].
  unfold events_of. rewrite run_app. cbn [snd].
  rewrite lookup_app_r by (vm_compute; lia).
  change (run filtered_session constructor).1 with (state_after filtered_session).
  unfold run, step. cbn [call_ok perform].
  replace (bool_decide (0 < length (isDone (state_after filtered_session))))
    with true by (vm_compute; reflexivity).
  rewrite Hn. vm_compute. reflexivity.
Defined.

(** ** Errors of the termination requests (C3) *)

Lemma first_rejection_None bs :
  first_rejection bs = None ↔ ∀ turn e, Rejects turn e ∉ bs.
Proof.
  induction bs as [|b bs IH]; simpl.
  { split; [|done]. intros _ turn e. apply not_elem_of_nil. }
  assert ((∀ turn e, Rejects turn e ∉ b :: bs) ↔
          (∀ turn e, b ≠ Rejects turn e) ∧ ∀ turn e, Rejects turn e ∉ bs) as ->.
  { split.
    - intros H. split; intros turn e ?; apply (H turn e); [subst; by left|by right].
    - intros [H1 H2] turn e [?|?]%elem_of_cons; [by eapply H1|by eapply H2]. }
  rewrite <- IH.
  destruct b; try (split; [intros ?; by split|by intros [_ ?]]).
  destruct (first_rejection bs) as [[turn' e']|]; [case_bool_decide|];
    (split; [done|]); intros [Hb _]; by destruct (Hb turn e).
Qed.

Lemma first_rejection_Some bs turn e :
  first_rejection bs = Some (turn, e) →
  Rejects turn e ∈ bs ∧ ∀ turn' e', Rejects turn' e' ∈ bs → turn ≤ turn'.
Proof.
  revert turn e. induction bs as [|b bs IH]; intros turn e; simpl; [done|].
  assert (first_rejection bs = Some (turn, e) → (∀ t' e', b ≠ Rejects t' e') →
          Rejects turn e ∈ b :: bs ∧
          ∀ turn' e', Rejects turn' e' ∈ b :: bs → turn ≤ turn') as Hskip.
  { intros [Hin Hmin]%IH Hb. split; [by right|].
    intros turn' e' [?|?]%elem_of_cons; [by destruct (Hb turn' e')|eauto]. }
  destruct b as [|t0 e0| | |]; try (intros H; by apply Hskip).
  destruct (first_rejection bs) as [[t1 e1]|] eqn:Hfr.
  - destruct (IH t1 e1 eq_refl) as [Hin Hmin].
    case_bool_decide; intros [= <- <-].
    + split; [by right|].
      intros turn' e' [[= -> ->]|?]%elem_of_cons; [lia|eauto].
    + split; [by left|].
      intros turn' e' [[= -> ->]|?%Hmin]%elem_of_cons; lia.
  - intros [= <- <-]. split; [by left|].
    intros turn' e' [[= -> ->]|Hin]%elem_of_cons; [lia|].
    by destruct (proj1 (first_rejection_None bs) Hfr turn' e').
Qed.

(** [Promise.all] is fulfilled exactly when no promise of the array is
    rejected or stays pending. *)
Lemma Promise_all_Fulfils bs :
  Promise_all bs = Fulfils ↔
  ∀ b, b ∈ bs → (∀ turn e, b ≠ Rejects turn e) ∧ b ≠ NeverSettles.
Proof.
  unfold Promise_all. destruct (first_rejection bs) as [[turn e]|] eqn:Hfr.
  - apply first_rejection_Some in Hfr as [Hin _]. split; [done|].
    intros H. by destruct (proj1 (H _ Hin) turn e).
  - rewrite first_rejection_None in Hfr.
    destruct (existsb stays_pending bs) eqn:Hex.
    + split; [done|]. intros H.
      apply existsb_exists in Hex as (b & Hb%list_elem_of_In & Hs).
      destruct b; try done. by destruct (proj2 (H _ Hb)).
    + split; [intros _|done]. intros b Hb. split.
      * intros turn e ->. by apply (Hfr turn e).
      * intros ->. apply not_true_iff_false in Hex. apply Hex.
        apply existsb_exists. exists NeverSettles.
        split; [by apply list_elem_of_In|done].
Qed.

(** [Promise.all] is rejected with the reason of a promise of the array
    that no other rejection precedes. *)
Lemma Promise_all_RejectsWith bs e :
  Promise_all bs = RejectsWith e →
  ∃ turn, Rejects turn e ∈ bs ∧ ∀ turn' e', Rejects turn' e' ∈ bs → turn ≤ turn'.
Proof.
  unfold Promise_all. destruct (first_rejection bs) as [[turn e0]|] eqn:Hfr.
  - intros [= ->]. exists turn. by apply first_rejection_Some.
  - by destruct (existsb stays_pending bs).
Qed.

Lemma Promise_all_first bs turn e :
  Rejects turn e ∈ bs →
  (∀ turn' e', Rejects turn' e' ∈ bs → turn < turn' ∨ e' = e) →
  Promise_all bs = RejectsWith e.
Proof.
  intros Hin Hfirst. unfold Promise_all.
  destruct (first_rejection bs) as [[t0 e0]|] eqn:Hfr.
  - apply first_rejection_Some in Hfr as [Hin0 Hmin].
    destruct (Hfirst _ _ Hin0) as [?| ->]; [|done].
    specialize (Hmin _ _ Hin). lia.
  - rewrite first_rejection_None in Hfr. by destruct (Hfr turn e).
Qed.

Lemma Promise_all_StaysPending bs :
  Promise_all bs = StaysPending ↔
  (∀ turn e, Rejects turn e ∉ bs) ∧ NeverSettles ∈ bs.
Proof.
  unfold Promise_all. destruct (first_rejection bs) as [[turn e]|] eqn:Hfr.
  - apply first_rejection_Some in Hfr as [Hin _]. split; [done|].
    intros [H _]. by destruct (H turn e).
  - rewrite first_rejection_None in Hfr.
    destruct (existsb stays_pending bs) eqn:Hex.
    + split; [intros _|done]. split; [done|].
      apply existsb_exists in Hex as (b & Hb%list_elem_of_In & Hs).
      by destruct b.
    + split; [done|]. intros [_ Hin]. apply not_true_iff_false in Hex.
      destruct Hex. apply existsb_exists. exists NeverSettles.
      split; [by apply list_elem_of_In|done].
Qed.

Lemma returnable_source σ r it b :
  returnable σ r = Some (it, b) ↔ source_of σ r it ∧ iter_return it = Some b.
Proof.
  unfold returnable, source_of. split.
  - intros H. destruct (heap σ !! r) as [rec|] eqn:Hrec; simpl in H; [|done].
    destruct (isStream rec) eqn:Hs; [|done].
    destruct (asyncIterator rec) as [it'|] eqn:Ha; simpl in H; [|done].
    destruct (iter_return it') as [b'|] eqn:Hb; simpl in H; [|done].
    injection H as <- <-. split; [|done]. by exists rec.
  - intros [(rec & Hrec & Hs & Ha) Hb]. rewrite Hrec. simpl.
    rewrite Hs, Ha. simpl. by rewrite Hb.
Qed.

(** The promises that [returnStreamIterators] awaits: one for every
    pending stream record whose source has a [return] method. *)
Lemma returnStreamIterators_promises σ b :
  b ∈ (omap (returnable σ) (_pending σ)).*2 ↔
  ∃ r it, r ∈ _pending σ ∧ source_of σ r it ∧ iter_return it = Some b.
Proof.
  rewrite list_elem_of_fmap. split.
  - intros ([it b'] & -> & (r & Hr & Hret)%list_elem_of_omap).
    apply returnable_source in Hret as [? ?]. eauto.
  - intros (r & it & Hr & Hsrc & Hb). exists (it, b). split; [done|].
    apply list_elem_of_omap. exists r. split; [done|].
    by apply returnable_source.
Qed.

Lemma returnStreamIterators_cases σ :
  let l := omap (returnable σ) (_pending σ) in
  ((∀ q e, q ∈ l → q.2 ≠ Throws e) ∧
   returnStreamIterators σ = (l.*1, Promise_all (l.*2))) ∨
  (∃ pre it e post,
     l = pre ++ (it, Throws e) :: post ∧
     (∀ q e', q ∈ pre → q.2 ≠ Throws e') ∧
     returnStreamIterators σ = ((pre ++ [(it, Throws e)]).*1, RejectsWith e)).
Proof.
  intros l. unfold returnStreamIterators. fold l.
  destruct (first_throw l) as [Hno|(pre & it & e & post & Hl & Hpre)].
  - left. split; [done|].
    destruct (call_each_faithful l Hno) as [-> Ht]. by rewrite Ht.
  - right. exists pre, it, e, post. split_and!; [done..|].
    destruct (call_each_cut pre it e post Hpre) as [Hc Ht].
    by rewrite Hl, Hc, Ht.
Qed.

Lemma returnStreamIterators_call σ it b :
  (it, b) ∈ omap (returnable σ) (_pending σ) ↔
  ∃ r, r ∈ _pending σ ∧ source_of σ r it ∧ iter_return it = Some b.
Proof.
  rewrite list_elem_of_omap. split.
  - intros (r & Hr & [? ?]%returnable_source). eauto.
  - intros (r & Hr & Hsrc & Hb). exists r. split; [done|].
    by apply returnable_source.
Qed.

(** C3, as the code has it.  [filter] gives the promise of every
    [return()] it calls a handler that ignores the rejection: a source
    whose [return()] rejects leaves a fulfilled promise, and [filter]
    throws only what a [return()] call threw, or the [TypeError] of a
    [return()] that gave no promise.  [_return] and [_throw] await the
    [return()] promises of the pending stream records with no handler:
    when the [return()] of a pending source rejects, no [return()] throws
    and no other rejection comes before it with another error, [_return] is
    rejected with the error of the source, and so is [_throw], whatever
    error it was given.  [_return] gives [done] and [_throw] rejects with
    the error it was given when every [return()] is fulfilled, and
    [_return] gives [done] in that case only. *)
Theorem termination_failure_reaches_the_consumer :
  (∀ cs nullPath origin,
     ∃ σ' requests,
       filter nullPath origin (state_after cs) = Some (σ', requests) ∧
       (∀ it turn e,
          it ∈ requests.*1 → iter_return it = Some (Rejects turn e) →
          (it, Resolves) ∈ requests) ∧
       (∀ e, thrown_by requests = Some e →
             ∃ it, it ∈ requests.*1 ∧
                   (iter_return it = Some (Throws e) ∨
                    (iter_return it = Some NotAPromise ∧ e = TypeError_catch)))) ∧
  (∀ σ k error r it turn e,
     r ∈ _pending σ → source_of σ r it →
     iter_return it = Some (Rejects turn e) →
     (∀ r' it' b,
        r' ∈ _pending σ → source_of σ r' it' → iter_return it' = Some b →
        (∀ e', b ≠ Throws e') ∧
        (∀ turn' e', b = Rejects turn' e' → turn < turn' ∨ e' = e)) →
     (_return k σ).2 = Rejected e ∧ (_throw k error σ).2 = Rejected e) ∧
  (∀ σ k error,
     (∀ r it b,
        r ∈ _pending σ → source_of σ r it → iter_return it = Some b →
        b = Resolves ∨ b = NotAPromise) →
     (_return k σ).2 = Fulfilled Done ∧ (_throw k error σ).2 = Rejected error) ∧
  (∀ σ k,
     (_return k σ).2 = Fulfilled Done →
     ∀ r it b,
       r ∈ _pending σ → source_of σ r it → iter_return it = Some b →
       b = Resolves ∨ b = NotAPromise).
Proof.
  split_and!.
  - intros cs np origin.
    destruct (filter_spec np origin _ (wf_state_after cs))
      as (σ' & requests & Hf & _ & _ & _ & _ & _ & _ & _ &
          its & _ & Hnd & _ & ->).
    destruct (filter_requests_spec its Hnd) as (_ & _ & Hb & _ & _ & Hcut).
    eexists σ', _. split; [done|]. split.
    + intros it turn e ([it' b] & -> & Hin)%list_elem_of_fmap Hret. simpl in Hret.
      destruct (Hb _ _ Hin) as (b0 & Hb0 & ->).
      rewrite Hret in Hb0. by injection Hb0 as <-.
    + intros e (before & it & after & _ & Hit & Hlast & _)%Hcut.
      exists it. split; [|done].
      apply last_Some in Hlast as [l' ->]. apply elem_of_app. right. by left.
  - intros σ k error r it turn e Hr Hsrc Hret Hothers.
    unfold _return, _throw. set (σ' := set_isDone _ σ).
    destruct (returnStreamIterators_cases σ')
      as [[Hno ->]|(pre & it' & e' & post & Hl & _)].
    + assert (Promise_all (omap (returnable σ') (_pending σ')).*2 = RejectsWith e)
        as ->; [|done].
      apply (Promise_all_first _ turn).
      * apply (returnStreamIterators_promises σ'). eauto.
      * intros turn' e'
          (r' & it' & Hr' & Hsrc' & Hret')%(returnStreamIterators_promises σ').
        by apply (Hothers r' it' _ Hr' Hsrc' Hret').
    + assert ((it', Throws e') ∈ omap (returnable σ') (_pending σ')) as Hin
        by (rewrite Hl; apply elem_of_app; right; by left).
      apply returnStreamIterators_call in Hin as (r' & Hr' & Hsrc' & Hret').
      by destruct (proj1 (Hothers r' it' _ Hr' Hsrc' Hret') e').
  - intros σ k error Hall.
    unfold _return, _throw. set (σ' := set_isDone _ σ).
    destruct (returnStreamIterators_cases σ')
      as [[Hno ->]|(pre & it' & e' & post & Hl & _)].
    + assert (Promise_all (omap (returnable σ') (_pending σ')).*2 = Fulfils)
        as ->; [|done].
      apply Promise_all_Fulfils.
      intros b (r & it & Hr & Hsrc & Hret)%(returnStreamIterators_promises σ').
      destruct (Hall r it b Hr Hsrc Hret) as [-> | ->]; by split.
    + assert ((it', Throws e') ∈ omap (returnable σ') (_pending σ')) as Hin
        by (rewrite Hl; apply elem_of_app; right; by left).
      apply returnStreamIterators_call in Hin as (r' & Hr' & Hsrc' & Hret').
      by destruct (Hall r' it' _ Hr' Hsrc' Hret').
  - intros σ k. unfold _return. set (σ' := set_isDone _ σ).
    destruct (returnStreamIterators_cases σ')
      as [[Hno ->]|(pre & it' & e' & post & _ & _ & ->)]; [|done].
    simpl. destruct (Promise_all _) eqn:Hall; try done. intros _.
    intros r it b Hr Hsrc Hret.
    rewrite Promise_all_Fulfils in Hall.
    destruct (Hall b) as [Hrej Hnev].
    { apply (returnStreamIterators_promises σ'). eauto. }
    assert ((it, b) ∈ omap (returnable σ') (_pending σ')) as Hin
      by (apply returnStreamIterators_call; eauto).
    pose proof (λ e, Hno _ e Hin) as Hthrow. simpl in Hthrow.
    destruct b; auto; try done.
    + by destruct (Hrej turn e).
    + by destruct (Hthrow e).
Qed.

(** With one pending stream record whose source rejects [return()],
    [_return] is rejected with the error of the source, and [_throw] is
    rejected with it too, in place of the error it was given. *)
Lemma termination_failure_reaches_the_consumer_witness :
  let σ := state_after streaming_session in
  0 ∈ _pending σ ∧ source_of σ 0 failing_source ∧
  iter_return failing_source = Some (Rejects 0 "cancel failed") ∧
  (_return 0 σ).2 = Rejected "cancel failed" ∧
  (_throw 0 "consumer error" σ).2 = Rejected "cancel failed".
Proof.
  intros σ.
  assert (_pending σ = [0]) as Hp by (vm_compute; reflexivity).
  assert (0 ∈ _pending σ) as Hr by (rewrite Hp; by left).
  assert (source_of σ 0 failing_source) as Hsrc
    by (eexists; split_and!; vm_compute; reflexivity).
  assert (∀ r' it' b,
            r' ∈ _pending σ → source_of σ r' it' → iter_return it' = Some b →
            (∀ e', b ≠ Throws e') ∧
            (∀ turn' e', b = Rejects turn' e' →
                         0 < turn' ∨ e' = ("cancel failed" : GraphQLError)))
    as Hothers.
  { intros r' it' b. rewrite Hp. intros ->%list_elem_of_singleton.
    intros (rec & Hrec & _ & Hit) Hb.
    vm_compute in Hrec. injection Hrec as <-.
    simpl in Hit. injection Hit as <-.
    simpl in Hb. injection Hb as <-.
    split; [done|]. intros turn' e' [= <- <-]. by right. }
  split_and!; [done..| |];
    by destruct (proj1 (proj2 termination_failure_reaches_the_consumer)
                   σ 0 "consumer error"%string 0 failing_source 0
                   "cancel failed"%string Hr Hsrc eq_refl Hothers).
Defined.

(** ** The theorems at the sample sessions *)

Lemma next_eta k σ : _next k σ = ((_next k σ).1.1, (_next k σ).1.2, (_next k σ).2).
Proof. by destruct (_next k σ) as [[? ?] ?]. Qed.

Lemma child_enters_only_after_parent_is_drained_witness :
  parent_of (state_after nested_session) 1 = Some (Some 0) ∧
  emitted_at (events_of nested_session) 8 1 ∧
  ∃ i, i < 8 ∧ drained_at (events_of nested_session) i 0.
Proof.
  assert (parent_of (state_after nested_session) 1 = Some (Some 0)) as Hpar
    by (vm_compute; reflexivity).
  assert (emitted_at (events_of nested_session) 8 1) as Hem.
  { eexists. split; [vm_compute; reflexivity|]. vm_compute. by left. }
  split_and!; [done..|].
  by apply (child_enters_only_after_parent_is_drained nested_session 1 0 Hpar).
Defined.

Lemma hasNext_falls_once_and_ends_the_frames_witness :
  session nested_session ∧
  falls (hasNext_history nested_session) ≤ 1.
Proof.
  assert (session nested_session) as Hs by (vm_compute; lia).
  split; [done|].
  destruct (hasNext_falls_once_and_ends_the_frames nested_session)
    as (_ & _ & Hfalls).
  by destruct (Hfalls Hs) as [? _].
Defined.

Lemma second_drain_repeats_no_record_witness :
  session ready_session ∧
  (_next 0 (state_after ready_session)).1.2 = [0] ∧
  (_next 0 (_next 0 (state_after ready_session)).1.1).1.2 = [1] ∧
  ∀ r, r ∈ (_next 0 (state_after ready_session)).1.2 →
       r ∉ (_next 0 (_next 0 (state_after ready_session)).1.1).1.2.
Proof.
  assert (session ready_session) as Hs by (vm_compute; lia).
  split_and!; [done|vm_compute; reflexivity|vm_compute; reflexivity|].
  by destruct (second_drain_repeats_no_record ready_session 0 0 _ _ _ _ _ _ Hs
                 (next_eta 0 _) (next_eta 0 _)) as [? _].
Defined.

Lemma exhausted_stream_adds_no_entry_witness :
  exhausted (state_after exhausted_session) 0 = true ∧
  ∃ σ' recd,
    heap (state_after exhausted_session) !! 1 = Some recd ∧
    _getIncrementalResult [0; 1] (state_after exhausted_session)
    = (σ', Some (IncrementalFrame [incrementalResult_of 1 recd] (hasNext σ'))).
Proof.
  split; [vm_compute; reflexivity|].
  assert (is_Some (heap (state_after exhausted_session) !! 1)) as [recd Hd]
    by (vm_compute; eauto).
  exists (_getIncrementalResult [0; 1] (state_after exhausted_session)).1, recd.
  split; [done|].
  destruct (exhausted_stream_adds_no_entry (state_after exhausted_session)
              (_getIncrementalResult [0; 1] (state_after exhausted_session)).1
              [0; 1]
              (_getIncrementalResult [0; 1] (state_after exhausted_session)).2)
    as [_ Hpair].
  { by destruct (_getIncrementalResult _ _). }
  rewrite <- (Hpair 0 1 recd);
    [|by left|vm_compute; reflexivity|done|vm_compute; reflexivity].
  by destruct (_getIncrementalResult _ _).
Defined.

Lemma each_record_is_emitted_at_most_once_witness :
  session nested_session ∧
  emitted_records (events_of nested_session) = [0; 1] ∧
  NoDup (emitted_records (events_of nested_session)).
Proof.
  assert (session nested_session) as Hs by (vm_compute; lia).
  split_and!; [done|vm_compute; reflexivity|].
  destruct (each_record_is_emitted_at_most_once nested_session) as [Hmost _].
  by destruct (Hmost Hs) as [? _].
Defined.

(** * Further properties of the code *)

(** ** The tracker sets and the tree in reachable states *)

(** After any sequence of calls, [_released] is a part of [_pending], as
    the comment on the class has it; the records of both sets exist, and
    [_released] holds no record twice. *)
Theorem released_is_part_of_pending (cs : list Call) :
  (∀ r, r ∈ _released (state_after cs) → r ∈ _pending (state_after cs)) ∧
  (∀ r, r ∈ _pending (state_after cs) →
        ∃ rec, heap (state_after cs) !! r = Some rec) ∧
  NoDup (_released (state_after cs)).
Proof.
  pose proof (wf_state_after cs) as Hwf. split_and!; [apply Hwf| |apply Hwf].
  intros r Hr. apply (wf_pending _ Hwf), allocated_lookup in Hr as [rec Hrec].
  eauto.
Qed.

(** After any sequence of calls the children sets form a forest: a record
    is a child of the record its [parentContext] names and of no other, a
    child of [_initialResult] has no [parentContext], and a parent was
    created before its children, so no record is its own descendant. *)
Theorem children_form_a_forest (cs : list Call) :
  let σ := state_after cs in
  (∀ p c, c ∈ children_of σ p → parent_of σ c = Some (Some p) ∧ p < c) ∧
  (∀ c, c ∈ initialChildren σ → parent_of σ c = Some None) ∧
  (∀ p p' c, c ∈ children_of σ p → c ∈ children_of σ p' → p = p') ∧
  (∀ p c, c ∈ children_of σ p → c ∉ initialChildren σ) ∧
  (∀ r, ¬ descendant σ (children_of σ r) r).
Proof.
  intros σ. pose proof (wf_state_after cs) as Hwf. fold σ in Hwf.
  split_and!.
  - intros p c Hc. by destruct (wf_children _ Hwf _ _ Hc).
  - apply Hwf.
  - intros p p' c Hc Hc'.
    destruct (wf_children _ Hwf _ _ Hc) as [_ H1].
    destruct (wf_children _ Hwf _ _ Hc') as [_ H2]. congruence.
  - intros p c Hc Hi. destruct (wf_children _ Hwf _ _ Hc) as [_ H1].
    apply (wf_initial _ Hwf) in Hi. congruence.
  - intros r Hd.
    assert (∀ x, descendant σ (children_of σ r) x → r < x) as Hlt.
    { induction 1 as [x Hx|q x _ IH Hx].
      - by destruct (wf_children _ Hwf _ _ Hx).
      - destruct (wf_children _ Hwf _ _ Hx). lia. }
    specialize (Hlt r Hd). lia.
Qed.

(** After any sequence of calls, [_getDescendants] on the children of a
    record, or of [_initialResult], returns: within the fuel [filter] gives
    it, it yields every descendant, each once, and nothing else. *)
Theorem getDescendants_lists_each_descendant_once
    (cs : list Call) (origin : option RecordRef) :
  let σ := state_after cs in
  ∃ ds,
    _getDescendants (S (length (heap σ))) σ (origin_children σ origin) [] = Some ds ∧
    NoDup ds ∧
    ∀ r, r ∈ ds ↔ descendant σ (origin_children σ origin) r.
Proof.
  intros σ. pose proof (wf_state_after cs) as Hwf. fold σ in Hwf.
  destruct (getDescendants_spec σ (length (heap σ)) Hwf
              (origin_children σ origin) []) as (ds & Hg & Hds & Hnd).
  { intros c Hc. split; [by eapply origin_children_allocated|lia]. }
  exists ds. split_and!; [done|apply Hnd; constructor|].
  intros r. rewrite Hds, elem_of_nil. tauto.
Qed.

(** ** The path test *)

(** [_matchesPath testPath basePath] holds exactly when [testPath] is
    [basePath] followed by more segments: it holds of a path and itself,
    carries over to every extension of [testPath], and composes. *)
Theorem matchesPath_is_the_prefix_test (testPath basePath : list PathKey) :
  (_matchesPath testPath basePath = true ↔ ∃ rest, testPath = basePath ++ rest) ∧
  _matchesPath testPath testPath = true ∧
  (∀ more, _matchesPath testPath basePath = true →
           _matchesPath (testPath ++ more) basePath = true) ∧
  (∀ nullPath, _matchesPath testPath basePath = true →
               _matchesPath basePath nullPath = true →
               _matchesPath testPath nullPath = true) ∧
  (_matchesPath testPath basePath = true →
   _matchesPath basePath testPath = true → testPath = basePath).
Proof.
  split_and!.
  - by rewrite matchesPath_prefix.
  - by apply matchesPath_prefix.
  - intros more. rewrite !matchesPath_prefix. apply prefix_app_r.
  - intros nullPath. rewrite !matchesPath_prefix. intros H1 H2.
    by etrans.
  - rewrite !matchesPath_prefix. intros H1 H2.
    by apply (anti_symm prefix).
Qed.

(** ** [filter] that finds nothing, and [filter] again *)

Lemma filter_loop_no_hit np ds σ its :
  (∀ r, r ∈ ds → ¬ hit σ np r) → filter_loop np ds σ its = (σ, its).
Proof.
  induction ds as [|c ds IH]; intros Hno; [done|]. simpl.
  assert (filter_loop np ds σ its = (σ, its)) as Hrest.
  { apply IH. intros r Hr. apply Hno. by right. }
  destruct (heap σ !! c) as [rec|] eqn:Hc; [|done].
  destruct (_matchesPath (path rec) np) eqn:Hm; [|done].
  exfalso. apply (Hno c); [by left|]. exists rec. split; [done|].
  by apply matchesPath_prefix.
Qed.

Lemma filter_no_match np origin σ :
  wf σ → (∀ r, ¬ pruned σ np origin r) → filter np origin σ = Some (σ, []).
Proof.
  intros Hwf Hno. unfold filter.
  destruct (getDescendants_spec σ (length (heap σ)) Hwf
              (origin_children σ origin) []) as (ds & -> & Hds & _).
  { intros c Hc. split; [by eapply origin_children_allocated|lia]. }
  simpl. rewrite filter_loop_no_hit; [done|].
  intros r Hr Hhit. apply (Hno r). split; [|done].
  apply Hds in Hr as [[]%elem_of_nil|?]. done.
Qed.

Lemma descendant_after_filter np origin σ σ' r :
  (∀ p c, c ∈ children_of σ' p ↔ c ∈ children_of σ p ∧ ¬ pruned σ np origin c) →
  (∀ c, c ∈ initialChildren σ' ↔ c ∈ initialChildren σ ∧ ¬ pruned σ np origin c) →
  descendant σ' (origin_children σ' origin) r →
  descendant σ (origin_children σ origin) r ∧ ¬ pruned σ np origin r.
Proof.
  intros Hc Hi. induction 1 as [r Hr|p r _ [IH _] Hr].
  - assert (r ∈ origin_children σ origin ∧ ¬ pruned σ np origin r) as [? ?].
    { destruct origin as [o|]; simpl in *; [by apply Hc|by apply Hi]. }
    split; [by constructor|done].
  - apply Hc in Hr as [? ?]. split; [by eapply descendant_child|done].
Qed.

(** In every reachable state, a [filter] call that no descendant of the
    origin matches changes nothing at all: no set, no record, no promise
    (it wakes nobody), and it asks no source to terminate. *)
Theorem filter_without_match_changes_nothing
    (cs : list Call) (nullPath : list PathKey) (origin : option RecordRef) :
  (∀ r, ¬ pruned (state_after cs) nullPath origin r) →
  filter nullPath origin (state_after cs) = Some (state_after cs, []).
Proof. apply filter_no_match, wf_state_after. Qed.

(** In every reachable state, [filter] is idempotent: the same call again,
    right after, changes nothing and asks no source to terminate a second
    time. *)
Theorem filter_again_changes_nothing
    (cs : list Call) (nullPath : list PathKey) (origin : option RecordRef)
    (σ' : IncrementalPublisher)
    (requests : list (AsyncIterator * ReturnBehaviour)) :
  filter nullPath origin (state_after cs) = Some (σ', requests) →
  filter nullPath origin σ' = Some (σ', []).
Proof.
  intros Hf. pose proof (wf_state_after cs) as Hwf.
  set (σ := state_after cs) in *.
  assert (wf σ') as Hwf'.
  { by apply (eff_wf _ _ _ Silent (effect_filter _ _ _ _ _ Silent Hwf Hf eq_refl)). }
  destruct (filter_spec nullPath origin σ Hwf)
    as (σ2 & req2 & Hf2 & Hst & _ & _ & _ & _ & Hc & Hi & _).
  rewrite Hf in Hf2. injection Hf2 as <- <-.
  apply filter_no_match; [done|].
  intros r [Hd Hhit].
  destruct (descendant_after_filter _ _ _ _ _ Hc Hi Hd) as [Hd0 Hno].
  apply Hno. split; [done|]. by apply (static_hit σ σ'), Hhit.
Qed.

Lemma filter_without_match_changes_nothing_witness :
  (∀ r, ¬ pruned (state_after shared_source_session)
          [Field "x"; Index 0; Field "name"] None r) ∧
  filter [Field "x"; Index 0; Field "name"] None
    (state_after shared_source_session)
  = Some (state_after shared_source_session, []).
Proof.
  assert (∀ r, ¬ pruned (state_after shared_source_session)
                 [Field "x"; Index 0; Field "name"] None r) as Hno.
  { intros r [_ (rec & Hrec & Hpre)]. apply prefix_length in Hpre.
    assert (length (path rec) ≤ 2); [|simpl in Hpre; lia].
    destruct r as [|[|[|r]]]; vm_compute in Hrec; try discriminate;
      injection Hrec as <-; simpl; lia. }
  split; [done|].
  by apply (filter_without_match_changes_nothing shared_source_session).
Defined.

Lemma filter_again_changes_nothing_witness :
  ∃ σ',
    filter [Field "x"] None (state_after shared_source_session)
    = Some (σ', [(live_source, Resolves)]) ∧
    filter [Field "x"] None σ' = Some (σ', []).
Proof.
  destruct (filter [Field "x"] None (state_after shared_source_session))
    as [[σ' requests]|] eqn:Hf; [|by vm_compute in Hf].
  exists σ'.
  assert (requests = [(live_source, Resolves)]) as ->.
  { assert (Some (σ', requests).2 = Some [(live_source, Resolves)]) as Heq;
      [|by injection Heq].
    change (Some (σ', requests).2) with (snd <$> Some (σ', requests)).
    rewrite <- Hf. vm_compute. reflexivity. }
  split; [done|].
  by apply (filter_again_changes_nothing shared_source_session _ _ _ _ Hf).
Defined.

(** ** Creation of records *)

Lemma add_child_new rec σ :
  optref_ok σ (parentContext rec) = true →
  let r := length (heap σ) in
  let σ' := add_child (parentContext rec) r (set_heap (heap σ ++ [rec]) σ) in
  heap σ !! r = None ∧
  heap σ' !! r = Some rec ∧
  r ∈ origin_children σ' (parentContext rec) ∧
  _signalled σ' = _signalled σ ∧
  (∀ r', r' < r → parentContext rec ≠ Some r' → heap σ' !! r' = heap σ !! r') ∧
  (∀ p, parentContext rec = Some p →
        heap σ' !! p =
        (λ recp, set_children (set_add r (children recp)) recp) <$> heap σ !! p).
Proof.
  intros Hok r σ'.
  assert (heap σ !! r = None) as Hfresh by (apply lookup_ge_None; unfold r; lia).
  assert ((heap σ ++ [rec]) !! r = Some rec) as Hnew.
  { rewrite lookup_app_r by (unfold r; lia). unfold r. by rewrite Nat.sub_diag. }
  assert (∀ r', r' < r → (heap σ ++ [rec]) !! r' = heap σ !! r') as Hold
    by (intros r' Hr'; by apply lookup_app_l).
  unfold σ'. destruct (parentContext rec) as [q|] eqn:Hpar; simpl.
  - simpl in Hok. apply bool_decide_eq_true in Hok. fold r in Hok.
    split_and!; try done.
    + rewrite list_lookup_alter_ne by lia. done.
    + unfold children_of. simpl. rewrite list_lookup_alter_eq, Hold by done.
      destruct (lookup_lt_is_Some_2 (heap σ) q Hok) as [recq ->]. simpl.
      apply elem_of_set_add. by left.
    + intros r' Hr' Hne. rewrite list_lookup_alter_ne by congruence.
      by apply Hold.
    + intros p [= <-]. rewrite list_lookup_alter_eq. by rewrite Hold.
  - split_and!; try done.
    + apply elem_of_set_add. by left.
    + intros r' Hr' _. by apply Hold.
Qed.

(** In every reachable state, [prepareNewDeferredFragmentRecord] and
    [prepareNewStreamItemsRecord] return a reference that was not in use,
    to a record that is not completed and has no children and no errors;
    they put it in the children set of its parent (of [_initialResult]
    without one) and change no other record; they publish nothing: both
    tracker sets and the promise are as before, and the new record is not
    pending. *)
Theorem prepareNew_registers_without_publishing (cs : list Call) (opts : Opts) :
  let σ := state_after cs in
  optref_ok σ (opt_parentContext opts) = true →
  ∀ σ' r,
    (σ', r) = prepareNewDeferredFragmentRecord opts σ ∨
    (σ', r) = prepareNewStreamItemsRecord opts σ →
    heap σ !! r = None ∧
    (∃ rec, heap σ' !! r = Some rec ∧
            isCompleted rec = false ∧ children rec = [] ∧ errors rec = [] ∧
            path rec = opt_path opts ∧ label rec = opt_label opts ∧
            parentContext rec = opt_parentContext opts) ∧
    r ∈ origin_children σ' (opt_parentContext opts) ∧
    (∀ r', r' < r → opt_parentContext opts ≠ Some r' →
           heap σ' !! r' = heap σ !! r') ∧
    (∀ p, opt_parentContext opts = Some p →
          heap σ' !! p =
          (λ recp, set_children (set_add r (children recp)) recp) <$> heap σ !! p) ∧
    _pending σ' = _pending σ ∧ _released σ' = _released σ ∧
    _signalled σ' = _signalled σ ∧
    (r ∉ _pending σ').
Proof.
  intros σ Hok σ' r Hprep.
  assert (∃ rec, children rec = [] ∧ errors rec = [] ∧ isCompleted rec = false ∧
                 path rec = opt_path opts ∧ label rec = opt_label opts ∧
                 parentContext rec = opt_parentContext opts ∧
                 r = length (heap σ) ∧
                 σ' = add_child (parentContext rec) (length (heap σ))
                        (set_heap (heap σ ++ [rec]) σ))
    as (rec & Hch & Herr & Hcomp & Hpath & Hlab & Hpar & -> & ->).
  { destruct Hprep as [[= -> ->]|[= -> ->]].
    - by exists (DeferredFragmentRecord opts).
    - by exists (StreamItemsRecord opts). }
  rewrite <- Hpar in Hok.
  destruct (add_child_new rec σ Hok) as (Hfresh & Hnew & Hin & Hsig & Hold & Hp).
  destruct (prepare_facts rec σ Hok Hch) as (_ & _ & _ & _ & _ & Hpe & Hre & _).
  rewrite <- Hpar. split_and!; try done.
  - exists rec. by split_and!.
  - rewrite Hpe. intros Hin'%(wf_pending _ (wf_state_after cs)).
    unfold allocated in Hin'. fold σ in Hin'. lia.
Qed.

Lemma prepareNew_registers_without_publishing_witness :
  optref_ok (state_after ready_session) (Some 1) = true ∧
  2 ∈ children_of
        (prepareNewStreamItemsRecord (opts_at [Field "a"; Field "items"; Index 0]
                                        (Some 1) None)
           (state_after ready_session)).1 1.
Proof.
  assert (optref_ok (state_after ready_session) (Some 1) = true) as Hok
    by (vm_compute; reflexivity).
  split; [done|].
  set (opts := opts_at [Field "a"; Field "items"; Index 0] (Some 1) None).
  destruct (prepareNew_registers_without_publishing ready_session opts Hok
              (prepareNewStreamItemsRecord opts (state_after ready_session)).1
              (prepareNewStreamItemsRecord opts (state_after ready_session)).2)
    as (_ & _ & Hin & _).
  { right. by destruct (prepareNewStreamItemsRecord _ _). }
  apply Hin.
Defined.

(** ** From completion to the frame *)

Lemma next_delivers k σ r rec :
  default false (isDone σ !! k) = false →
  r ∈ _released σ → heap σ !! r = Some rec →
  isStream rec && isCompletedAsyncIterator rec = false →
  ∃ σ',
    _next k σ = (σ', _released σ,
                 Fulfilled (Yield (IncrementalFrame
                                     (omap (entry_of σ) (_released σ))
                                     (hasNext σ')))) ∧
    incrementalResult_of r rec ∈ omap (entry_of σ) (_released σ).
Proof.
  intros Hk Hr Hrec Hlive.
  assert (incrementalResult_of r rec ∈ omap (entry_of σ) (_released σ)) as Hin.
  { apply list_elem_of_omap. exists r. split; [done|].
    unfold entry_of. rewrite Hrec. simpl. by rewrite Hlive. }
  destruct (_next k σ) as [[σ' batch] o] eqn:Hn.
  apply next_spec in Hn as [(Hd & _)|[_ Hd]]; [congruence|].
  destruct Hd as [-> _ _ _ _ _ _ ->]. exists σ'. split; [|done].
  unfold frame_of. rewrite bool_decide_eq_true_2; [done|].
  destruct (omap _ _); [by apply elem_of_nil in Hin|simpl; lia].
Qed.

Lemma release_pending r σ :
  r ∈ _pending σ →
  r ∈ _released (_release r σ) ∧ heap (_release r σ) = heap σ ∧
  isDone (_release r σ) = isDone σ ∧ _pending (_release r σ) = _pending σ ∧
  _signalled (_release r σ) = S (_signalled σ).
Proof.
  intros Hr. unfold _release, set_has. rewrite bool_decide_eq_true_2 by done.
  simpl. split_and!; try done. apply elem_of_set_add. by left.
Qed.

(** A record that is in [_released] and is not an exhausted stream is in
    the frame of the next pull of any consumer that is not done: the pull
    does not suspend, its batch is [_released], and the frame has the entry
    built from the record. *)
Theorem released_record_is_in_the_next_frame
    (σ : IncrementalPublisher) (k : nat) (r : RecordRef)
    (rec : IncrementalDataRecord) :
  default false (isDone σ !! k) = false →
  r ∈ _released σ → heap σ !! r = Some rec →
  isStream rec && isCompletedAsyncIterator rec = false →
  ∃ σ' entries,
    _next k σ = (σ', _released σ,
                 Fulfilled (Yield (IncrementalFrame entries (hasNext σ')))) ∧
    incrementalResult_of r rec ∈ entries.
Proof.
  intros Hk Hr Hrec Hlive.
  destruct (next_delivers k σ r rec Hk Hr Hrec Hlive) as (σ' & Hn & Hin).
  eauto.
Qed.

(** [completeDeferredFragmentRecord] on a pending deferred record, then a
    pull: the frame has an entry for the record with the data of this
    call, a second completion included, with [null] for [undefined] or
    [null] data and no [items]; the entry has the path and label of the
    record, and its errors when there are some. *)
Theorem completed_deferred_record_is_delivered
    (σ : IncrementalPublisher) (k : nat) (r : RecordRef)
    (rec : IncrementalDataRecord) (v : JSValue) :
  default false (isDone σ !! k) = false →
  r ∈ _pending σ → heap σ !! r = Some rec → isStream rec = false →
  ∃ σ' batch entries more entry,
    _next k (completeDeferredFragmentRecord r v σ)
    = (σ', batch, Fulfilled (Yield (IncrementalFrame entries more))) ∧
    r ∈ batch ∧ entry ∈ entries ∧ of_record entry = r ∧
    res_data entry = Some (match v with JSUndefined => JSNull | _ => v end) ∧
    res_items entry = None ∧
    res_path entry = path rec ∧ res_label entry = label rec ∧
    res_errors entry = match errors rec with [] => None | es => Some es end.
Proof.
  intros Hk Hr Hrec Hs. unfold completeDeferredFragmentRecord.
  set (σ1 := set_heap _ σ).
  destruct (release_pending r σ1 Hr) as (Hin & Hh & Hd & _).
  assert (heap (_release r σ1) !! r = Some (complete_data v rec)) as Hrec1.
  { rewrite Hh. simpl. by rewrite list_lookup_alter_eq, Hrec. }
  destruct (next_delivers k _ r _ (eq_trans (f_equal (λ d, default false (d !! k)) Hd) Hk)
              Hin Hrec1) as (σ' & Hn & Hentry).
  { simpl. by rewrite Hs. }
  eexists σ', _, _, _, _. split; [exact Hn|]. split_and!; try done; simpl.
  - by rewrite Hs; destruct v.
  - by rewrite Hs.
  - by destruct (errors rec).
Qed.

(** [completeStreamItemsRecord] on a pending stream record whose source is
    not exhausted, then a pull: the frame has an entry for the record with
    the items of this call, as they were passed, and no [data]. *)
Theorem completed_stream_record_is_delivered
    (σ : IncrementalPublisher) (k : nat) (r : RecordRef)
    (rec : IncrementalDataRecord) (v : JSValue) :
  default false (isDone σ !! k) = false →
  r ∈ _pending σ → heap σ !! r = Some rec →
  isStream rec = true → isCompletedAsyncIterator rec = false →
  ∃ σ' batch entries more entry,
    _next k (completeStreamItemsRecord r v σ)
    = (σ', batch, Fulfilled (Yield (IncrementalFrame entries more))) ∧
    r ∈ batch ∧ entry ∈ entries ∧ of_record entry = r ∧
    res_items entry = Some v ∧ res_data entry = None ∧
    res_path entry = path rec ∧ res_label entry = label rec ∧
    res_errors entry = match errors rec with [] => None | es => Some es end.
Proof.
  intros Hk Hr Hrec Hs Hex. unfold completeStreamItemsRecord.
  set (σ1 := set_heap _ σ).
  destruct (release_pending r σ1 Hr) as (Hin & Hh & Hd & _).
  assert (heap (_release r σ1) !! r = Some (complete_items v rec)) as Hrec1.
  { rewrite Hh. simpl. by rewrite list_lookup_alter_eq, Hrec. }
  destruct (next_delivers k _ r _ (eq_trans (f_equal (λ d, default false (d !! k)) Hd) Hk)
              Hin Hrec1) as (σ' & Hn & Hentry).
  { simpl. by rewrite Hs, Hex. }
  eexists σ', _, _, _, _. split; [exact Hn|]. split_and!; try done; simpl.
  - by rewrite Hs.
  - by rewrite Hs.
  - by destruct (errors rec).
Qed.

Lemma addFieldError_fold r es σ rec :
  heap σ !! r = Some rec →
  let σ1 := foldl (λ s e, addFieldError r e s) σ es in
  heap σ1 !! r = Some (foldl (λ rc e, push_error e rc) rec es) ∧
  _released σ1 = _released σ ∧ _pending σ1 = _pending σ ∧
  isDone σ1 = isDone σ ∧ _signalled σ1 = _signalled σ.
Proof.
  revert σ rec. induction es as [|e es IH]; intros σ rec Hrec; [done|].
  simpl. apply (IH (addFieldError r e σ) (push_error e rec)).
  simpl. by rewrite list_lookup_alter_eq, Hrec.
Qed.

Lemma push_error_fold rec es :
  let rec' := foldl (λ rc e, push_error e rc) rec es in
  errors rec' = errors rec ++ es ∧
  isStream rec' = isStream rec ∧
  isCompletedAsyncIterator rec' = isCompletedAsyncIterator rec ∧
  path rec' = path rec ∧ label rec' = label rec ∧
  data rec' = data rec ∧ items rec' = items rec.
Proof.
  revert rec. induction es as [|e es IH]; intros rec; simpl.
  - by rewrite app_nil_r.
  - destruct (IH (push_error e rec)) as (-> & -> & -> & -> & -> & -> & ->).
    simpl. by rewrite <- app_assoc.
Qed.

(** [addFieldError] calls on a released record that is not drained yet
    wake nobody and change no set; the next pull delivers the record with
    all its errors, the earlier ones first, in the [errors] of its entry,
    and with the payload, path and label it had. *)
Theorem field_errors_reach_the_frame_in_order
    (σ : IncrementalPublisher) (k : nat) (r : RecordRef)
    (rec : IncrementalDataRecord) (es : list GraphQLError) :
  default false (isDone σ !! k) = false →
  r ∈ _released σ → heap σ !! r = Some rec →
  isStream rec && isCompletedAsyncIterator rec = false →
  let σ1 := foldl (λ s e, addFieldError r e s) σ es in
  _signalled σ1 = _signalled σ ∧
  _released σ1 = _released σ ∧ _pending σ1 = _pending σ ∧
  ∃ σ' entries more entry,
    _next k σ1 = (σ', _released σ, Fulfilled (Yield (IncrementalFrame entries more))) ∧
    entry ∈ entries ∧ of_record entry = r ∧
    res_errors entry = match errors rec ++ es with [] => None | l => Some l end ∧
    res_data entry = res_data (incrementalResult_of r rec) ∧
    res_items entry = res_items (incrementalResult_of r rec) ∧
    res_path entry = path rec ∧ res_label entry = label rec.
Proof.
  intros Hk Hr Hrec Hlive σ1.
  destruct (addFieldError_fold r es σ rec Hrec) as (Hrec1 & Hre & Hpe & Hd & Hsig).
  fold σ1 in Hrec1, Hre, Hpe, Hd, Hsig.
  destruct (push_error_fold rec es) as (Herr & Hs & Hex & Hpath & Hlab & Hdata & Hit).
  split_and!; [done..|].
  destruct (next_delivers k σ1 r (foldl (λ rc e, push_error e rc) rec es))
    as (σ' & Hn & Hentry).
  - by rewrite Hd.
  - by rewrite Hre.
  - done.
  - by rewrite Hs, Hex.
  - rewrite Hre in Hn. eexists σ', _, _, _. split; [exact Hn|].
    rewrite Hre in Hentry. split_and!; try done; simpl.
    + rewrite Herr. by destruct (errors rec ++ es).
    + by rewrite Hs, Hdata.
    + by rewrite Hs, Hit.
Qed.

(** ** A batch of exhausted streams *)

(** A pull whose batch is not empty and holds exhausted stream records
    only returns no entries: when nothing is pending after it, it returns
    the bare [{hasNext: false}] and marks the consumer done; when a record
    is still pending, it suspends, and the exhausted records are gone
    without a frame. *)
Theorem batch_of_exhausted_streams_ends_or_suspends
    (σ σ' : IncrementalPublisher) (k : nat) (batch : list RecordRef) (o : Outcome) :
  isDone σ !! k = Some false →
  _released σ ≠ [] → (∀ r, r ∈ _released σ → exhausted σ r = true) →
  _next k σ = (σ', batch, o) →
  batch = _released σ ∧
  (_pending σ' = [] →
   o = Fulfilled (Yield (HasNextFrame false)) ∧ isDone σ' !! k = Some true) ∧
  (_pending σ' ≠ [] →
   o = Awaiting (_signalled σ') ∧ isDone σ' !! k = Some false).
Proof.
  intros Hk Hne Hall Hn.
  apply next_spec in Hn as [(Hd & _)|[_ Hd]]; [by rewrite Hk in Hd|].
  destruct Hd as [-> Hh _ Hp Hr _ Hdone ->].
  assert (omap (entry_of σ) (_released σ) = []) as ->.
  { clear -Hall. induction (_released σ) as [|r l IH]; [done|]. simpl.
    rewrite entry_of_exhausted by (apply Hall; by left).
    apply IH. intros x Hx. apply Hall. by right. }
  assert (existsb (exhausted σ) (_released σ) = true) as ->.
  { destruct (_released σ) as [|r l]; [done|]. simpl.
    rewrite (Hall r) by (by left). done. }
  unfold frame_of. simpl. split_and!; [done| |].
  - intros Hempty%hasNext_false. rewrite Hdone, Hempty. simpl.
    split; [done|]. apply list_lookup_insert_eq. by eapply lookup_lt_Some.
  - intros Hsome%hasNext_true. rewrite Hdone, Hsome. done.
Qed.

(** ** What a drain publishes *)

(** In a reachable state, a pull of a consumer that is not done publishes
    the children of every record of its batch: each child is pending after
    it, and is in the new [_released] exactly when it was completed before
    the pull (a completion that came before the parent's is not lost); the
    new [_released] holds nothing else.  In a session, the records of the
    batch are in neither set after the pull. *)
Theorem drain_publishes_the_children
    (cs : list Call) (k : nat) (σ' : IncrementalPublisher)
    (batch : list RecordRef) (o : Outcome) :
  default false (isDone (state_after cs) !! k) = false →
  _next k (state_after cs) = (σ', batch, o) →
  let σ := state_after cs in
  (∀ p c, p ∈ batch → c ∈ children_of σ p →
          c ∈ _pending σ' ∧ (c ∈ _released σ' ↔ completed σ c)) ∧
  (∀ r, r ∈ _released σ' → ∃ p, p ∈ batch ∧ r ∈ children_of σ p) ∧
  (session cs → ∀ r, r ∈ batch → (r ∉ _pending σ') ∧ (r ∉ _released σ')).
Proof.
  intros Hk Hn σ. pose proof (wf_state_after cs) as Hwf. fold σ in Hwf, Hn, Hk.
  pose proof (effect_next _ _ _ _ _ Hwf Hn) as He.
  apply next_spec in Hn as [(Hd & _)|[_ Hd]]; [congruence|].
  destruct Hd as [Hb _ _ Hp Hr _ _ _]. split_and!.
  - intros p c Hpb Hc. split.
    + apply Hp. right. exists p. split_and!; [done..|].
      by eapply wf_child_allocated.
    + rewrite Hr. split; [by intros (? & _ & _ & ?)|]. eauto.
  - intros r (p & ? & ? & _)%Hr. eauto.
  - intros Hs. destruct (session_once cs Hs) as [Honce Hord].
    assert (∀ r, r ∈ batch → r ∉ _pending σ') as Hgone.
    { intros r Hrb [[_ ?]|(q & Hq & Hc & _)]%Hp; [done|].
      destruct (wf_children _ Hwf _ _ Hc) as [_ Hpar].
      assert (r ∈ _pending σ) as Hrp by (by eapply effect_batch_pending).
      assert (q ∈ _pending σ) as Hqp by (by eapply effect_batch_pending).
      by apply (once_pending _ _ Honce q Hqp), (Hord r). }
    intros r Hrb. split; [by apply Hgone|].
    intros Hin%(wf_released _ (eff_wf _ _ _ _ He)). by apply (Hgone r).
Qed.

Lemma drain_publishes_the_children_witness :
  default false (isDone (state_after ready_session) !! 0) = false ∧
  1 ∈ _released (_next 0 (state_after ready_session)).1.1.
Proof.
  assert (default false (isDone (state_after ready_session) !! 0) = false) as Hk
    by (vm_compute; reflexivity).
  split; [done|].
  destruct (drain_publishes_the_children ready_session 0 _ _ _ Hk (next_eta 0 _))
    as (Hch & _).
  apply (Hch 0 1).
  - vm_compute. by left.
  - vm_compute. by left.
  - eexists. split; vm_compute; reflexivity.
Defined.

(** ** [return] and [throw] of the consumer's iterator *)

Lemma returnStreamIterators_calls σ it :
  it ∈ (omap (returnable σ) (_pending σ)).*1 ↔
  ∃ r, r ∈ _pending σ ∧ source_of σ r it ∧ is_Some (iter_return it).
Proof.
  rewrite list_elem_of_fmap. split.
  - intros ([it' b] & -> & (r & Hr & Hret)%list_elem_of_omap).
    apply returnable_source in Hret as [? ?]. eauto.
  - intros (r & Hr & Hsrc & [b Hb]). exists (it, b). split; [done|].
    apply list_elem_of_omap. exists r. split; [done|].
    by apply returnable_source.
Qed.

(** [_return] and [_throw] on a consumer's iterator do the same to the
    publisher: they set its [isDone] and nothing else (no record leaves
    [_pending], nobody is woken), and they call [return()] on sources,
    with a [return] method, of pending stream records only: on all of
    them when no [return()] throws; a [return()] that throws is the last
    call, and both are rejected with its error.  [_throw] never fulfils:
    it is rejected, or it stays pending for ever, which it does exactly
    when [_return] does; and that is when no [return()] throws, none
    rejects and one gives a promise that never settles.  The next pull of
    this iterator returns [done] and leaves the state as it is. *)
Theorem return_and_throw_only_close_the_iterator
    (σ : IncrementalPublisher) (k : nat) (error : GraphQLError) :
  k < length (isDone σ) →
  let σ' := (_return k σ).1.1 in
  let calls := (_return k σ).1.2 in
  (_throw k error σ).1 = (_return k σ).1 ∧
  heap σ' = heap σ ∧ initialChildren σ' = initialChildren σ ∧
  _pending σ' = _pending σ ∧ _released σ' = _released σ ∧
  _signalled σ' = _signalled σ ∧
  isDone σ' = <[k:=true]> (isDone σ) ∧
  (∀ it, it ∈ calls →
         ∃ r, r ∈ _pending σ ∧ source_of σ r it ∧ is_Some (iter_return it)) ∧
  ((∀ r it e, r ∈ _pending σ → source_of σ r it →
              iter_return it ≠ Some (Throws e)) →
   ∀ r it, r ∈ _pending σ → source_of σ r it → is_Some (iter_return it) →
           it ∈ calls) ∧
  (∀ r it e, r ∈ _pending σ → source_of σ r it →
             iter_return it = Some (Throws e) →
   ∃ it' e', last calls = Some it' ∧ iter_return it' = Some (Throws e') ∧
             (_return k σ).2 = Rejected e' ∧
             (_throw k error σ).2 = Rejected e') ∧
  ((∃ e, (_throw k error σ).2 = Rejected e) ∨ (_throw k error σ).2 = Unsettled) ∧
  ((_throw k error σ).2 = Unsettled ↔ (_return k σ).2 = Unsettled) ∧
  ((_return k σ).2 = Unsettled ↔
   (∀ r it b, r ∈ _pending σ → source_of σ r it → iter_return it = Some b →
              (∀ e, b ≠ Throws e) ∧ (∀ turn e, b ≠ Rejects turn e)) ∧
   ∃ r it, r ∈ _pending σ ∧ source_of σ r it ∧
           iter_return it = Some NeverSettles) ∧
  _next k σ' = (σ', [], Fulfilled Done).
Proof.
  intros Hk σ' calls. unfold calls, σ', _return, _throw.
  set (σ1 := set_isDone _ σ).
  assert (_next k σ1 = (σ1, [], Fulfilled Done)) as Hnext.
  { unfold _next. simpl. by rewrite list_lookup_insert_eq. }
  pose proof (returnStreamIterators_call σ1) as Hcall.
  pose proof (returnStreamIterators_promises σ1) as Hprom.
  destruct (returnStreamIterators_cases σ1)
    as [[Hno ->]|(pre & it0 & e0 & post & Hl & Hpre & ->)]; simpl.
  - split_and!; try done.
    + by intros it ?%(returnStreamIterators_calls σ1).
    + intros _ r it Hr Hsrc Hret.
      apply (returnStreamIterators_calls σ1). eauto.
    + intros r it e Hr Hsrc Hret.
      destruct (Hno (it, Throws e) e); [|done]. apply Hcall. eauto.
    + destruct (Promise_all _); eauto.
    + by destruct (Promise_all _).
    + destruct (Promise_all _) eqn:Hall.
      * split; [done|]. intros [_ (r & it & Hr & Hsrc & Hret)].
        rewrite Promise_all_Fulfils in Hall.
        destruct (Hall NeverSettles) as [_ ?]; [|done]. apply Hprom. eauto.
      * split; [done|]. intros [Hnone _].
        apply Promise_all_RejectsWith in Hall
          as (turn & (r & it & Hr & Hsrc & Hret)%Hprom & _).
        by destruct (proj2 (Hnone r it _ Hr Hsrc Hret) turn e).
      * split; [intros _|done].
        apply Promise_all_StaysPending in Hall
          as [Hrej (r & it & Hr & Hsrc & Hret)%Hprom].
        split; [|eauto]. intros r' it' b Hr' Hsrc' Hret'. split.
        -- intros e ->. destruct (Hno (it', Throws e) e); [|done].
           apply Hcall. eauto.
        -- intros turn e ->. apply (Hrej turn e), Hprom. eauto.
  - assert ((it0, Throws e0) ∈ omap (returnable σ1) (_pending σ1)) as Hin0
      by (rewrite Hl; apply elem_of_app; right; by left).
    apply Hcall in Hin0 as (r0 & Hr0 & Hsrc0 & Hret0).
    split_and!; try done.
    + intros it Hit. apply (returnStreamIterators_calls σ1).
      rewrite Hl, fmap_app. rewrite fmap_app in Hit.
      apply elem_of_app in Hit as [?|Hit]; apply elem_of_app; [by left|right].
      simpl in *. apply list_elem_of_singleton in Hit as ->. by left.
    + intros Hnothrow. by destruct (Hnothrow r0 it0 e0).
    + intros _ _ _ _ _ _. exists it0, e0.
      rewrite fmap_app. simpl. by rewrite last_snoc.
    + eauto.
    + split; [done|]. intros [Hnone _].
      by destruct (proj1 (Hnone r0 it0 _ Hr0 Hsrc0 Hret0) e0).
Qed.

Lemma return_and_throw_only_close_the_iterator_witness :
  0 < length (isDone (state_after streaming_session)) ∧
  (_return 0 (state_after streaming_session)).1.2 = [failing_source] ∧
  _pending (_return 0 (state_after streaming_session)).1.1 = [0].
Proof.
  assert (0 < length (isDone (state_after streaming_session))) as Hk
    by (vm_compute; lia).
  split_and!; [done|vm_compute; reflexivity|].
  destruct (return_and_throw_only_close_the_iterator _ 0 "stop" Hk)
    as (_ & _ & _ & -> & _).
  vm_compute. reflexivity.
Defined.

Lemma step_closed c σ σ' k requests o :
  step c σ = (σ', Closed k requests o) → isDone σ' !! k = Some true.
Proof.
  unfold step. destruct (call_ok σ c) eqn:Hok; [|done].
  destruct c; simpl in *; try done.
  - by destruct (filter _ _ _) as [[? ?]|].
  - by destruct (_next k0 σ) as [[? ?] ?].
  - intros [= <- <- _ _]. simpl. apply list_lookup_insert_eq.
    by apply bool_decide_eq_true in Hok.
  - intros [= <- <- _ _]. simpl. apply list_lookup_insert_eq.
    by apply bool_decide_eq_true in Hok.
Qed.

Lemma run_done_pull cs σ k j batch o :
  isDone σ !! k = Some true →
  (run cs σ).2 !! j = Some (Pulled k batch o) → o = Fulfilled Done ∧ batch = [].
Proof.
  revert σ j. induction cs as [|c cs IH]; intros σ j Hk; [done|].
  rewrite run_cons. cbn [fst snd]. destruct (step c σ) as [σ1 e] eqn:Hs.
  cbn [fst snd]. destruct j as [|j]; simpl.
  - intros [= ->].
    apply step_pulled, next_spec in Hs as [(_ & _ & -> & ->)|[Hnd _]]; [done|].
    by rewrite Hk in Hnd.
  - apply IH. by eapply step_isDone.
Qed.

(** After any sequence of calls: once [return] or [throw] was called on a
    consumer's iterator, every later pull of that iterator returns [done],
    drains nothing and so delivers no frame, whatever was completed in
    between. *)
Theorem closed_iterator_never_drains_again
    (cs : list Call) (i j k : nat) (requests : list AsyncIterator)
    (o o' : Outcome) (batch : list RecordRef) :
  i < j →
  events_of cs !! i = Some (Closed k requests o) →
  events_of cs !! j = Some (Pulled k batch o') →
  o' = Fulfilled Done ∧ batch = [].
Proof.
  unfold events_of. generalize constructor. revert i j.
  induction cs as [|c cs IH]; intros i j σ Hij; [done|].
  rewrite run_cons. cbn [fst snd]. destruct (step c σ) as [σ1 e] eqn:Hs.
  cbn [fst snd]. destruct j as [|j]; [lia|]. destruct i as [|i]; simpl.
  - intros [= ->]. apply run_done_pull. by eapply step_closed.
  - apply IH. lia.
Qed.

Lemma closed_iterator_never_drains_again_witness :
  events_of (streaming_session ++ [Return 0; CompleteStreamItemsRecord 0 JSNull; Next 0])
    !! 3 = Some (Closed 0 [failing_source] (Rejected "cancel failed")) ∧
  ∃ batch o',
    events_of (streaming_session ++
               [Return 0; CompleteStreamItemsRecord 0 JSNull; Next 0])
      !! 5 = Some (Pulled 0 batch o') ∧
    o' = Fulfilled Done ∧ batch = [].
Proof.
  assert (events_of (streaming_session ++
                     [Return 0; CompleteStreamItemsRecord 0 JSNull; Next 0])
            !! 3 = Some (Closed 0 [failing_source] (Rejected "cancel failed")))
    as Hi by (vm_compute; reflexivity).
  assert (events_of (streaming_session ++
                     [Return 0; CompleteStreamItemsRecord 0 JSNull; Next 0])
            !! 5 = Some (Pulled 0 [] (Fulfilled Done)))
    as Hj by (vm_compute; reflexivity).
  split; [done|]. exists [], (Fulfilled Done). split; [done|].
  exact (closed_iterator_never_drains_again _ 3 5 0 _ _ _ _ ltac:(lia) Hi Hj).
Defined.

(** ** Records that are never published *)

Lemma run_length cs σ : length (run cs σ).2 = length cs.
Proof.
  revert σ. induction cs as [|c cs IH]; intros σ; [done|].
  rewrite run_cons. simpl. by rewrite IH.
Qed.

Lemma events_of_app cs1 cs2 :
  events_of (cs1 ++ cs2) = events_of cs1 ++ (run cs2 (state_after cs1)).2 ∧
  state_after (cs1 ++ cs2) = (run cs2 (state_after cs1)).1.
Proof. unfold events_of, state_after. by rewrite run_app. Qed.

Lemma drained_at_later cs1 cs2 j r :
  drained_at (events_of (cs1 ++ cs2)) (length cs1 + j) r →
  r ∈ drained_records (run cs2 (state_after cs1)).2.
Proof.
  destruct (events_of_app cs1 cs2) as [-> _]. intros (e & Hj & Hr).
  rewrite lookup_app_r in Hj by (unfold events_of; rewrite run_length; lia).
  apply elem_of_drained_records. eexists _, e. split; [exact Hj|done].
Qed.

Lemma run_unpublished cs σ r :
  wf σ → publishInitial_calls cs = 0 →
  parent_of σ r = Some None → r ∉ _pending σ →
  (r ∉ _pending (run cs σ).1) ∧ (r ∉ drained_records (run cs σ).2).
Proof.
  revert σ. induction cs as [|c cs IH]; intros σ Hwf Hc Hpar Hr.
  { split; [done|]. apply not_elem_of_nil. }
  rewrite publishInitial_calls_cons in Hc.
  destruct (is_publishInitial c) eqn:Hpi; [lia|].
  apply is_publishInitial_false in Hpi.
  rewrite run_cons. cbn [fst snd]. destruct (step c σ) as [σ1 e] eqn:Hs.
  pose proof (step_effect c σ σ1 e Hwf Hs) as He. cbn [fst snd].
  destruct (IH σ1) as [IH1 IH2].
  - apply He.
  - lia.
  - by eapply effect_parent_of.
  - intros [[? _]|[[? _]|(q & _ & Hq)]]%(eff_pending _ _ _ _ He); [done..|].
    destruct (wf_children _ Hwf _ _ Hq) as [_ ?]. congruence.
  - split; [done|]. rewrite drained_records_cons.
    intros [Hb|?]%elem_of_app; [|done].
    apply Hr. by eapply effect_batch_pending.
Qed.

(** A top-level record that is not pending stays out of [_pending], and is
    never drained, as long as [publishInitial] is not called: a record
    created under [_initialResult] after [publishInitial] is never
    delivered, completed or not. *)
Theorem top_level_record_waits_for_publishInitial
    (cs1 cs2 : list Call) (r : RecordRef) :
  publishInitial_calls cs2 = 0 →
  parent_of (state_after cs1) r = Some None →
  r ∉ _pending (state_after cs1) →
  (r ∉ _pending (state_after (cs1 ++ cs2))) ∧
  ∀ j, ¬ drained_at (events_of (cs1 ++ cs2)) (length cs1 + j) r.
Proof.
  intros Hc Hpar Hr.
  destruct (run_unpublished cs2 (state_after cs1) r (wf_state_after cs1) Hc Hpar Hr)
    as [H1 H2].
  split.
  - by destruct (events_of_app cs1 cs2) as [_ ->].
  - intros j Hj. by apply H2, (drained_at_later cs1 cs2 j).
Qed.

Lemma run_orphan cs σ D r p :
  wf σ → ordered σ D → once σ D → publishInitial_calls cs = 0 →
  p ∈ D → parent_of σ r = Some (Some p) → r ∉ _pending σ →
  (r ∉ _pending (run cs σ).1) ∧ (r ∉ drained_records (run cs σ).2).
Proof.
  revert σ D. induction cs as [|c cs IH]; intros σ D Hwf Hord Honce Hc Hp Hpar Hr.
  { split; [done|]. apply not_elem_of_nil. }
  rewrite publishInitial_calls_cons in Hc.
  destruct (is_publishInitial c) eqn:Hpi; [lia|].
  apply is_publishInitial_false in Hpi.
  rewrite run_cons. cbn [fst snd]. destruct (step c σ) as [σ1 e] eqn:Hs.
  pose proof (step_effect c σ σ1 e Hwf Hs) as He. cbn [fst snd].
  destruct (IH σ1 (D ++ batch_of e)) as [IH1 IH2].
  - apply He.
  - by eapply ordered_step.
  - by eapply once_step.
  - lia.
  - apply elem_of_app. by left.
  - by eapply effect_parent_of.
  - intros [[? _]|[[? _]|(q & Hqb & Hq)]]%(eff_pending _ _ _ _ He); [done..|].
    destruct (wf_children _ Hwf _ _ Hq) as [_ Hpq].
    assert (q = p) as -> by congruence.
    apply (once_pending _ _ Honce p); [|done]. by eapply effect_batch_pending.
  - split; [done|]. rewrite drained_records_cons.
    intros [Hb|?]%elem_of_app; [|done].
    apply Hr. by eapply effect_batch_pending.
Qed.

(** In a session, a record that is not pending and whose parent was
    already drained stays out of [_pending] and is never drained as long
    as [publishInitial] is not called again: a child attached to a record
    after that record was delivered is never delivered. *)
Theorem child_under_delivered_parent_is_never_published
    (cs1 cs2 : list Call) (r p : RecordRef) :
  session cs1 → publishInitial_calls cs2 = 0 →
  p ∈ drained_records (events_of cs1) →
  parent_of (state_after cs1) r = Some (Some p) →
  r ∉ _pending (state_after cs1) →
  (r ∉ _pending (state_after (cs1 ++ cs2))) ∧
  ∀ j, ¬ drained_at (events_of (cs1 ++ cs2)) (length cs1 + j) r.
Proof.
  intros Hs Hc Hp Hpar Hr. destruct (session_once cs1 Hs) as [Honce Hord].
  destruct (run_orphan cs2 (state_after cs1) _ r p (wf_state_after cs1)
              Hord Honce Hc Hp Hpar Hr) as [H1 H2].
  split.
  - by destruct (events_of_app cs1 cs2) as [_ ->].
  - intros j Hj. by apply H2, (drained_at_later cs1 cs2 j).
Qed.

Lemma top_level_record_waits_for_publishInitial_witness :
  publishInitial_calls [CompleteDeferredFragmentRecord 2 JSNull; Next 0; Next 0] = 0 ∧
  parent_of (state_after late_root_session) 2 = Some None ∧
  (2 ∉ _pending (state_after late_root_session)) ∧
  (2 ∉ _pending (state_after
                   (late_root_session ++
                    [CompleteDeferredFragmentRecord 2 JSNull; Next 0; Next 0]))).
Proof.
  assert (publishInitial_calls
            [CompleteDeferredFragmentRecord 2 JSNull; Next 0; Next 0] = 0) as Hc
    by (vm_compute; reflexivity).
  assert (parent_of (state_after late_root_session) 2 = Some None) as Hpar
    by (vm_compute; reflexivity).
  assert (2 ∉ _pending (state_after late_root_session)) as Hr
    by (refine (bool_decide_unpack _ _); vm_compute; exact I).
  split_and!; [done..|].
  by destruct (top_level_record_waits_for_publishInitial _ _ 2 Hc Hpar Hr).
Defined.

Lemma child_under_delivered_parent_is_never_published_witness :
  session late_child_session ∧
  publishInitial_calls [CompleteDeferredFragmentRecord 2 JSNull; Next 0] = 0 ∧
  0 ∈ drained_records (events_of late_child_session) ∧
  parent_of (state_after late_child_session) 2 = Some (Some 0) ∧
  (2 ∉ _pending (state_after late_child_session)) ∧
  (2 ∉ _pending (state_after
                   (late_child_session ++
                    [CompleteDeferredFragmentRecord 2 JSNull; Next 0]))).
Proof.
  assert (session late_child_session) as Hs by (vm_compute; lia).
  assert (publishInitial_calls
            [CompleteDeferredFragmentRecord 2 JSNull; Next 0] = 0) as Hc
    by (vm_compute; reflexivity).
  assert (0 ∈ drained_records (events_of late_child_session)) as Hp
    by (refine (bool_decide_unpack _ _); vm_compute; exact I).
  assert (parent_of (state_after late_child_session) 2 = Some (Some 0)) as Hpar
    by (vm_compute; reflexivity).
  assert (2 ∉ _pending (state_after late_child_session)) as Hr
    by (refine (bool_decide_unpack _ _); vm_compute; exact I).
  split_and!; [done..|].
  by destruct (child_under_delivered_parent_is_never_published _ _ 2 0
                 Hs Hc Hp Hpar Hr).
Defined.

(** ** [publishInitial] *)

Lemma is_completed_spec σ r : is_completed σ r = true ↔ completed σ r.
Proof.
  unfold is_completed, completed. destruct (heap σ !! r) as [rec|].
  - split; [eauto|]. by intros (? & [= <-] & ?).
  - split; [done|]. by intros (? & [=] & _).
Qed.

Lemma publish_signal c σ :
  _signalled (_publish c σ) =
  _signalled σ + (if is_completed σ c then 1 else 0).
Proof.
  unfold _publish, is_completed. destruct (heap σ !! c) as [rec|]; simpl; [|lia].
  destruct (isCompleted rec); simpl; lia.
Qed.

Lemma publish_all_signal cs σ :
  _signalled (publish_all cs σ) =
  _signalled σ + length (base.filter (λ c, is_completed σ c = true) cs).
Proof.
  revert σ. induction cs as [|c cs IH]; intros σ; simpl; [lia|].
  rewrite IH, publish_signal.
  assert (∀ x, is_completed (_publish c σ) x = is_completed σ x) as Heq.
  { intros x. unfold is_completed. by destruct (publish_frame c σ) as (-> & _). }
  rewrite (list_filter_iff _ (λ c, is_completed σ c = true))
    by (intros x; by rewrite Heq).
  destruct (is_completed σ c) eqn:Hc.
  - rewrite filter_cons_True by done. simpl. lia.
  - rewrite filter_cons_False by congruence. lia.
Qed.

(** In every reachable state, [publishInitial] adds the children of
    [_initialResult] to [_pending], and those that are completed to
    [_released] as well; it changes no record, and it resolves the promise
    once for each completed child, so not at all when none is completed.
    After it [hasNext()] is false only when nothing was pending and the
    root has no child. *)
Theorem publishInitial_publishes_the_root_children (cs : list Call) :
  let σ := state_after cs in
  let σ' := publishInitial σ in
  heap σ' = heap σ ∧ initialChildren σ' = initialChildren σ ∧
  (∀ r, r ∈ _pending σ' ↔ r ∈ _pending σ ∨ r ∈ initialChildren σ) ∧
  (∀ r, r ∈ _released σ' ↔
        r ∈ _released σ ∨ (r ∈ initialChildren σ ∧ is_completed σ r = true)) ∧
  _signalled σ' =
    _signalled σ +
    length (base.filter (λ c, is_completed σ c = true) (initialChildren σ)) ∧
  (hasNext σ' = false ↔ _pending σ = [] ∧ initialChildren σ = []).
Proof.
  intros σ σ'. pose proof (wf_state_after cs) as Hwf. fold σ in Hwf.
  destruct (publish_all_frame (initialChildren σ) σ) as (Hh & Hi & _).
  assert (∀ r, r ∈ _pending σ' ↔ r ∈ _pending σ ∨ r ∈ initialChildren σ) as Hp.
  { intros r. unfold σ', publishInitial. rewrite publish_all_pending.
    split; [intros [?|[? _]]; auto|].
    intros [?|?]; [by left|right]. split; [done|].
    by apply wf_initial_allocated. }
  split_and!; try done.
  - intros r. unfold σ', publishInitial.
    by rewrite publish_all_released, is_completed_spec.
  - apply publish_all_signal.
  - rewrite hasNext_false. split.
    + intros Hnil. split.
      * destruct (_pending σ) as [|x l] eqn:Hx; [done|].
        assert (x ∈ _pending σ') as Hin by (apply Hp; left; rewrite ?Hx; by left).
        rewrite Hnil in Hin. by apply elem_of_nil in Hin.
      * destruct (initialChildren σ) as [|x l] eqn:Hx; [done|].
        assert (x ∈ _pending σ') as Hin by (apply Hp; right; rewrite ?Hx; by left).
        rewrite Hnil in Hin. by apply elem_of_nil in Hin.
    + intros [H1 H2]. destruct (_pending σ') as [|x l] eqn:Hx; [done|].
      assert (x ∈ _pending σ ∨ x ∈ initialChildren σ) as [Hin|Hin]
        by (apply Hp; rewrite ?Hx; by left).
      * rewrite H1 in Hin. by apply elem_of_nil in Hin.
      * rewrite H2 in Hin. by apply elem_of_nil in Hin.
Qed.

(** ** Wake-ups *)

Lemma omap_nil {A B} (f : A → option B) (l : list A) :
  omap f l = [] ↔ ∀ x, x ∈ l → f x = None.
Proof.
  induction l as [|a l IH]; simpl.
  - split; [by intros _ x ?%elem_of_nil|done].
  - destruct (f a) eqn:Hfa.
    + split; [done|]. intros H. specialize (H a ltac:(by left)). congruence.
    + rewrite IH. split.
      * intros H x [->|?]%elem_of_cons; auto.
      * intros H x Hx. apply H. by right.
Qed.

Lemma suspends_spec k σ :
  suspends k σ ↔
  default false (isDone σ !! k) = false ∧
  (∀ r, r ∈ _released σ → entry_of σ r = None) ∧
  (existsb (exhausted σ) (_released σ) = true → ∃ r, pending_after_drain σ r).
Proof.
  unfold suspends, pending_after_drain.
  destruct (_next k σ) as [[σ' batch] o] eqn:Hn. simpl.
  apply next_spec in Hn as [(Hd & _ & _ & ->)|[Hnd Hd]].
  { split; [by intros [g [=]]|]. intros [? _]. congruence. }
  destruct Hd as [-> _ _ Hp _ _ _ ->].
  rewrite <- omap_nil. unfold frame_of.
  destruct (omap (entry_of σ) (_released σ)) as [|x l] eqn:Hom; simpl.
  2:{ split; [by intros [g [=]]|]. by intros (_ & [=] & _). }
  destruct (existsb (exhausted σ) (_released σ)); simpl.
  - destruct (hasNext σ') eqn:Hh; simpl.
    + split; [|eauto]. intros _. split_and!; [done..|]. intros _.
      apply hasNext_true in Hh. destruct (_pending σ') as [|r p] eqn:Hp'; [done|].
      exists r. apply Hp. by left.
    + split; [by intros [g [=]]|]. intros (_ & _ & Hex).
      destruct Hex as [r Hr]; [done|]. apply Hp in Hr.
      apply hasNext_false in Hh. rewrite Hh in Hr. by apply elem_of_nil in Hr.
  - split; [|eauto]. intros _. by split_and!.
Qed.

Lemma entry_of_None_exhausted σ r :
  allocated σ r → entry_of σ r = None → exhausted σ r = true.
Proof.
  intros [rec Hrec]%allocated_lookup. unfold entry_of, exhausted. rewrite Hrec.
  simpl. by destruct (isStream rec && isCompletedAsyncIterator rec).
Qed.

(** A call that grows the sets and the tree but leaves [_released] alone
    does not unblock a consumer. *)
Lemma suspends_grow k σ σ' :
  wf σ →
  (∀ r, r ∈ _released σ' ↔ r ∈ _released σ) →
  (∀ r, r ∈ _pending σ → r ∈ _pending σ') →
  (∀ p r, r ∈ children_of σ p → r ∈ children_of σ' p) →
  (∀ r, allocated σ r → allocated σ' r) →
  (∀ r, r ∈ _released σ → entry_of σ r = None → entry_of σ' r = None) →
  default false (isDone σ' !! k) = default false (isDone σ !! k) →
  suspends k σ → suspends k σ'.
Proof.
  intros Hwf Hr Hp Hc Ha He Hd. rewrite !suspends_spec.
  intros (Hk & Hnone & Hex). split_and!.
  - congruence.
  - intros r Hin%Hr. by apply He, Hnone.
  - intros Hsome. apply existsb_exists in Hsome as (r & Hin%list_elem_of_In & _).
    destruct Hex as [x Hx].
    { apply existsb_exists. exists r. apply Hr in Hin.
      split; [by apply list_elem_of_In|].
      apply entry_of_None_exhausted; [|by apply Hnone]. by apply Hwf, Hwf. }
    exists x. destruct Hx as [[? ?]|(p & ? & ? & ?)].
    + left. split; [by apply Hp|]. by rewrite Hr.
    + right. exists p. split_and!; [by apply Hr|by apply Hc|by apply Ha].
Qed.

Lemma suspends_empty k σ :
  _released σ = [] → suspends k σ ↔ default false (isDone σ !! k) = false.
Proof.
  intros Hr. rewrite suspends_spec, Hr. simpl. split; [by intros [? _]|].
  intros ?. split_and!; [done| |done]. by intros r ?%elem_of_nil.
Qed.

Lemma publish_all_quiet cs σ :
  _signalled σ ≤ _signalled (publish_all cs σ) ∧
  (_signalled (publish_all cs σ) = _signalled σ →
   _released (publish_all cs σ) = _released σ).
Proof.
  revert σ. induction cs as [|c cs IH]; intros σ; simpl; [done|].
  destruct (IH (_publish c σ)) as [Hle Heq].
  unfold _publish in *. destruct (heap σ !! c) as [rec|]; [|done].
  destruct (isCompleted rec); simpl in *.
  - split; [lia|]. intros ?. lia.
  - done.
Qed.

Lemma getIncrementalResult_loop_quiet batch σ acc enc σ' acc' enc' :
  getIncrementalResult_loop batch σ acc enc = (σ', acc', enc') →
  _signalled σ ≤ _signalled σ' ∧
  (_signalled σ' = _signalled σ → _released σ' = _released σ).
Proof.
  revert σ acc enc. induction batch as [|p batch IH]; intros σ acc enc; simpl.
  { by intros [= <- _ _]. }
  destruct (heap σ !! p) as [rec|]; [|apply IH].
  destruct (publish_all_quiet (children rec) σ) as [Hle Heq].
  destruct (isStream rec && isCompletedAsyncIterator rec);
    intros [Hle' Heq']%IH; (split; [lia|]);
    intros Hs; rewrite Heq', Heq; (done || lia).
Qed.

Lemma next_quiet k σ σ' batch o :
  _next k σ = (σ', batch, o) →
  _signalled σ ≤ _signalled σ' ∧
  (_signalled σ' = _signalled σ → default false (isDone σ !! k) = false →
   _released σ' = []).
Proof.
  unfold _next. destruct (default false (isDone σ !! k)).
  { intros [= <- _ _]. split; [done|]. by intros _ [=]. }
  set (σ1 := set_released [] _).
  unfold _getIncrementalResult.
  destruct (getIncrementalResult_loop (_released σ) σ1 [] false)
    as [[σ2 acc] enc] eqn:Hl.
  apply getIncrementalResult_loop_quiet in Hl as [Hle Heq]. simpl in Hle, Heq.
  assert (∀ σ3, σ3 = σ2 ∨ σ3 = set_isDone (<[k:=true]> (isDone σ2)) σ2 →
                _signalled σ3 = _signalled σ2 ∧ _released σ3 = _released σ2)
    as H3 by (intros σ3 [-> | ->]; done).
  set (result := if bool_decide _ then _ else _).
  set (σ3 := if negb (hasNext σ2) then _ else σ2).
  destruct (H3 σ3) as [Hs3 Hr3]; [unfold σ3; destruct (hasNext σ2); auto|].
  destruct result; intros [= <- _ _]; rewrite Hs3, Hr3; (split; [lia|]); auto.
Qed.

Lemma filter_loop_quiet np ds σ its σ' its' :
  filter_loop np ds σ its = (σ', its') →
  _signalled σ ≤ _signalled σ' ∧
  (_signalled σ' = _signalled σ → σ' = σ ∧ its' = its).
Proof.
  revert σ its. induction ds as [|c ds IH]; intros σ its; simpl.
  { by intros [= <- <-]. }
  destruct (heap σ !! c) as [rec|]; [|apply IH].
  destruct (_matchesPath (path rec) np); simpl; [|apply IH].
  intros [Hle Heq]%IH.
  assert (_signalled (delete_child (parentContext rec) c (_delete c σ))
          = S (_signalled σ)) as Hs by (by destruct (parentContext rec)).
  rewrite Hs in Hle. split; [lia|]. intros ?. lia.
Qed.

Lemma filter_quiet np origin σ σ' requests :
  filter np origin σ = Some (σ', requests) →
  _signalled σ ≤ _signalled σ' ∧ (_signalled σ' = _signalled σ → σ' = σ).
Proof.
  unfold filter. destruct (_getDescendants _ _ _ _) as [ds|]; simpl; [|done].
  destruct (filter_loop np ds σ []) as [σ2 its] eqn:Hl. intros [= <- _].
  apply filter_loop_quiet in Hl as [Hle Heq]. split; [done|].
  intros Hs. by destruct (Heq Hs).
Qed.

Lemma entry_of_lookup_None f σ σ' r :
  (∀ rec, isStream rec && isCompletedAsyncIterator rec = true →
          isStream (f rec) && isCompletedAsyncIterator (f rec) = true) →
  heap σ' !! r = heap σ !! r ∨ heap σ' !! r = f <$> heap σ !! r →
  entry_of σ r = None → entry_of σ' r = None.
Proof.
  intros Hf [Hl|Hl]; unfold entry_of; rewrite Hl; [done|].
  destruct (heap σ !! r) as [rec|]; simpl; [|done].
  destruct (isStream rec && isCompletedAsyncIterator rec) eqn:Hx; [|done].
  by rewrite Hf.
Qed.

Lemma children_of_lookup f σ σ' p r :
  (∀ rec x, x ∈ children rec → x ∈ children (f rec)) →
  heap σ' !! p = heap σ !! p ∨ heap σ' !! p = f <$> heap σ !! p →
  r ∈ children_of σ p → r ∈ children_of σ' p.
Proof.
  intros Hf [Hl|Hl]; unfold children_of; rewrite Hl; [done|].
  destruct (heap σ !! p) as [rec|]; simpl; [apply Hf|done].
Qed.

(** An update of one record that keeps its children and does not clear
    [isCompletedAsyncIterator] does not unblock a consumer. *)
Lemma suspends_alter f i k σ :
  wf σ →
  (∀ rec, children (f rec) = children rec) →
  (∀ rec, isStream rec && isCompletedAsyncIterator rec = true →
          isStream (f rec) && isCompletedAsyncIterator (f rec) = true) →
  suspends k σ → suspends k (set_heap (alter f i (heap σ)) σ).
Proof.
  intros Hwf Hc Hf.
  assert (∀ r, heap (set_heap (alter f i (heap σ)) σ) !! r = heap σ !! r ∨
               heap (set_heap (alter f i (heap σ)) σ) !! r = f <$> heap σ !! r)
    as Hl.
  { intros r. simpl. rewrite list_lookup_alter.
    destruct (decide (i = r)) as [->|]; auto. }
  apply suspends_grow; simpl; try done.
  - intros p r. apply (children_of_lookup f); [|done].
    intros rec x. by rewrite Hc.
  - intros r. unfold allocated. simpl. by rewrite length_alter.
  - intros r _. by apply (entry_of_lookup_None f).
Qed.

Lemma suspends_prepare rec k σ :
  wf σ → optref_ok σ (parentContext rec) = true →
  suspends k σ →
  suspends k (add_child (parentContext rec) (length (heap σ))
                (set_heap (heap σ ++ [rec]) σ)).
Proof.
  intros Hwf Hok.
  destruct (add_child_new rec σ Hok) as (_ & _ & _ & _ & Hold & Hpar).
  set (r0 := length (heap σ)) in *.
  set (σ' := add_child _ _ _) in *.
  set (g := λ recp, set_children (set_add r0 (children recp)) recp) in *.
  assert (∀ r, r < r0 →
            heap σ' !! r = heap σ !! r ∨ heap σ' !! r = g <$> heap σ !! r) as Hl.
  { intros r Hr. destruct (decide (parentContext rec = Some r)) as [Hp|Hp]; auto. }
  assert (_pending σ' = _pending σ ∧ _released σ' = _released σ ∧
          isDone σ' = isDone σ ∧ r0 ≤ length (heap σ')) as (Hp & Hr & Hd & Hlen).
  { unfold σ', add_child. destruct (parentContext rec); simpl; split_and!;
      try done; rewrite ?length_alter, length_app; unfold r0; lia. }
  apply suspends_grow; try done.
  - intros r. by rewrite Hr.
  - intros r. by rewrite Hp.
  - intros p r Hin. destruct (decide (p < r0)) as [Hlt|Hge].
    + apply (children_of_lookup g σ); [|by apply Hl|done].
      intros recp x Hx. simpl. apply elem_of_set_add. by right.
    + unfold children_of in Hin. rewrite lookup_ge_None_2 in Hin by (unfold r0 in *; lia).
      by apply elem_of_nil in Hin.
  - intros r. unfold allocated. fold r0. lia.
  - intros r Hin. apply (entry_of_lookup_None g); [done|].
    apply Hl. by apply Hwf, Hwf.
  - by rewrite Hd.
Qed.

Lemma default_lookup_insert_ne (l : list bool) k k' :
  k' ≠ k → default false (<[k':=true]> l !! k) = default false (l !! k).
Proof. intros ?. by rewrite list_lookup_insert_ne. Qed.

Lemma default_lookup_snoc (l : list bool) k :
  default false ((l ++ [false]) !! k) = default false (l !! k).
Proof.
  destruct (decide (k < length l)) as [?|?].
  - by rewrite lookup_app_l.
  - rewrite (lookup_ge_None_2 l) by lia. rewrite lookup_app_r by lia.
    by destruct (k - length l) as [|[|?]].
Qed.

(** Only [isDone] of another closure changes. *)
Lemma suspends_isDone k σ d :
  default false (d !! k) = default false (isDone σ !! k) →
  suspends k σ → suspends k (set_isDone d σ).
Proof.
  intros Hd. rewrite !suspends_spec. unfold pending_after_drain. simpl.
  by rewrite Hd.
Qed.

(** The promise [_signalled] is only replaced by [_trigger], so its
    generation never goes back; and a call, other than one on the iterator
    [k], that leaves the generation where it was does not turn a state in
    which a pass of [_next] in [k] would suspend into one in which it would
    not. *)
Lemma step_quiet (c : Call) (k : nat) (σ : IncrementalPublisher) :
  wf σ →
  let σ' := (step c σ).1 in
  _signalled σ ≤ _signalled σ' ∧
  (on_iterator k c = false → suspends k σ →
   _signalled σ' = _signalled σ → suspends k σ').
Proof.
  intros Hwf σ'.
  unfold σ', step. destruct (call_ok σ c) eqn:Hok; [|done].
  destruct c; simpl in *.
  - split; [|intros _ Hs _].
    + destruct (add_child_new (DeferredFragmentRecord opts) σ Hok)
        as (_ & _ & _ & Hsig & _).
      simpl in Hsig. by rewrite Hsig.
    + by apply (suspends_prepare (DeferredFragmentRecord opts)).
  - split; [|intros _ Hs _].
    + destruct (add_child_new (StreamItemsRecord opts) σ Hok)
        as (_ & _ & _ & Hsig & _).
      simpl in Hsig. by rewrite Hsig.
    + by apply (suspends_prepare (StreamItemsRecord opts)).
  - unfold completeDeferredFragmentRecord, _release.
    destruct (set_has _ _); simpl; (split; [lia|]); intros _ Hs Heq; [lia|].
    by apply suspends_alter.
  - unfold completeStreamItemsRecord, _release.
    destruct (set_has _ _); simpl; (split; [lia|]); intros _ Hs Heq; [lia|].
    by apply suspends_alter.
  - split; [done|]. intros _ Hs _. apply suspends_alter; try done.
    intros rec. simpl. intros ?%andb_prop. by rewrite (proj1 H).
  - split; [done|]. intros _ Hs _. by apply suspends_alter.
  - unfold publishInitial.
    destruct (publish_all_quiet (initialChildren σ) σ) as [Hle Hq].
    split; [done|]. intros _ Hs Heq. specialize (Hq Heq).
    destruct (publish_all_frame (initialChildren σ) σ) as (Hh & Hi & Hd).
    apply (suspends_grow k σ); try done.
    + intros r. by rewrite Hq.
    + intros r ?. apply publish_all_pending. by left.
    + intros p r. unfold children_of. by rewrite Hh.
    + intros r. unfold allocated. by rewrite Hh.
    + intros r _. unfold entry_of. by rewrite Hh.
    + by rewrite Hd.
  - destruct (filter nullPath origin σ) as [[σ2 reqs]|] eqn:Hf; simpl; [|done].
    apply filter_quiet in Hf as [Hle Hq]. split; [done|].
    intros _ Hs Heq. by rewrite (Hq Heq).
  - split; [done|]. intros _ Hs _. apply suspends_isDone; [|done].
    apply default_lookup_snoc.
  - destruct (_next k0 σ) as [[σ2 batch] o] eqn:Hn. simpl.
    pose proof Hn as [Hle Hq]%next_quiet. split; [done|].
    intros Hk%bool_decide_eq_false Hs Heq.
    pose proof Hs as (Hdk & _)%suspends_spec.
    apply next_spec in Hn as [(_ & -> & _)|[Hnd Hdr]]; [done|].
    apply suspends_empty; [by apply Hq|].
    rewrite (dr_isDone _ _ _ _ _ Hdr). destruct (hasNext σ2); [done|].
    by rewrite default_lookup_insert_ne.
  - split; [done|]. intros Hk%bool_decide_eq_false Hs _.
    apply suspends_isDone; [|done]. by apply default_lookup_insert_ne.
  - split; [done|]. intros Hk%bool_decide_eq_false Hs _.
    apply suspends_isDone; [|done]. by apply default_lookup_insert_ne.
Qed.

Lemma run_quiet (cs : list Call) (k : nat) (σ : IncrementalPublisher) :
  wf σ → Forall (λ c, on_iterator k c = false) cs →
  _signalled σ ≤ _signalled (run cs σ).1 ∧
  (suspends k σ → _signalled (run cs σ).1 = _signalled σ →
   suspends k (run cs σ).1).
Proof.
  revert σ. induction cs as [|c cs IH]; intros σ Hwf Hcs; [done|].
  apply Forall_cons in Hcs as [Hc Hcs].
  rewrite run_cons. cbn [fst].
  destruct (step_quiet c k σ Hwf) as [Hle Hq].
  destruct (step c σ) as [σ1 e] eqn:Hs. cbn [fst] in *.
  pose proof (step_effect c σ σ1 e Hwf Hs) as He.
  destruct (IH σ1 (eff_wf _ _ _ _ He) Hcs) as [Hle' Hq'].
  split; [lia|]. intros Hsus Heq. apply Hq'; [|lia]. apply Hq; [done..|lia].
Qed.

(** A consumer is parked when its pass of [_next] has suspended: it
    awaits the promise of the generation [g] it read.  If that pass left
    [_released] empty and [_pending] not, then whatever the executor and
    the other consumers call afterwards, the generation never goes below
    [g], and as soon as a pass of the parked consumer would no longer
    suspend (a frame or the end is there for it), the generation is past
    [g]: the promise the consumer awaits has been resolved by [_trigger]. *)
Theorem parked_consumer_is_woken_when_a_result_is_ready
    (cs0 cs : list Call) (k g : nat) (σ1 : IncrementalPublisher)
    (batch : list RecordRef) :
  _next k (state_after cs0) = (σ1, batch, Awaiting g) →
  _released σ1 = [] → _pending σ1 ≠ [] →
  Forall (λ c, on_iterator k c = false) cs →
  let σ2 := (run cs σ1).1 in
  g = _signalled σ1 ∧ suspends k σ1 ∧ g ≤ _signalled σ2 ∧
  (¬ suspends k σ2 → g < _signalled σ2).
Proof.
  intros Hn Hr Hp Hcs σ2.
  pose proof (wf_state_after cs0) as Hwf0.
  pose proof (eff_wf _ _ _ _ (effect_next _ _ _ _ _ Hwf0 Hn)) as Hwf1.
  apply next_spec in Hn as [(_ & _ & _ & [=])|[Hnd Hdr]].
  assert (g = _signalled σ1) as ->.
  { pose proof (dr_outcome _ _ _ _ _ Hdr) as Ho.
    destruct (frame_of _ _ _); [done|]. by injection Ho. }
  assert (suspends k σ1) as Hs1.
  { apply suspends_empty; [done|].
    rewrite (dr_isDone _ _ _ _ _ Hdr).
    apply hasNext_true in Hp. by rewrite Hp. }
  destruct (run_quiet cs k σ1 Hwf1 Hcs) as [Hle Hq].
  split_and!; [done..|]. intros Hns.
  destruct (decide (_signalled σ2 = _signalled σ1)) as [Heq|?]; [|unfold σ2 in *; lia].
  destruct Hns. by apply Hq.
Qed.

Lemma parked_consumer_is_woken_when_a_result_is_ready_witness :
  let σ1 := (_next 0 (state_after unpulled_session)).1.1 in
  let σ2 := (run [CompleteDeferredFragmentRecord 0 (JSON "{}")] σ1).1 in
  (_next 0 (state_after unpulled_session)).2 = Awaiting (_signalled σ1) ∧
  _released σ1 = [] ∧ _pending σ1 = [0] ∧
  ¬ suspends 0 σ2 ∧ _signalled σ1 < _signalled σ2.
Proof.
  intros σ1 σ2.
  assert (_next 0 (state_after unpulled_session)
          = (σ1, [], Awaiting (_signalled σ1))) as Hn
    by (vm_compute; reflexivity).
  assert (_released σ1 = []) as Hr by (vm_compute; reflexivity).
  assert (_pending σ1 = [0]) as Hp by (vm_compute; reflexivity).
  assert (_pending σ1 ≠ []) as Hp' by (rewrite Hp; discriminate).
  assert (Forall (λ c, on_iterator 0 c = false)
                 [CompleteDeferredFragmentRecord 0 (JSON "{}")]) as Hcs
    by (by constructor).
  assert (¬ suspends 0 σ2) as Hns
    by (intros [g Hg]; vm_compute in Hg; discriminate Hg).
  split_and!; [by rewrite Hn|done..|].
  by destruct (parked_consumer_is_woken_when_a_result_is_ready
                 unpulled_session _ 0 _ σ1 [] Hn Hr Hp' Hcs)
    as (_ & _ & _ & Hlt); apply Hlt.
Defined.

(** A pass that suspends can leave records in [_released]: the batch
    held exhausted stream records only, and the pass pushed their completed
    children.  Each push replaced the promise, so the pass awaits the
    promise installed last, which nothing has resolved: the consumer is
    parked although the next pass would return a frame with an entry for
    such a child, and it stays parked until something else calls
    [_trigger]. *)
Theorem pass_parks_over_the_children_it_released
    (cs : list Call) (k : nat) (σ' : IncrementalPublisher)
    (batch : list RecordRef) (g : nat) (r : RecordRef) :
  let σ := state_after cs in
  _next k σ = (σ', batch, Awaiting g) →
  r ∈ _released σ' → exhausted σ' r = false →
  g = _signalled σ' ∧ _signalled σ < g ∧
  (∃ p, p ∈ batch ∧ exhausted σ p = true ∧
        r ∈ children_of σ p ∧ completed σ r) ∧
  ∃ σ'' entries more,
    _next k σ' = (σ'', _released σ',
                  Fulfilled (Yield (IncrementalFrame entries more))) ∧
    r ∈ of_record <$> entries.
Proof.
  intros σ Hn Hr Hex.
  pose proof (wf_state_after cs) as Hwf. fold σ in Hwf.
  pose proof (next_quiet _ _ _ _ _ Hn) as [Hle Hq].
  apply next_spec in Hn as [(_ & _ & _ & [=])|[Hnd Hdr]].
  pose proof (dr_outcome _ _ _ _ _ Hdr) as Ho.
  pose proof (dr_batch _ _ _ _ _ Hdr) as Hb.
  assert (g = _signalled σ' ∧ omap (entry_of σ) batch = []) as [-> Hnone].
  { unfold frame_of in Ho. case_bool_decide as Hlen.
    - done.
    - destruct (_ && _); [done|]. injection Ho as ->. split; [done|].
      destruct (omap (entry_of σ) batch); [done|simpl in Hlen; lia]. }
  apply (dr_released _ _ _ _ _ Hdr) in Hr as Hpush.
  destruct Hpush as (p & Hp & Hc & rec & Hrec & Hcomp).
  assert (r ∈ _pending σ') as Hpend.
  { apply (dr_pending _ _ _ _ _ Hdr). right. exists p. split_and!; [done..|].
    apply allocated_lookup. eauto. }
  split_and!.
  - done.
  - destruct (decide (_signalled σ' = _signalled σ)) as [Heq|?]; [|lia].
    rewrite (Hq Heq Hnd) in Hr. by apply elem_of_nil in Hr.
  - exists p. split_and!; [done| |done|by exists rec].
    apply entry_of_None_exhausted.
    + apply Hwf, Hwf. by rewrite <- Hb.
    + by apply (proj1 (omap_nil _ _) Hnone).
  - destruct (next_delivers k σ' r rec) as (σ'' & Hn' & Hin).
    + rewrite (dr_isDone _ _ _ _ _ Hdr).
      assert (hasNext σ' = true) as ->; [|done].
      apply hasNext_true. intros Hnil. rewrite Hnil in Hpend.
      by apply elem_of_nil in Hpend.
    + done.
    + by rewrite (dr_heap _ _ _ _ _ Hdr).
    + unfold exhausted in Hex.
      by rewrite (dr_heap _ _ _ _ _ Hdr), Hrec in Hex.
    + eexists σ'', _, _. split; [exact Hn'|].
      apply list_elem_of_fmap. by exists (incrementalResult_of r rec).
Qed.

Lemma pass_parks_over_the_children_it_released_witness :
  let σ := state_after exhausted_parent_session in
  let σ' := (_next 0 σ).1.1 in
  (_next 0 σ).2 = Awaiting (_signalled σ') ∧
  _released σ' = [1] ∧ exhausted σ' 1 = false ∧
  _signalled σ < _signalled σ' ∧
  ∃ σ'' entries more,
    _next 0 σ' = (σ'', [1], Fulfilled (Yield (IncrementalFrame entries more))) ∧
    1 ∈ of_record <$> entries.
Proof.
  intros σ σ'.
  assert (_next 0 σ = (σ', [0], Awaiting (_signalled σ'))) as Hn
    by (vm_compute; reflexivity).
  assert (_released σ' = [1]) as Hr by (vm_compute; reflexivity).
  assert (1 ∈ _released σ') as Hin by (rewrite Hr; by left).
  assert (exhausted σ' 1 = false) as Hex by (vm_compute; reflexivity).
  destruct (pass_parks_over_the_children_it_released
              exhausted_parent_session 0 σ' [0] _ 1 Hn Hin Hex)
    as (_ & Hlt & _ & σ'' & entries & more & Hn' & Hent).
  split_and!; [by rewrite Hn|done..|].
  exists σ'', entries, more. split; [|done]. by rewrite <- Hr.
Defined.

(** ** Witnesses of the delivery properties *)

Lemma released_record_is_in_the_next_frame_witness :
  let σ := state_after ready_session in
  ∃ rec σ' entries,
    heap σ !! 0 = Some rec ∧ 0 ∈ _released σ ∧
    _next 0 σ = (σ', _released σ,
                 Fulfilled (Yield (IncrementalFrame entries (hasNext σ')))) ∧
    incrementalResult_of 0 rec ∈ entries.
Proof.
  intros σ.
  set (rec := default (DeferredFragmentRecord (opts_at [] None None))
                      (heap σ !! 0)).
  assert (default false (isDone σ !! 0) = false) as H1
    by (vm_compute; reflexivity).
  assert (0 ∈ _released σ) as H2
    by (refine (bool_decide_unpack _ _); vm_compute; exact I).
  assert (heap σ !! 0 = Some rec) as H3 by (vm_compute; reflexivity).
  assert (isStream rec && isCompletedAsyncIterator rec = false) as H4
    by (vm_compute; reflexivity).
  destruct (released_record_is_in_the_next_frame σ 0 0 rec H1 H2 H3 H4)
    as (σ' & entries & Hn & Hin).
  by exists rec, σ', entries.
Defined.

Lemma completed_deferred_record_is_delivered_witness :
  let σ := state_after waiting_session in
  ∃ σ' batch entries more entry,
    _next 0 (completeDeferredFragmentRecord 0 (JSON "{}") σ)
    = (σ', batch, Fulfilled (Yield (IncrementalFrame entries more))) ∧
    0 ∈ batch ∧ entry ∈ entries ∧ of_record entry = 0 ∧
    res_data entry = Some (JSON "{}").
Proof.
  intros σ.
  set (rec := default (DeferredFragmentRecord (opts_at [] None None))
                      (heap σ !! 0)).
  assert (default false (isDone σ !! 0) = false) as H1
    by (vm_compute; reflexivity).
  assert (0 ∈ _pending σ) as H2
    by (refine (bool_decide_unpack _ _); vm_compute; exact I).
  assert (heap σ !! 0 = Some rec) as H3 by (vm_compute; reflexivity).
  assert (isStream rec = false) as H4 by (vm_compute; reflexivity).
  destruct (completed_deferred_record_is_delivered σ 0 0 rec (JSON "{}")
              H1 H2 H3 H4)
    as (σ' & batch & entries & more & entry & Hn & ? & ? & ? & ? & _).
  by exists σ', batch, entries, more, entry.
Defined.

Lemma completed_stream_record_is_delivered_witness :
  let σ := state_after idle_session in
  ∃ σ' batch entries more entry,
    _next 0 (completeStreamItemsRecord 0 (JSON "[1]") σ)
    = (σ', batch, Fulfilled (Yield (IncrementalFrame entries more))) ∧
    0 ∈ batch ∧ entry ∈ entries ∧ of_record entry = 0 ∧
    res_items entry = Some (JSON "[1]").
Proof.
  intros σ.
  set (rec := default (DeferredFragmentRecord (opts_at [] None None))
                      (heap σ !! 0)).
  assert (default false (isDone σ !! 0) = false) as H1
    by (vm_compute; reflexivity).
  assert (0 ∈ _pending σ) as H2
    by (refine (bool_decide_unpack _ _); vm_compute; exact I).
  assert (heap σ !! 0 = Some rec) as H3 by (vm_compute; reflexivity).
  assert (isStream rec = true) as H4 by (vm_compute; reflexivity).
  assert (isCompletedAsyncIterator rec = false) as H5
    by (vm_compute; reflexivity).
  destruct (completed_stream_record_is_delivered σ 0 0 rec (JSON "[1]")
              H1 H2 H3 H4 H5)
    as (σ' & batch & entries & more & entry & Hn & ? & ? & ? & ? & _).
  by exists σ', batch, entries, more, entry.
Defined.

Lemma field_errors_reach_the_frame_in_order_witness :
  let σ := state_after ready_session in
  let σ1 := addFieldError 0 "second" (addFieldError 0 "first" σ) in
  _signalled σ1 = _signalled σ ∧
  ∃ σ' entries more entry,
    _next 0 σ1 = (σ', _released σ,
                  Fulfilled (Yield (IncrementalFrame entries more))) ∧
    entry ∈ entries ∧ of_record entry = 0 ∧
    res_errors entry = Some ["first"; "second"].
Proof.
  intros σ σ1.
  set (rec := default (DeferredFragmentRecord (opts_at [] None None))
                      (heap σ !! 0)).
  assert (default false (isDone σ !! 0) = false) as H1
    by (vm_compute; reflexivity).
  assert (0 ∈ _released σ) as H2
    by (refine (bool_decide_unpack _ _); vm_compute; exact I).
  assert (heap σ !! 0 = Some rec) as H3 by (vm_compute; reflexivity).
  assert (isStream rec && isCompletedAsyncIterator rec = false) as H4
    by (vm_compute; reflexivity).
  destruct (field_errors_reach_the_frame_in_order σ 0 0 rec
              ["first"; "second"] H1 H2 H3 H4)
    as (Hsig & _ & _ & σ' & entries & more & entry & Hn & ? & ? & He & _).
  split; [exact Hsig|]. by exists σ', entries, more, entry.
Defined.

Lemma batch_of_exhausted_streams_ends_or_suspends_witness :
  let σ := state_after stream_end_session in
  let σ' := (_next 0 σ).1.1 in
  _released σ = [0] ∧ exhausted σ 0 = true ∧ _pending σ' ≠ [] ∧
  (_next 0 σ).2 = Awaiting (_signalled σ') ∧ isDone σ' !! 0 = Some false.
Proof.
  intros σ σ'.
  assert (isDone σ !! 0 = Some false) as H1 by (vm_compute; reflexivity).
  assert (_released σ = [0]) as H2 by (vm_compute; reflexivity).
  assert (exhausted σ 0 = true) as H3 by (vm_compute; reflexivity).
  assert (_pending σ' ≠ []) as H4 by (vm_compute; discriminate).
  assert (_released σ ≠ []) as H5 by (rewrite H2; discriminate).
  assert (∀ r, r ∈ _released σ → exhausted σ r = true) as H6.
  { intros r. rewrite H2. by intros ->%list_elem_of_singleton. }
  assert (_next 0 σ = (σ', (_next 0 σ).1.2, (_next 0 σ).2)) as H7
    by (vm_compute; reflexivity).
  destruct (batch_of_exhausted_streams_ends_or_suspends σ σ' 0 _ _
              H1 H5 H6 H7) as (_ & _ & Hs).
  destruct (Hs H4) as [Ho Hd]. by split_and!.
Defined.

(** ** Records that [filter] removed *)

Lemma run_gone_drained cs σ r :
  wf σ → gone σ r → r ∉ drained_records (run cs σ).2.
Proof.
  revert σ. induction cs as [|c cs IH]; intros σ Hwf Hg.
  { apply not_elem_of_nil. }
  rewrite run_cons. cbn [fst snd]. destruct (step c σ) as [σ1 e] eqn:Hs.
  pose proof (step_effect c σ σ1 e Hwf Hs) as He. cbn [fst snd].
  rewrite drained_records_cons. intros [Hb|Hl]%elem_of_app.
  - destruct Hg as (_ & Hp & _). by apply Hp, (effect_batch_pending c σ σ1 e).
  - revert Hl. apply IH; [apply He|by eapply gone_step].
Qed.

(** A record that [filter] removed is in no batch of a later pull,
    whatever is called afterwards: a completion call on it releases
    nothing, a drain of its former parent does not publish it and neither
    does another [publishInitial]. *)
Theorem filtered_record_is_never_delivered
    (cs1 cs2 : list Call) (nullPath : list PathKey) (origin : option RecordRef)
    (r : RecordRef) :
  pruned (state_after cs1) nullPath origin r →
  ∀ j, ¬ drained_at (events_of (cs1 ++ Filter nullPath origin :: cs2))
                    (length cs1 + j) r.
Proof.
  intros Hpr j Hj%drained_at_later. revert Hj.
  set (σ1 := state_after cs1) in *.
  pose proof (wf_state_after cs1) as Hwf1. fold σ1 in Hwf1.
  rewrite run_cons. cbn [snd].
  destruct (filter_spec nullPath origin σ1 Hwf1) as (σ2 & req & Hf & _).
  assert (step (Filter nullPath origin) σ1 = (σ2, Terminated (req.*1) (thrown_by req))) as Hstep.
  { unfold step. simpl. rewrite (pruned_origin_ok _ _ _ _ Hpr).
    by rewrite Hf. }
  rewrite Hstep. cbn [fst snd]. rewrite drained_records_cons. simpl.
  pose proof (step_effect _ _ _ _ Hwf1 Hstep) as He.
  apply run_gone_drained; [apply He|]. by eapply filter_gone.
Qed.

Lemma filtered_record_is_never_delivered_witness :
  pruned (state_after unfiltered_session) [Field "x"] None 0 ∧
  ¬ drained_at
      (events_of (unfiltered_session ++
                  Filter [Field "x"] None ::
                  [CompleteStreamItemsRecord 0 (JSON "[1]"); PublishInitial;
                   Next 0]))
      (length unfiltered_session + 3) 0.
Proof.
  assert (pruned (state_after unfiltered_session) [Field "x"] None 0) as Hpr.
  { split.
    - apply descendant_root.
      refine (bool_decide_unpack _ _); vm_compute; exact I.
    - eexists. split; [vm_compute; reflexivity|].
      by exists [Field "y"]. }
  split; [exact Hpr|].
  exact (filtered_record_is_never_delivered unfiltered_session _ _ _ 0 Hpr 3).
Defined.
